(** * Telugu rewrite server: ingestion, deduplication and publish pipeline

    A shallow embedding of the queue pipeline of the repository
    (server.js, index.js, src/utils/helpers.js, src/services/rssService.js,
    the worker service with [processQueueItem], and the queue controller),
    of the tweet fetcher, of [getOrCreateTags] and of the fuzzy pass of the
    duplicate finder, followed by the properties of the pipeline.

    JavaScript strings are lists of characters ([str]); the development
    covers ASCII text, where [toLowerCase], [length] and the
    case-insensitive regular expressions of the source act character by
    character.  A value that may be [undefined] or [null] is an [option];
    the [imageUrl] of a document, where a schema default tells the two
    apart, is a [Nullable].  The document store is a pair of lists (queue,
    posts); the generative service, the identifier generator and the feed
    parser are parameters.

    The [URL] class is a parameter as well ([Platform]): the pipeline and
    its properties are stated for every platform, and the properties that
    depend on what [new URL] answers assume that the platform follows the
    URL standard on a fragment of its inputs ([follows_standard]), which
    is written out.  The postSchema of the worker callback, which differs
    between server.js and index.js, is a parameter too ([PostSchema]). *)

From Stdlib Require Import List Ascii Bool Arith NArith Lia QArith.
From Stdlib Require Import Permutation Sorted.
From Stdlib Require String.
Import String.StringSyntax.
Delimit Scope string_scope with string.
Import ListNotations.
Open Scope char_scope.
Open Scope nat_scope.

(* ================================================================== *)
(** * Part I. The program                                             *)
(* ================================================================== *)

(** ** Strings *)

Definition str := list ascii.

Definition lit (x : String.string) : str := String.list_ascii_of_string x.
Arguments lit x%_string.

Definition str_eq_dec : forall a b : str, {a = b} + {a <> b} :=
  list_eq_dec ascii_dec.

Definition str_eqb (a b : str) : bool :=
  if str_eq_dec a b then true else false.

(** JS truthiness of a string: non-empty. *)
Definition truthy (x : str) : bool :=
  match x with [] => false | _ :: _ => true end.

(** JS truthiness of a possibly-undefined string. *)
Definition truthy_opt (x : option str) : bool :=
  match x with Some v => truthy v | None => false end.

(** [a || b] on possibly-undefined strings with a string default. *)
Definition or_else (x : option str) (d : str) : str :=
  match x with
  | Some v => if truthy v then v else d
  | None => d
  end.

Definition in_range (lo hi : nat) (c : ascii) : bool :=
  (lo <=? nat_of_ascii c) && (nat_of_ascii c <=? hi).

Definition is_digit : ascii -> bool := in_range 48 57.
Definition is_upper : ascii -> bool := in_range 65 90.
Definition is_lower : ascii -> bool := in_range 97 122.

Definition to_lower_char (c : ascii) : ascii :=
  if is_upper c then ascii_of_nat (nat_of_ascii c + 32) else c.

(** [String.prototype.toLowerCase] on ASCII text. *)
Definition toLowerCase (x : str) : str := map to_lower_char x.

(** Equality of characters up to ASCII case (the [i] flag). *)
Definition eqb_ci (a b : ascii) : bool :=
  Ascii.eqb (to_lower_char a) (to_lower_char b).

(** [x.startsWith(p)], with the character comparison as a parameter. *)
Fixpoint starts_with (eqc : ascii -> ascii -> bool) (p x : str) : bool :=
  match p, x with
  | [], _ => true
  | _ :: _, [] => false
  | a :: p', b :: x' => eqc a b && starts_with eqc p' x'
  end.

(** [x.endsWith(suffix)]. *)
Definition endsWith (x suffix : str) : bool :=
  starts_with Ascii.eqb (rev suffix) (rev x).

Definition endsWith_ci (x suffix : str) : bool :=
  starts_with eqb_ci (rev suffix) (rev x).

(** [x.slice(0, -n)]. *)
Definition drop_last (n : nat) (x : str) : str :=
  firstn (length x - n) x.

(** [x.includes(needle)], with the character comparison as a parameter. *)
Fixpoint includes_with (eqc : ascii -> ascii -> bool) (needle x : str) : bool :=
  starts_with eqc needle x
  || match x with
     | [] => false
     | _ :: x' => includes_with eqc needle x'
     end.

Definition includes (x needle : str) : bool :=
  includes_with Ascii.eqb needle x.

(** The prefix of [x] before the first character satisfying [p], and the
    rest (which starts with that character, or is empty). *)
Fixpoint break (p : ascii -> bool) (x : str) : str * str :=
  match x with
  | [] => ([], [])
  | c :: r =>
      if p c then ([], x)
      else let (a, b) := break p r in (c :: a, b)
  end.

(** [x.split(d)] for a one-character separator: never the empty list. *)
Fixpoint split_on (d : ascii) (x : str) : list str :=
  match x with
  | [] => [[]]
  | c :: r =>
      if Ascii.eqb c d then [] :: split_on d r
      else match split_on d r with
           | [] => [[c]]
           | h :: t => (c :: h) :: t
           end
  end.

(** [x.replace(/a/g, b)] for single characters. *)
Definition replace_char (a b : ascii) (x : str) : str :=
  map (fun c => if Ascii.eqb c a then b else c) x.

(** The rest of [x] after the prefix [p], compared up to case. *)
Fixpoint strip_prefix (p x : str) : option str :=
  match p, x with
  | [], _ => Some x
  | _ :: _, [] => None
  | a :: p', b :: x' => if eqb_ci a b then strip_prefix p' x' else None
  end.

(** ** The URL standard, on a fragment

    [new URL(s)], the [search] setter, [toString()] and [pathname] belong
    to the JavaScript platform (the WHATWG URL standard), not to the
    repository.  What the standard prescribes is written out here for a
    fragment of its inputs, the one that needs no percent-encoding, host
    rewriting or port handling: [http://] or [https://] in any letter
    case, a letter-digit-hyphen domain whose last label starts with a
    letter, path segments, query and fragment made of characters the
    standard copies unchanged.  Scheme and host are lower-cased and dot
    segments are resolved as in the standard's path state.

    [URL_parse] answers [None] on an input that is not of the fragment:
    this says nothing about what the platform does with that input. *)

Record URL := mkURL {
  scheme : str;
  host : str;
  path : list str;
  query : option str;
  fragment : option str
}.

Definition is_ldh (c : ascii) : bool :=
  is_lower c || is_digit c || Ascii.eqb c "-".

Definition host_char (c : ascii) : bool :=
  is_ldh c || Ascii.eqb c ".".

Definition label_ok (l : str) : bool :=
  truthy l && negb (starts_with Ascii.eqb (lit "xn--") l).

Definition starts_with_letter (l : str) : bool :=
  match l with c :: _ => is_lower c | [] => false end.

Definition host_ok (h : str) : bool :=
  forallb host_char h
  && forallb label_ok (split_on "." h)
  && starts_with_letter (last (split_on "." h) []).

(** Characters of a path segment, query or fragment that the parser
    copies unchanged: letters, digits and [-._~!$&()*+,;=:@]. *)
Definition url_char (c : ascii) : bool :=
  is_lower c || is_upper c || is_digit c
  || existsb (Ascii.eqb c) (lit "-._~!$&()*+,;=:@").

Definition path_char (c : ascii) : bool := url_char c || Ascii.eqb c "/".

Definition query_char (c : ascii) : bool :=
  url_char c || Ascii.eqb c "/" || Ascii.eqb c "?".

Definition fragment_char (c : ascii) : bool :=
  url_char c || Ascii.eqb c "/" || Ascii.eqb c "?" || Ascii.eqb c "#".

Definition opt_forallb (p : ascii -> bool) (x : option str) : bool :=
  match x with Some v => forallb p v | None => true end.

Definition is_single_dot (seg : str) : bool := str_eqb seg (lit ".").
Definition is_double_dot (seg : str) : bool := str_eqb seg (lit "..").

(** The path state of the URL parser on the raw segments: [..] drops the
    last segment collected so far, [.] is skipped, and either of them in
    final position leaves an empty last segment. *)
Fixpoint path_state (acc : list str) (segs : list str) : list str :=
  match segs with
  | [] => acc
  | seg :: rest =>
      let final := match rest with [] => true | _ :: _ => false end in
      if is_double_dot seg then
        path_state (if final then removelast acc ++ [[]] else removelast acc) rest
      else if is_single_dot seg then
        path_state (if final then acc ++ [[]] else acc) rest
      else path_state (acc ++ [seg]) rest
  end.

(** Raw segments of the path text (empty, or starting with a slash). *)
Definition raw_segments (p : str) : list str :=
  match p with
  | [] => [[]]
  | _ :: p' => split_on "/" p'
  end.

(** Cut [x] at the first [d]: the text before it and, when [d] occurs,
    the text after it. *)
Definition cut (d : ascii) (x : str) : str * option str :=
  let (a, b) := break (Ascii.eqb d) x in
  (a, match b with [] => None | _ :: r => Some r end).

Definition parse_scheme (input : str) : option (str * str) :=
  match strip_prefix (lit "https://") input with
  | Some rest => Some (lit "https", rest)
  | None =>
      match strip_prefix (lit "http://") input with
      | Some rest => Some (lit "http", rest)
      | None => None
      end
  end.

Definition is_authority_end (c : ascii) : bool :=
  Ascii.eqb c "/" || Ascii.eqb c "?" || Ascii.eqb c "#".

(** The URL record the standard's parser gives for an input of the
    fragment; [None] when the input is not of the fragment. *)
Definition URL_parse (input : str) : option URL :=
  match parse_scheme input with
  | None => None
  | Some (sch, rest) =>
      let (h, tail) := break is_authority_end rest in
      let h := toLowerCase h in
      let (pq, frag) := cut "#" tail in
      let (p, q) := cut "?" pq in
      if host_ok h && forallb path_char p
         && opt_forallb query_char q && opt_forallb fragment_char frag
      then Some (mkURL sch h (path_state [] (raw_segments p)) q frag)
      else None
  end.

(** The text of a path: every segment after a slash. *)
Definition path_text (segs : list str) : str :=
  concat (map (fun seg => "/" :: seg) segs).

(** The [pathname] of a record. *)
Definition pathname (u : URL) : str := path_text (path u).

(** The serialisation of a record. *)
Definition href (u : URL) : str :=
  scheme u ++ lit "://" ++ host u ++ pathname u
  ++ match query u with Some q => "?" :: q | None => [] end
  ++ match fragment u with Some f => "#" :: f | None => [] end.

(** The [search] setter at the empty string: the query becomes null. *)
Definition set_search_empty (u : URL) : URL :=
  mkURL (scheme u) (host u) (path u) None (fragment u).

(** ** The platform's [URL] class

    The code reaches the platform through four operations.  The pipeline
    below is written over any platform; [None] of [new_URL] stands for
    the [TypeError] that [new URL(s)] throws. *)

Class Platform := {
  URLObject : Type;
  (** [new URL(input)]. *)
  new_URL : str -> option URLObject;
  (** [urlObj.search = ""]. *)
  URL_set_search : URLObject -> URLObject;
  (** [urlObj.toString()]. *)
  URL_toString : URLObject -> str;
  (** [urlObj.pathname]. *)
  URL_pathname : URLObject -> str
}.

(** The standard on the fragment, as a platform that refuses every other
    input.  It is the platform of the closed statements at the end of the
    file, which run the code on inputs of the fragment. *)
Definition fragment_platform : Platform :=
  {| URLObject := URL;
     new_URL := URL_parse;
     URL_set_search := set_search_empty;
     URL_toString := href;
     URL_pathname := pathname |}.

Section Pipeline.

Context {platform : Platform}.

(** ** src/utils/helpers.js (and the copies in server.js, index.js) *)

Definition normalizeUrl (url : option str) : str :=
  match url with
  | None => []
  | Some u =>
      if negb (truthy u) then []
      else match new_URL u with
           | Some urlObj =>
               let urlObj := URL_set_search urlObj in
               let cleanUrl := URL_toString urlObj in
               if endsWith cleanUrl (lit "/") then drop_last 1 cleanUrl
               else cleanUrl
           | None => u
           end
  end.

(** [/^\d+$/.test(x)]. *)
Definition all_digits (x : str) : bool := truthy x && forallb is_digit x.

(** [x.replace(/\.html?$/i, "")]. *)
Definition strip_html_ext (x : str) : str :=
  if endsWith_ci x (lit ".html") then drop_last 5 x
  else if endsWith_ci x (lit ".htm") then drop_last 4 x
  else x.

(** [pathSegments[i]] on a JS array: [undefined] out of range. *)
Definition js_nth (l : list str) (i : nat) : option str := nth_error l i.

Definition extractSlugFromUrl (url : option str) : str :=
  match url with
  | None => []
  | Some u =>
      if negb (truthy u) then []
      else match new_URL u with
           | Some urlObj =>
               let pathSegments :=
                 filter truthy (split_on "/" (URL_pathname urlObj)) in
               let slug :=
                 match length pathSegments with
                 | 0 => None
                 | S n => js_nth pathSegments n
                 end in
               let slug :=
                 if truthy_opt slug
                    && match slug with Some v => all_digits v | None => false end
                    && (1 <? length pathSegments)
                 then js_nth pathSegments (length pathSegments - 2)
                 else slug in
               match slug with
               | None => []
               | Some v =>
                   if negb (truthy v) then []
                   else toLowerCase (replace_char "_" "-" (strip_html_ext v))
               end
           | None => []
           end
  end.

(** ** The string-similarity package

    [compareTwoStrings] and [findBestMatch] come from the npm package
    string-similarity (Dice coefficient on character bigrams).  The rating
    is a quotient of two small integers; it is kept as a rational, so that
    the comparison with the literal [0.65] is the comparison of the source
    wherever the quotient is not within rounding distance of it, and
    exactly at [13/20]. *)

Definition is_space (c : ascii) : bool :=
  Ascii.eqb c " " || in_range 9 13 c.

Definition Bigram := (ascii * ascii)%type.

Definition bigram_eqb (x y : Bigram) : bool :=
  Ascii.eqb (fst x) (fst y) && Ascii.eqb (snd x) (snd y).

Fixpoint bigrams (x : str) : list Bigram :=
  match x with
  | a :: (b :: _) as r => (a, b) :: bigrams r
  | _ => []
  end.

(** The [Map] from bigram to count, as an association list. *)
Fixpoint map_get (m : list (Bigram * nat)) (k : Bigram) : option nat :=
  match m with
  | [] => None
  | (k', v) :: r => if bigram_eqb k' k then Some v else map_get r k
  end.

Fixpoint map_set (m : list (Bigram * nat)) (k : Bigram) (v : nat)
  : list (Bigram * nat) :=
  match m with
  | [] => [(k, v)]
  | (k', v') :: r =>
      if bigram_eqb k' k then (k', v) :: r else (k', v') :: map_set r k v
  end.

Definition count_bigrams (x : str) : list (Bigram * nat) :=
  fold_left
    (fun m b =>
       map_set m b (match map_get m b with Some c => c + 1 | None => 1 end))
    (bigrams x) [].

Definition intersection_size (firstBigrams : list (Bigram * nat)) (second : str)
  : nat :=
  snd (fold_left
         (fun (acc : list (Bigram * nat) * nat) b =>
            let (m, n) := acc in
            let count := match map_get m b with Some c => c | None => 0 end in
            if 0 <? count then (map_set m b (count - 1), n + 1) else (m, n))
         (bigrams second) (firstBigrams, 0)).

Definition compareTwoStrings (first second : str) : Q :=
  let first := filter (fun c => negb (is_space c)) first in
  let second := filter (fun c => negb (is_space c)) second in
  if str_eqb first second then 1%Q
  else if (length first <? 2) || (length second <? 2) then 0%Q
  else
    let intersectionSize := intersection_size (count_bigrams first) second in
    (Z.of_nat (2 * intersectionSize)
     # Pos.of_nat (length first + length second - 2))%Q.

(** [a > b] on ratings. *)
Definition Qgtb (a b : Q) : bool := negb (Qle_bool a b).

(** [findBestMatch(mainString, targetStrings).bestMatch.rating]; the
    package throws on an empty target list ([None]). *)
Definition bestMatchRating (mainString : str) (targetStrings : list str)
  : option Q :=
  match targetStrings with
  | [] => None
  | t0 :: _ =>
      Some (fold_left
              (fun best t =>
                 let currentRating := compareTwoStrings mainString t in
                 if Qgtb currentRating best then currentRating else best)
              targetStrings (compareTwoStrings mainString t0))
  end.

(** The threshold literal [0.65]. *)
Definition SIMILARITY_THRESHOLD : Q := (65 # 100)%Q.

(** ** Documents (queueSchema, postSchema, relatedStorySchema) *)

Record Variant := mkVariant {
  content_type : option str;
  bitrate : nat;
  variant_url : option str
}.

Record Media := mkMedia {
  media_type : option str;
  media_url_https : option str;
  video_variants : option (list Variant)
}.

Record RelatedStory := mkRelatedStory {
  story_title : option str;
  story_summary : option str;
  story_imageUrl : option str;
  story_url : option str
}.

(** A path of a document that holds a string, [null], or nothing.  The
    two empty values are told apart because a schema default replaces
    [undefined] only. *)
Inductive Nullable :=
| undefined
| null
| value (s : str).

(** JS truthiness of such a value. *)
Definition truthy_value (x : Nullable) : bool :=
  match x with value s => truthy s | _ => false end.

(** A possibly-undefined string as such a value. *)
Definition of_option (x : option str) : Nullable :=
  match x with Some s => value s | None => undefined end.

(** [x || null]. *)
Definition or_null (x : option str) : Nullable :=
  match x with
  | Some s => if truthy s then value s else null
  | None => null
  end.

Record QueueItem := mkQueueItem {
  _id : nat;
  id : str;
  text : str;
  url : option str;
  media : option (list Media);
  imageUrl : Nullable;
  extendedEntities_media : option (list Media);
  relatedStories : list RelatedStory;
  source : option str;
  user_name : option str;
  queuedAt : N
}.

Record Post := mkPost {
  postId : N;
  title : option str;
  summary : option str;
  post_text : option str;
  post_url : option str;
  imageSearchSlug : str;
  post_source : str;
  sourceName : str;
  sourceType : str;
  post_imageUrl : Nullable;
  videoUrl : option str;
  post_relatedStories : list RelatedStory;
  categories : list str;
  tags : list nat;
  publishedAt : N;
  isPublished : bool;
  post_type : str;
  lang : str
}.

(** The [imageUrl] path of postSchema.  The worker callback is the same
    text in server.js and index.js, but the two files declare the path
    differently: server.js with a default, index.js without.  The model
    of the worker service, models/Post.js, declares none either. *)
Class PostSchema := {
  imageUrl_default : option str
}.

Definition DEFAULT_IMAGE_URL : str :=
  lit "https://pub-463c5e524a144b19b1f98c36673af4d9.r2.dev/videos/telugu%20shorts.jpg".

(** server.js. *)
Definition server_postSchema : PostSchema :=
  {| imageUrl_default := Some DEFAULT_IMAGE_URL |}.

(** index.js. *)
Definition index_postSchema : PostSchema :=
  {| imageUrl_default := None |}.

(** [new Post({ imageUrl: x, ... })]: the default of the path replaces a
    value that is [undefined]; [null] and a string are kept. *)
Definition with_default (default : option str) (x : Nullable) : Nullable :=
  match x, default with
  | undefined, Some d => value d
  | _, _ => x
  end.

Context {postSchema : PostSchema}.

(** The parsed answer of the generative service. *)
Record GeminiData := mkGeminiData {
  g_title : option str;
  g_summary : option str;
  g_category : option str;
  slug_en : option str
}.

(** The two collections. *)
Record Store := mkStore {
  queue : list QueueItem;
  posts : list Post
}.

(** [Queue.deleteOne({ _id })]: the first document with that [_id]. *)
Fixpoint deleteOne (i : nat) (q : list QueueItem) : list QueueItem :=
  match q with
  | [] => []
  | x :: r => if _id x =? i then r else x :: deleteOne i r
  end.

Definition Queue_deleteOne (i : nat) (st : Store) : Store :=
  mkStore (deleteOne i (queue st)) (posts st).

(** Insertion into a list kept in [queuedAt] order; equal keys keep their
    order of arrival. *)
Fixpoint insert_by_queuedAt (x : QueueItem) (l : list QueueItem)
  : list QueueItem :=
  match l with
  | [] => [x]
  | y :: r =>
      if (queuedAt x <=? queuedAt y)%N then x :: l
      else y :: insert_by_queuedAt x r
  end.

(** [.sort({ queuedAt: 1 })]. *)
Definition sort_by_queuedAt (l : list QueueItem) : list QueueItem :=
  fold_right insert_by_queuedAt [] l.

(** [Queue.find().sort({ queuedAt: 1 }).limit(3)]. *)
Definition select_batch (st : Store) : list QueueItem :=
  firstn 3 (sort_by_queuedAt (queue st)).

(** The unique indexes of postSchema: [postId], and [url] (sparse: only
    documents that have the field). *)
Definition same_opt (a b : option str) : bool :=
  match a, b with
  | Some x, Some y => str_eqb x y
  | _, _ => false
  end.

Definition duplicate_key (p q : Post) : bool :=
  (postId p =? postId q)%N || same_opt (post_url p) (post_url q).

(** The required paths of postSchema: [title], and the [title] of every
    related story. *)
Definition post_valid (p : Post) : bool :=
  truthy_opt (title p)
  && forallb (fun r => truthy_opt (story_title r)) (post_relatedStories p).

Definition VALIDATION_MESSAGE : str :=
  lit "Post validation failed: title: Path `title` is required.".

Definition DUPLICATE_MESSAGE (p : Post) : str :=
  lit "E11000 duplicate key error collection: posts dup key: "
  ++ match post_url p with Some u => u | None => [] end.

(** [newPost.save()]: the message of the error thrown, or the collection
    with the document added. *)
Definition Post_save (ps : list Post) (p : Post) : str + list Post :=
  if negb (post_valid p) then inl VALIDATION_MESSAGE
  else if existsb (duplicate_key p) ps then inl (DUPLICATE_MESSAGE p)
  else inr (ps ++ [p]).

(** [cleanUrl.replace(/[.*+?^${}()|[\]\\]/g, "\\$&")]. *)
Definition is_regex_special (c : ascii) : bool :=
  existsb (Ascii.eqb c) (lit ".*+?^${}()|[]\").

Definition escapeRegExp (x : str) : str :=
  flat_map (fun c => if is_regex_special c then ["\"; c] else [c]) x.

(** The text denoted by a pattern in which every special character is
    escaped. *)
Fixpoint regex_literal (pattern : str) : str :=
  match pattern with
  | [] => []
  | c :: r =>
      if Ascii.eqb c "\" then
        match r with
        | [] => [c]
        | e :: r' => e :: regex_literal r'
        end
      else c :: regex_literal r
  end.

(** [{ $regex: new RegExp(pattern, "i") }] on a stored string: some
    substring equals the pattern's text up to case. *)
Definition regex_test_i (pattern x : str) : bool :=
  includes_with eqb_ci (regex_literal pattern) x.

(** [Post.findOne({ url: { $regex: ... } })]. *)
Definition find_duplicate (ps : list Post) (cleanUrl : str) : option Post :=
  find (fun p =>
          match post_url p with
          | Some u => regex_test_i (escapeRegExp cleanUrl) u
          | None => false
          end) ps.

(** ** The publish worker

    The callback of [cron.schedule] in server.js and index.js, and
    [processQueueItem] of the worker service.  [formatTweetWithGemini]
    catches every error of the generation call and of [JSON.parse] and
    returns [null]; it is a parameter, like [generatePostId] and the clock,
    both indexed by the position of the item in the batch. *)

Inductive Outcome :=
| SkippedDuplicate
| Published (p : Post)
| RewriteFailed
| Threw (message : str).

(** [item.extendedEntities?.media?.[0]]. *)
Definition first_entity_media (item : QueueItem) : option Media :=
  match extendedEntities_media item with
  | Some (m :: _) => Some m
  | _ => None
  end.

(** [let imageUrl = item.imageUrl; if (!imageUrl && ...media?.[0])
    imageUrl = ...media[0].media_url_https]. *)
Definition derive_imageUrl (item : QueueItem) : Nullable :=
  let imageUrl := imageUrl item in
  match first_entity_media item with
  | Some m =>
      if negb (truthy_value imageUrl) then of_option (media_url_https m)
      else imageUrl
  | None => imageUrl
  end.

(** [item.extendedEntities?.media || item.media || []]: an array is
    truthy even when empty. *)
Definition mediaList (item : QueueItem) : list Media :=
  match extendedEntities_media item with
  | Some l => l
  | None => match media item with Some l => l | None => [] end
  end.

Definition is_mp4 (v : Variant) : bool :=
  match content_type v with
  | Some c => str_eqb c (lit "video/mp4")
  | None => false
  end.

(** [.sort((a, b) => b.bitrate - a.bitrate)[0]]: the first variant of
    greatest bitrate. *)
Fixpoint best_bitrate (l : list Variant) : option Variant :=
  match l with
  | [] => None
  | v :: r =>
      match best_bitrate r with
      | Some w => if bitrate v <? bitrate w then Some w else Some v
      | None => Some v
      end
  end.

(** The pair ([tweetVideo], [finalPostType]). *)
Definition derive_video (item : QueueItem) : option str * str :=
  match mediaList item with
  | m :: _ =>
      if same_opt (media_type m) (Some (lit "video")) then
        let variants :=
          match video_variants m with Some l => l | None => [] end in
        match best_bitrate (filter is_mp4 variants) with
        | Some bestVideo => (variant_url bestVideo, lit "normal_video")
        | None => (None, lit "normal_post")
        end
      else (None, lit "normal_post")
  | [] => (None, lit "normal_post")
  end.

(** [finalSearchSlug], with the last fallback as a parameter. *)
Definition derive_slug (fallback : str) (geminiData : GeminiData)
  (item : QueueItem) : str :=
  let finalSearchSlug := slug_en geminiData in
  let finalSearchSlug :=
    match finalSearchSlug with
    | Some v =>
        if negb (truthy v) || (length v <? 3) then extractSlugFromUrl (url item)
        else v
    | None => extractSlugFromUrl (url item)
    end in
  if negb (truthy finalSearchSlug) then fallback else finalSearchSlug.

(** The last-mile deduplication: [Some cleanUrl] when a post matches. *)
Definition last_mile_duplicate (ps : list Post) (item : QueueItem)
  : option str :=
  if truthy_opt (url item) then
    let cleanUrl := normalizeUrl (url item) in
    match find_duplicate ps cleanUrl with
    | Some _ => Some cleanUrl
    | None => None
    end
  else None.

Definition sourceType_of (item : QueueItem) : str :=
  if same_opt (source item) (Some (lit "Manual")) then lit "manual"
  else lit "rss".

Section Worker.

Variable formatTweetWithGemini : str -> option str -> option GeminiData.
Variable generatePostId : nat -> N.
Variable Date_now : nat -> N.

(** server.js, index.js: the post built from a rewrite result, as
    [new Post] of the file's postSchema makes it. *)
Definition worker_newPost (k : nat) (item : QueueItem) (geminiData : GeminiData)
  : Post :=
  let imageUrl := derive_imageUrl item in
  let (tweetVideo, finalPostType) := derive_video item in
  let finalSearchSlug := derive_slug (lit "latest-telugu-news") geminiData item in
  mkPost (generatePostId k) (g_title geminiData) (g_summary geminiData)
    (g_summary geminiData) (url item) finalSearchSlug
    (or_else (source item) (lit "Manual"))
    (or_else (user_name item) (lit "Manual"))
    (sourceType_of item) (with_default imageUrl_default imageUrl) tweetVideo
    (relatedStories item)
    [or_else (g_category geminiData) (lit "General")] []
    (Date_now k) true finalPostType (lit "te").

(** server.js, index.js: the body of the [for] loop; the [catch] only
    logs the message. *)
Definition worker_item (k : nat) (st : Store) (item : QueueItem)
  : Store * Outcome :=
  match last_mile_duplicate (posts st) item with
  | Some _ => (Queue_deleteOne (_id item) st, SkippedDuplicate)
  | None =>
      match formatTweetWithGemini (text item) (url item) with
      | Some geminiData =>
          let newPost := worker_newPost k item geminiData in
          match Post_save (posts st) newPost with
          | inr ps => (Queue_deleteOne (_id item) (mkStore (queue st) ps),
                       Published newPost)
          | inl message => (st, Threw message)
          end
      | None => (Queue_deleteOne (_id item) st, RewriteFailed)
      end
  end.

(** Worker service: the post built from a rewrite result, with the
    title and summary fallbacks; [imageUrl] of models/Post.js has no
    default. *)
Definition processQueueItem_newPost (k : nat) (item : QueueItem)
  (geminiData : GeminiData) : Post :=
  let finalTitle :=
    match g_title geminiData with
    | Some t =>
        if negb (truthy t) || str_eqb (filter (fun c => negb (is_space c)) t) []
        then or_else (Some (extractSlugFromUrl (url item))) (lit "News Update")
        else t
    | None => or_else (Some (extractSlugFromUrl (url item))) (lit "News Update")
    end in
  let finalSummary := or_else (g_summary geminiData) finalTitle in
  let imageUrl := derive_imageUrl item in
  let (tweetVideo, finalPostType) := derive_video item in
  let finalSearchSlug := derive_slug (lit "latest-news") geminiData item in
  mkPost (generatePostId k) (Some finalTitle) (Some finalSummary)
    (Some finalSummary) (url item) finalSearchSlug
    (or_else (source item) (lit "Manual"))
    (or_else (user_name item) (lit "Manual"))
    (sourceType_of item) imageUrl tweetVideo (relatedStories item)
    [or_else (g_category geminiData) (lit "General")] []
    (Date_now k) true finalPostType (lit "te").

(** Worker service: the body of the [for] loop; the [catch] deletes the
    item when the message includes "validation failed". *)
Definition processQueueItem_item (k : nat) (st : Store) (item : QueueItem)
  : Store * Outcome :=
  match last_mile_duplicate (posts st) item with
  | Some _ => (Queue_deleteOne (_id item) st, SkippedDuplicate)
  | None =>
      match formatTweetWithGemini (text item) (url item) with
      | Some geminiData =>
          let newPost := processQueueItem_newPost k item geminiData in
          match Post_save (posts st) newPost with
          | inr ps => (Queue_deleteOne (_id item) (mkStore (queue st) ps),
                       Published newPost)
          | inl message =>
              if includes message (lit "validation failed")
              then (Queue_deleteOne (_id item) st, Threw message)
              else (st, Threw message)
          end
      | None => (Queue_deleteOne (_id item) st, RewriteFailed)
      end
  end.

End Worker.

(** Documents inserted by the other handlers of the process. *)
Definition Queue_insertMany (items : list QueueItem) (st : Store) : Store :=
  mkStore (queue st ++ items) (posts st).

(** The [for (const item of batch)] loop.  Every iteration awaits the
    store, the generation call and a 5 s sleep; [arrivals k] are the
    documents other handlers insert while the loop is at item [k].  The
    result carries the outcome of every item, in order. *)
Fixpoint run_batch (step : nat -> Store -> QueueItem -> Store * Outcome)
  (arrivals : nat -> list QueueItem) (k : nat) (batch : list QueueItem)
  (st : Store) : Store * list (QueueItem * Outcome) :=
  match batch with
  | [] => (st, [])
  | item :: rest =>
      let (st1, o) := step k (Queue_insertMany (arrivals k) st) item in
      let (st2, trace) := run_batch step arrivals (S k) rest st1 in
      (st2, (item, o) :: trace)
  end.

(** One run of the scheduled callback. *)
Definition drain_cycle (step : nat -> Store -> QueueItem -> Store * Outcome)
  (arrivals : nat -> list QueueItem) (st : Store)
  : Store * list (QueueItem * Outcome) :=
  run_batch step arrivals 0 (select_batch st) st.

(** server.js, index.js: the worker callback. *)
Definition worker_cycle (formatTweetWithGemini : str -> option str -> option GeminiData)
  (generatePostId Date_now : nat -> N) :=
  drain_cycle (worker_item formatTweetWithGemini generatePostId Date_now).

(** Worker service: [processQueueItem]. *)
Definition processQueueItem (formatTweetWithGemini : str -> option str -> option GeminiData)
  (generatePostId Date_now : nat -> N) :=
  drain_cycle (processQueueItem_item formatTweetWithGemini generatePostId Date_now).

(** All the documents that arrive during the first [n] iterations. *)
Definition arrived (arrivals : nat -> list QueueItem) (k n : nat)
  : list QueueItem :=
  flat_map arrivals (seq k n).

(** The posts published in a run, in order. *)
Fixpoint published (trace : list (QueueItem * Outcome)) : list Post :=
  match trace with
  | [] => []
  | (_, Published p) :: r => p :: published r
  | _ :: r => published r
  end.

(** ** The feed fetcher (rssService.js; the copies in server.js, index.js) *)

Record FeedSource := mkFeedSource {
  feed_name : str;
  feed_url : str
}.

(** An entry of a parsed feed; [rss_image] is the result of
    [extractRSSImage] on it. *)
Record FeedItem := mkFeedItem {
  item_title : str;
  link : option str;
  contentSnippet : option str;
  rss_image : option str
}.

(** The in-memory comparison sets and the counter of one cycle. *)
Record FetchMemory := mkFetchMemory {
  existingTitles : list str;
  existingUrls : list str;
  totalQueued : nat
}.

Inductive Decision := SkippedUrl | SkippedTitle | Enqueued.

(** [x.replace(pattern, "")] with a string pattern: the first occurrence. *)
Fixpoint remove_first (pattern x : str) : str :=
  if starts_with Ascii.eqb pattern x then skipn (length pattern) x
  else match x with
       | [] => []
       | c :: r => c :: remove_first pattern r
       end.

(** [q.text.split("\n")[0].replace("Title: ", "")]. *)
Definition queue_title (q : QueueItem) : str :=
  remove_first (lit "Title: ")
    (match split_on (ascii_of_nat 10) (text q) with
     | l :: _ => l
     | [] => []
     end).

(** [Set.prototype.has] on strings. *)
Definition set_has (s : list str) (x : str) : bool := existsb (str_eqb x) s.

Definition HOURS_72 : N := (72 * 60 * 60 * 1000)%N.

Definition initial_memory (now : N) (st : Store) : FetchMemory :=
  let recentPosts := filter (fun p => (now - HOURS_72 <=? publishedAt p)%N) (posts st) in
  let recentQueue := queue st in
  mkFetchMemory
    (filter truthy
       (map (fun p => match title p with Some t => t | None => [] end) recentPosts
        ++ map queue_title recentQueue))
    (map (fun p => normalizeUrl (post_url p)) recentPosts
     ++ map (fun q => normalizeUrl (url q)) recentQueue)
    0.

(** [isDuplicate]: the best rating is above 0.65. *)
Definition title_duplicate (mem : FetchMemory) (item : FeedItem) : bool :=
  if 0 <? length (existingTitles mem) then
    match bestMatchRating (item_title item) (existingTitles mem) with
    | Some rating => Qgtb rating SIMILARITY_THRESHOLD
    | None => false
    end
  else false.

(** The queue document of a feed entry; [oid] is the fresh ObjectId. *)
Definition rss_queue_item (oid : nat) (oid_string : nat -> str) (now : N)
  (feedSource : FeedSource) (item : FeedItem) : QueueItem :=
  let extractedImage := rss_image item in
  let mediaObj :=
    match extractedImage with
    | Some i => if truthy i
                then [mkMedia (Some (lit "photo")) (Some i) None] else []
    | None => []
    end in
  mkQueueItem oid (oid_string oid)
    (lit "Title: " ++ item_title item ++ [ascii_of_nat 10] ++ lit "Summary: "
     ++ or_else (contentSnippet item) [])
    (link item) (Some mediaObj)
    (match extractedImage with Some i => value i | None => null end)
    (Some mediaObj) []
    (Some (feed_name feedSource)) (Some (feed_name feedSource)) now.

(** The state of the process seen by the fetcher: the module variable
    [isRSSFetching], the number of invocations that are past the guard
    and before their [finally] (a ghost counter), and the store. *)
Record Process := mkProcess {
  isRSSFetching : bool;
  in_flight : nat;
  store : Store
}.

Section Fetcher.

Variable rssParser_parseURL : str -> option (list FeedItem).
Variable newObjectId : nat -> nat.
Variable ObjectId_toString : nat -> str.
Variable now : N.

(** The body of [for (const item of items)].  The document is valid and
    its ObjectId fresh, so [newItem.save()] adds it. *)
Definition fetch_item (feedSource : FeedSource) (state : Store * FetchMemory)
  (item : FeedItem) : (Store * FetchMemory) * Decision :=
  let (st, mem) := state in
  let cleanLink := normalizeUrl (link item) in
  if set_has (existingUrls mem) cleanLink then (state, SkippedUrl)
  else if title_duplicate mem item then (state, SkippedTitle)
  else
    let newItem :=
      rss_queue_item (newObjectId (totalQueued mem)) ObjectId_toString now
        feedSource item in
    ((Queue_insertMany [newItem] st,
      mkFetchMemory (existingTitles mem ++ [item_title item])
        (existingUrls mem ++ [cleanLink]) (totalQueued mem + 1)),
     Enqueued).

Fixpoint fetch_items (feedSource : FeedSource) (items : list FeedItem)
  (state : Store * FetchMemory)
  : (Store * FetchMemory) * list (FeedItem * Decision) :=
  match items with
  | [] => (state, [])
  | item :: rest =>
      let (state1, d) := fetch_item feedSource state item in
      let (state2, trace) := fetch_items feedSource rest state1 in
      (state2, (item, d) :: trace)
  end.

(** The body of [for (const feedSource of RSS_FEEDS)]: a feed that fails
    to parse is logged and skipped. *)
Definition fetch_feed (feedSource : FeedSource) (state : Store * FetchMemory)
  : (Store * FetchMemory) * list (FeedItem * Decision) :=
  match rssParser_parseURL (feed_url feedSource) with
  | Some items => fetch_items feedSource (firstn 5 items) state
  | None => (state, [])
  end.

Fixpoint fetch_feeds (RSS_FEEDS : list FeedSource) (state : Store * FetchMemory)
  : (Store * FetchMemory) * list (FeedItem * Decision) :=
  match RSS_FEEDS with
  | [] => (state, [])
  | feedSource :: rest =>
      let (state1, t1) := fetch_feed feedSource state in
      let (state2, t2) := fetch_feeds rest state1 in
      (state2, t1 ++ t2)
  end.

(** The decisions of one unguarded cycle, in fetch order. *)
Definition fetch_trace (RSS_FEEDS : list FeedSource) (st : Store)
  : list (FeedItem * Decision) :=
  snd (fetch_feeds RSS_FEEDS (st, initial_memory now st)).

(** [fetchAndQueueRSS()], run to completion: the process afterwards and
    the number returned. *)
Definition fetchAndQueueRSS (RSS_FEEDS : list FeedSource) (p : Process)
  : Process * nat :=
  if isRSSFetching p then (p, 0)
  else
    let (state, _) :=
      fetch_feeds RSS_FEEDS (store p, initial_memory now (store p)) in
    (mkProcess false (in_flight p) (fst state), totalQueued (snd state)).

End Fetcher.

(** What an observer of the process sees of the fetcher. *)
Inductive FetchEvent :=
| Guarded (returned : nat)
| Entered
| Saved (item : QueueItem)
| Finished
| Elsewhere (st : Store).

(** The interleaving semantics of [fetchAndQueueRSS]: the guard and the
    assignment of the flag run without an [await] between them, so an
    invocation either returns 0 at the guard or enters; an invocation
    that entered saves documents and leaves through [finally], which
    clears the flag; other handlers change the store at any time. *)
Inductive fetch_step : Process -> FetchEvent -> Process -> Prop :=
| step_guarded : forall p,
    isRSSFetching p = true ->
    fetch_step p (Guarded 0) p
| step_entered : forall p,
    isRSSFetching p = false ->
    fetch_step p Entered (mkProcess true (S (in_flight p)) (store p))
| step_saved : forall p item,
    0 < in_flight p ->
    fetch_step p (Saved item)
      (mkProcess (isRSSFetching p) (in_flight p)
         (Queue_insertMany [item] (store p)))
| step_finished : forall p,
    0 < in_flight p ->
    fetch_step p Finished (mkProcess false (pred (in_flight p)) (store p))
| step_elsewhere : forall p st,
    fetch_step p (Elsewhere st)
      (mkProcess (isRSSFetching p) (in_flight p) st).

Inductive fetch_run : Process -> list FetchEvent -> Process -> Prop :=
| run_nil : forall p, fetch_run p [] p
| run_cons : forall p e q es r,
    fetch_step p e q -> fetch_run q es r -> fetch_run p (e :: es) r.

(** The process at start-up. *)
Definition initial_process (st : Store) : Process := mkProcess false 0 st.

(** ** POST /api/add-content-to-queue *)

Record Body := mkBody {
  b_content : option str;
  b_url : option str;
  b_title : option str;
  b_imageUrl : option str;
  b_source : option str;
  b_relatedStories : option (list RelatedStory)
}.

Record Response := mkResponse {
  status : nat;
  res_success : bool;
  res_queueId : option str;
  res_error : option str
}.

(** The required paths and the unique index of queueSchema: [id], and
    the [title] of every related story. *)
Definition queue_doc_valid (doc : QueueItem) : bool :=
  truthy (id doc)
  && forallb (fun r => truthy_opt (story_title r)) (relatedStories doc).

(** [Queue.create(doc)]: the message of the error thrown, or the store
    with the document added. *)
Definition Queue_create (st : Store) (doc : QueueItem) : str + Store :=
  if negb (queue_doc_valid doc) then inl (lit "Queue validation failed")
  else if existsb (fun q => str_eqb (id q) (id doc)) (queue st)
  then inl (lit "E11000 duplicate key error collection: queues dup key: id")
  else inr (Queue_insertMany [doc] st).

(** The value of an identifier in a handler whose local bindings are
    [bound]; the modules declare no top-level [relatedStories], so a name
    that is not bound raises a ReferenceError (its message on the left). *)
Definition resolve {A : Type} (bound : list String.string)
  (name : String.string) (value : A) : str + A :=
  if existsb (String.eqb name) bound then inr value
  else inl (String.list_ascii_of_string name ++ lit " is not defined").
Arguments resolve {A} bound name%_string value.

Section Api.

Variable newObjectId : nat.
Variable ObjectId_toString : nat -> str.
Variable now : N.

(** The [queueItem] literal, up to its [relatedStories] property. *)
Definition content_queue_item (body : Body) (stories : list RelatedStory)
  : QueueItem :=
  let content := b_content body in
  let url := b_url body in
  let imageUrl := b_imageUrl body in
  let source := b_source body in
  mkQueueItem newObjectId (ObjectId_toString newObjectId)
    (match b_title body with
     | Some t =>
         if truthy t
         then lit "Title: " ++ t ++ [ascii_of_nat 10] ++ lit "Content: "
              ++ or_else content []
         else or_else content
                (lit "Article from "
                 ++ match url with Some u => u | None => lit "undefined" end)
     | None =>
         or_else content
           (lit "Article from "
            ++ match url with Some u => u | None => lit "undefined" end)
     end)
    (Some (or_else url []))
    (if truthy_opt imageUrl
     then Some [mkMedia (Some (lit "photo")) imageUrl None] else Some [])
    (or_null imageUrl)
    (if truthy_opt imageUrl then Some [mkMedia None imageUrl None] else None)
    stories
    (Some (or_else source (lit "Manual Paste")))
    (Some (or_else source (lit "Admin")))
    now.

(** The tail shared by the handlers: [Queue.create], then the answer. *)
Definition create_and_answer (st : Store) (queueItem : QueueItem)
  : Store * Response :=
  match Queue_create st queueItem with
  | inr st' => (st', mkResponse 200 true (Some (id queueItem)) None)
  | inl message => (st, mkResponse 500 false None (Some message))
  end.

Definition no_content_or_url (body : Body) : bool :=
  negb (truthy_opt (b_content body)) && negb (truthy_opt (b_url body)).

Definition answer_400 : Response :=
  mkResponse 400 false None (Some (lit "No content/url")).

(** index.js: the literal has no [relatedStories] property. *)
Definition add_content_to_queue_index (body : Body) (st : Store)
  : Store * Response :=
  if no_content_or_url body then (st, answer_400)
  else create_and_answer st (content_queue_item body []).

(** server.js, the handler at line 1060: the destructuring binds
    [content], [url], [title], [imageUrl] and [source]; the literal reads
    [relatedStories]. *)
Definition add_content_to_queue_1060 (body : Body) (st : Store)
  : Store * Response :=
  let bound := ["content"; "url"; "title"; "imageUrl"; "source"]%string in
  if no_content_or_url body then (st, answer_400)
  else
    match resolve bound "relatedStories" (b_relatedStories body) with
    | inr stories =>
        create_and_answer st
          (content_queue_item body
             (match stories with Some l => l | None => [] end))
    | inl message => (st, mkResponse 500 false None (Some message))
    end.

(** server.js, the handler at line 4952: [relatedStories] is bound too
    and defaults to the empty list. *)
Definition add_content_to_queue_4952 (body : Body) (st : Store)
  : Store * Response :=
  let bound :=
    ["content"; "url"; "title"; "imageUrl"; "source"; "relatedStories"]%string in
  if no_content_or_url body then (st, answer_400)
  else
    match resolve bound "relatedStories" (b_relatedStories body) with
    | inr stories =>
        create_and_answer st
          (content_queue_item body
             (match stories with Some l => l | None => [] end))
    | inl message => (st, mkResponse 500 false None (Some message))
    end.

(** queue controller, [addUrlToQueue]: [relatedStories: []]. *)
Definition addUrlToQueue (body : Body) (st : Store) : Store * Response :=
  if no_content_or_url body then (st, answer_400)
  else create_and_answer st (content_queue_item body []).

End Api.

(** ** [Queue.insertMany] with the schema and the unique index

    Mongoose validates every document before it writes, and writes nothing
    when one is invalid; the write is ordered, so it stops at the first
    document the unique index on [id] refuses, the documents written before
    it staying in the collection.  The result is the store afterwards and
    the message of the error thrown, if any. *)

Fixpoint insert_ordered (docs : list QueueItem) (st : Store)
  : Store * option str :=
  match docs with
  | [] => (st, None)
  | doc :: rest =>
      match Queue_create st doc with
      | inr st1 => insert_ordered rest st1
      | inl message => (st, Some message)
      end
  end.

Definition Queue_insertMany_docs (docs : list QueueItem) (st : Store)
  : Store * option str :=
  if forallb queue_doc_valid docs then insert_ordered docs st
  else (st, Some (lit "Queue validation failed")).

(** ** The tweet fetcher (twitterService.js; the copies in server.js,
    index.js) *)

(** A tweet of the reply: [user] is absent, or an object with or without
    a [name]; [tweet_entities_media] is [extendedEntities?.media]. *)
Record Tweet := mkTweet {
  tweet_id : str;
  tweet_text : str;
  tweet_url : option str;
  tweet_media : option (list Media);
  tweet_entities_media : option (list Media);
  tweet_user : option (option str)
}.

(** What the request to the API comes to: [fetch] or [response.json()]
    rejects, the response is not ok, or the body is parsed, with its
    [tweets] and [data.tweets] properties. *)
Inductive TwitterReply :=
| Rejected
| NotOk
| Json (tweets data_tweets : option (list Tweet)).

Section Twitter.

Variable last_tweets : str -> TwitterReply.
(** The [tweetId] path of a stored post. *)
Variable Post_tweetId : Post -> option str.
(** The ObjectId of the document at a position of [queueDocs]. *)
Variable newObjectId : str -> nat -> nat.
Variable now : N.

(** An element of [queueDocs], with the defaults of the schema for
    [source], [relatedStories] and [queuedAt]. *)
Definition tweet_queue_doc (userName : str) (k : nat) (t : Tweet) : QueueItem :=
  mkQueueItem (newObjectId userName k) (tweet_id t) (tweet_text t) (tweet_url t)
    (Some (match tweet_media t with Some l => l | None => [] end))
    undefined (tweet_entities_media t) [] (Some (lit "Manual"))
    (match tweet_user t with Some name => name | None => Some userName end)
    now.

(** [Post.find({ tweetId: { $in: ids } }).distinct("tweetId")]. *)
Definition postedIds (st : Store) (ids : list str) : list str :=
  nodup str_eq_dec
    (flat_map (fun p =>
                 match Post_tweetId p with
                 | Some i => if set_has ids i then [i] else []
                 | None => []
                 end) (posts st)).

(** [Queue.find({ id: { $in: ids } }).distinct("id")]. *)
Definition queuedIds (st : Store) (ids : list str) : list str :=
  nodup str_eq_dec (map id (filter (fun q => set_has ids (id q)) (queue st))).

(** [fetchAndQueueTweetsForHandle(userName)], run to completion: the
    store afterwards and the number returned.  The [catch] returns 0. *)
Definition fetchAndQueueTweetsForHandle (userName : str) (st : Store)
  : Store * nat :=
  match last_tweets userName with
  | Rejected => (st, 0)
  | NotOk => (st, 0)
  | Json data_tweets data_data_tweets =>
      let tweets :=
        match data_tweets with
        | Some l => l
        | None => match data_data_tweets with Some l => l | None => [] end
        end in
      let tweets := firstn 5 tweets in
      if length tweets =? 0 then (st, 0)
      else
        let ignoredIds :=
          postedIds st (map tweet_id tweets) ++ queuedIds st (map tweet_id tweets) in
        let newTweets :=
          filter (fun t => negb (set_has ignoredIds (tweet_id t))) tweets in
        if length newTweets =? 0 then (st, 0)
        else
          let queueDocs :=
            map (fun kt => tweet_queue_doc userName (fst kt) (snd kt))
              (combine (seq 0 (length newTweets)) newTweets) in
          match Queue_insertMany_docs queueDocs st with
          | (st', None) => (st', length newTweets)
          | (st', Some _) => (st', 0)
          end
  end.

(** [fetchAllTwitterHandles()]. *)
Fixpoint fetchAllTwitterHandles (TARGET_HANDLES : list str) (st : Store)
  : Store * nat :=
  match TARGET_HANDLES with
  | [] => (st, 0)
  | handle :: rest =>
      let (st1, n) := fetchAndQueueTweetsForHandle handle st in
      let (st2, total) := fetchAllTwitterHandles rest st1 in
      (st2, n + total)
  end.

End Twitter.

(** ** Tags ([getOrCreateTags]; tagSchema) *)

Record Tag := mkTag {
  tag_id : nat;
  tag_name : str;
  tag_slug : str
}.

(** [\w] and the hyphen. *)
Definition is_word_or_hyphen (c : ascii) : bool :=
  is_lower c || is_upper c || is_digit c || Ascii.eqb c "_" || Ascii.eqb c "-".

(** [name.toLowerCase().replace(/ /g, "-").replace(/[^\w-]+/g, "")], on
    names of ASCII characters. *)
Definition tag_slug_of (name : str) : str :=
  filter is_word_or_hyphen (replace_char " " "-" (toLowerCase name)).

(** [Tag.findOne({ slug })]. *)
Definition Tag_findOne (tags : list Tag) (slug : str) : option Tag :=
  find (fun t => str_eqb (tag_slug t) slug) tags.

(** [Tag.create({ name, slug })]: both paths are required and unique.
    The message of the error thrown, or the collection with the document
    added and the document. *)
Definition Tag_create (oid : nat) (tags : list Tag) (name slug : str)
  : str + (list Tag * Tag) :=
  if negb (truthy name) || negb (truthy slug)
  then inl (lit "Tag validation failed")
  else if existsb (fun t => str_eqb (tag_name t) name
                            || str_eqb (tag_slug t) slug) tags
  then inl (lit "E11000 duplicate key error collection: tags")
  else inr (tags ++ [mkTag oid name slug], mkTag oid name slug).

(** The [for] loop; [k] is the position of the name, [newObjectId k] the
    ObjectId of a tag created there.  The [catch] only logs. *)
Fixpoint getOrCreateTags_loop (newObjectId : nat -> nat) (k : nat)
  (tagNames : list str) (tags : list Tag) (tagIds : list nat)
  : list Tag * list nat :=
  match tagNames with
  | [] => (tags, tagIds)
  | name :: rest =>
      let slug := tag_slug_of name in
      match Tag_findOne tags slug with
      | Some tag =>
          getOrCreateTags_loop newObjectId (S k) rest tags (tagIds ++ [tag_id tag])
      | None =>
          match Tag_create (newObjectId k) tags name slug with
          | inr (tags1, tag) =>
              getOrCreateTags_loop newObjectId (S k) rest tags1
                (tagIds ++ [tag_id tag])
          | inl _ => getOrCreateTags_loop newObjectId (S k) rest tags tagIds
          end
      end
  end.

(** [getOrCreateTags(tagNames)]; [None] is an argument that is falsy or
    not an array. *)
Definition getOrCreateTags (newObjectId : nat -> nat)
  (tagNames : option (list str)) (tags : list Tag) : list Tag * list nat :=
  match tagNames with
  | None => (tags, [])
  | Some names => getOrCreateTags_loop newObjectId 0 names tags []
  end.

(** ** The queue controller (dashboardController.js; the routes of
    server.js) *)

(** The body of POST /api/add-text-to-queue. *)
Record TextBody := mkTextBody {
  tb_text : option str;
  tb_title : option str;
  tb_source : option str
}.

(** [Queue.deleteOne({ id })]: the first document with that [id]. *)
Fixpoint delete_by_id (i : str) (q : list QueueItem) : list QueueItem :=
  match q with
  | [] => []
  | x :: r => if str_eqb (id x) i then r else x :: delete_by_id i r
  end.

Section QueueController.

Variable newObjectId : nat.
Variable ObjectId_toString : nat -> str.
Variable now : N.

(** The document of [addToQueue]; [media] and [relatedStories] take the
    empty arrays of the schema. *)
Definition text_queue_item (text : str) (body : TextBody) : QueueItem :=
  mkQueueItem newObjectId (ObjectId_toString newObjectId)
    (match tb_title body with
     | Some t =>
         if truthy t
         then lit "Title: " ++ t ++ [ascii_of_nat 10] ++ lit "Content: " ++ text
         else text
     | None => text
     end)
    None (Some []) undefined None []
    (Some (or_else (tb_source body) (lit "Manual Text")))
    (Some (lit "Manual")) now.

(** [addToQueue]: 400 without text, else the document is saved. *)
Definition addToQueue (body : TextBody) (st : Store) : Store * Response :=
  match tb_text body with
  | Some text =>
      if truthy text then
        match Queue_create st (text_queue_item text body) with
        | inr st' =>
            (st', mkResponse 200 true (Some (id (text_queue_item text body))) None)
        | inl message => (st, mkResponse 500 false None (Some message))
        end
      else (st, mkResponse 400 false None (Some (lit "Text content is required")))
  | None => (st, mkResponse 400 false None (Some (lit "Text content is required")))
  end.

End QueueController.

(** [deleteQueueItem]: DELETE /api/queue/:id. *)
Definition deleteQueueItem (i : str) (st : Store) : Store * Response :=
  (mkStore (delete_by_id i (queue st)) (posts st), mkResponse 200 true None None).

(** ** The fuzzy pass of GET /api/find-duplicates (server.js) *)

Record FuzzyDuplicate := mkFuzzyDuplicate {
  similarity : Q;
  original : Post;
  duplicate : Post
}.

(** The threshold literal [0.85]. *)
Definition FUZZY_THRESHOLD : Q := (85 # 100)%Q.

(** [checkedIds.has(postId)]. *)
Definition checked (checkedIds : list N) (i : N) : bool :=
  existsb (N.eqb i) checkedIds.

(** The inner loop, over the posts after [postA].  [compareTwoStrings]
    throws on a title that is undefined ([None]; the handler answers 500). *)
Fixpoint scan_after (postA : Post) (later : list Post)
  (state : list N * list FuzzyDuplicate)
  : option (list N * list FuzzyDuplicate) :=
  match later with
  | [] => Some state
  | postB :: rest =>
      let (checkedIds, fuzzyDuplicates) := state in
      if checked checkedIds (postId postB) then scan_after postA rest state
      else
        match title postA, title postB with
        | Some a, Some b =>
            let similarity := compareTwoStrings a b in
            if Qgtb similarity FUZZY_THRESHOLD
            then scan_after postA rest
                   (checkedIds ++ [postId postB],
                    fuzzyDuplicates ++ [mkFuzzyDuplicate similarity postA postB])
            else scan_after postA rest state
        | _, _ => None
        end
  end.

(** The outer loop. *)
Fixpoint scan_posts (recentPosts : list Post)
  (state : list N * list FuzzyDuplicate)
  : option (list N * list FuzzyDuplicate) :=
  match recentPosts with
  | [] => Some state
  | postA :: rest =>
      if checked (fst state) (postId postA) then scan_posts rest state
      else
        match scan_after postA rest state with
        | Some state1 => scan_posts rest state1
        | None => None
        end
  end.

(** [fuzzyDuplicates] for the list of recent posts. *)
Definition fuzzy_duplicates (recentPosts : list Post)
  : option (list FuzzyDuplicate) :=
  match scan_posts recentPosts ([], []) with
  | Some (_, fuzzyDuplicates) => Some fuzzyDuplicates
  | None => None
  end.

(* ================================================================== *)
(** * Part II. Vocabulary of the statements, and sample data         *)
(* ================================================================== *)

(** The platform follows the URL standard on the fragment: it accepts
    every input of the fragment, and what the code reads of the object,
    [toString()] after [search = ""] and [pathname], is what the standard
    gives for the record of that input. *)
Definition follows_standard : Prop :=
  forall input u,
    URL_parse input = Some u ->
    exists urlObj,
      new_URL input = Some urlObj
      /\ URL_toString (URL_set_search urlObj) = href (set_search_empty u)
      /\ URL_pathname urlObj = pathname u.

(** A segment of a parsed path: copied characters, and no dot segment. *)
Definition seg_ok (seg : str) : bool :=
  forallb url_char seg && negb (is_single_dot seg) && negb (is_double_dot seg).

(** The records the parser produces. *)
Definition wf_url (u : URL) : Prop :=
  (scheme u = lit "https" \/ scheme u = lit "http")
  /\ host_ok (host u) = true
  /\ path u <> []
  /\ Forall (fun s => seg_ok s = true) (path u)
  /\ opt_forallb query_char (query u) = true
  /\ opt_forallb fragment_char (fragment u) = true.

(** [x.endsWith("/") ? x.slice(0, -1) : x]. *)
Definition strip_trailing_slash (x : str) : str :=
  if endsWith x (lit "/") then drop_last 1 x else x.

(** The query and the fragment as [href] writes them. *)
Definition query_text (q : option str) : str :=
  match q with Some v => "?" :: v | None => [] end.

Definition fragment_text (f : option str) : str :=
  match f with Some v => "#" :: v | None => [] end.

(** The segment the slug is taken from: the last one, or the one before
    it when the last is purely numeric. *)
Definition chosen_segment (segs : list str) : option str :=
  match rev segs with
  | [] => None
  | b :: [] => Some b
  | b :: a :: _ => if all_digits b then Some a else Some b
  end.

(** A trailing .htm/.html stripped, underscores to hyphens, lower case. *)
Definition slug_clean (v : str) : str :=
  toLowerCase (replace_char "_" "-" (strip_html_ext v)).

(** *** The slug, in the words of its description

    Written from the description of [extractSlugFromUrl], with none of
    the functions of the code. *)











(** The keys of the documents of a queue. *)
Definition ids (q : list QueueItem) : list nat := map _id q.

(** Documents whose [_id] is not that of an item of the batch. *)
Definition outside (batch : list QueueItem) (y : QueueItem) : bool :=
  negb (existsb (fun x => _id x =? _id y) batch).

(** The outcomes after which the worker of server.js has deleted the
    item: all but a thrown error. *)
Definition worker_removes (o : Outcome) : bool :=
  match o with Threw _ => false | _ => true end.

(** The outcomes after which [processQueueItem] has deleted the item: a
    thrown error only when its message includes "validation failed". *)
Definition processQueueItem_removes (o : Outcome) : bool :=
  match o with
  | Threw message => includes message (lit "validation failed")
  | _ => true
  end.

(** What an iteration does to the two collections. *)
Definition step_effect (removes : Outcome -> bool)
  (step : nat -> Store -> QueueItem -> Store * Outcome) : Prop :=
  forall k st item,
    queue (fst (step k st item))
    = (if removes (snd (step k st item))
       then deleteOne (_id item) (queue st) else queue st)
    /\ posts (fst (step k st item))
       = posts st ++ published [(item, snd (step k st item))].

(** The order of [.sort({ queuedAt: 1 })]. *)
Definition older_or_same (x y : QueueItem) : Prop :=
  (queuedAt x <= queuedAt y)%N.

(** A queued story whose URL has a query and a fragment, a post
    published earlier from the same URL, and a rewrite that succeeds. *)
Definition budget_url : str := lit "https://site.com/story?id=7#top".

Definition budget_item : QueueItem :=
  mkQueueItem 1 (lit "65f0c0ffee") (lit "Title: Budget passed")
    (Some budget_url) None null None [] (Some (lit "Site")) (Some (lit "Site"))
    1000%N.

Definition budget_post : Post :=
  mkPost 100000001%N (Some (lit "Budget")) (Some (lit "Old summary"))
    (Some (lit "Old summary")) (Some budget_url) (lit "budget")
    (lit "Site") (lit "Site") (lit "rss") null None [] [lit "Politics"] []
    500%N true (lit "normal_post") (lit "te").

Definition budget_store : Store := mkStore [budget_item] [budget_post].

Definition budget_rewrite (_ : str) (_ : option str) : option GeminiData :=
  Some (mkGeminiData (Some (lit "Budget passed")) (Some (lit "Summary"))
          (Some (lit "Politics")) (Some (lit "budget session"))).

(** A cycle during which no other handler inserts a document. *)
Definition no_arrivals (_ : nat) : list QueueItem := [].

(** The same item in a store without posts. *)
Definition fresh_store : Store := mkStore [budget_item] [].

(** The answer of [budget_rewrite]. *)
Definition budget_data : GeminiData :=
  mkGeminiData (Some (lit "Budget passed")) (Some (lit "Summary"))
    (Some (lit "Politics")) (Some (lit "budget session")).

(** The same story queued with a tracking query, and a post whose URL
    was stored in another letter case and with a trailing slash. *)
Definition repost_item : QueueItem :=
  mkQueueItem 2 (lit "65f0c0ffef") (lit "Title: Budget passed")
    (Some (lit "https://site.com/story/7?utm_source=rss")) None null None []
    (Some (lit "Site")) (Some (lit "Site")) 1000%N.

Definition repost_post : Post :=
  mkPost 100000001%N (Some (lit "Budget")) (Some (lit "Old summary"))
    (Some (lit "Old summary")) (Some (lit "HTTPS://Site.com/story/7/"))
    (lit "budget") (lit "Site") (lit "Site") (lit "rss") null None []
    [lit "Politics"] [] 500%N true (lit "normal_post") (lit "te").

Definition repost_store : Store := mkStore [repost_item] [repost_post].

(** A generation call that fails. *)
Definition failing_rewrite (_ : str) (_ : option str) : option GeminiData := None.

(** The entries of a trace that belong to other documents than [item]. *)
Definition others (item : QueueItem) (trace : list (QueueItem * Outcome))
  : list (QueueItem * Outcome) :=
  filter (fun entry => negb (_id (fst entry) =? _id item)) trace.

(** A second story queued after the first, a post stored earlier from
    another URL, and a generation call that fails on the first story
    only. *)
Definition flood_item : QueueItem :=
  mkQueueItem 4 (lit "65f0c0fff2") (lit "Title: Flood warning")
    (Some (lit "https://site.com/flood")) None null None []
    (Some (lit "Site")) (Some (lit "Site")) 1100%N.

Definition archive_post : Post :=
  mkPost 100000001%N (Some (lit "Archive")) (Some (lit "Old summary"))
    (Some (lit "Old summary")) (Some (lit "https://site.com/archive/9"))
    (lit "archive") (lit "Site") (lit "Site") (lit "rss") null None []
    [lit "General"] [] 500%N true (lit "normal_post") (lit "te").

Definition mixed_store : Store :=
  mkStore [budget_item; flood_item] [archive_post].

Definition selective_rewrite (text : str) (_ : option str) : option GeminiData :=
  if str_eqb text (lit "Title: Budget passed") then None
  else Some (mkGeminiData (Some (lit "Flood warning")) (Some (lit "Summary"))
               (Some (lit "Weather")) (Some (lit "flood warning"))).

(** The slug of the engine when it has at least three characters, else
    the slug extracted from the URL when there is one, else the fallback. *)
Definition slug_choice (fallback : str) (engine_slug url : option str) : str :=
  let extracted := extractSlugFromUrl url in
  let otherwise := if truthy extracted then extracted else fallback in
  match engine_slug with
  | Some v => if 3 <=? length v then v else otherwise
  | None => otherwise
  end.

(** A pasted text without URL goes through the handler of the queue
    controller; the rewrite succeeds with an empty slug and no category. *)
Definition pasted_body : Body :=
  mkBody (Some (lit "Some pasted article text")) None None None None None.

Definition pasted_store : Store :=
  fst (addUrlToQueue 3 (fun _ => lit "65f0c0fff0") 1000%N pasted_body
         (mkStore [] [])).

Definition plain_rewrite (_ : str) (_ : option str) : option GeminiData :=
  Some (mkGeminiData (Some (lit "Title")) (Some (lit "Summary")) None
          (Some [])).

(** The document the handler builds from [pasted_body]. *)
Definition pasted_item : QueueItem :=
  content_queue_item 3 (fun _ => lit "65f0c0fff0") 1000%N pasted_body [].

(** A text that went through [addToQueue]: the document has no URL and
    no image. *)
Definition note_item : QueueItem :=
  text_queue_item 4 (fun _ => lit "65f0c0fff1") 1200%N (lit "Some note")
    (mkTextBody (Some (lit "Some note")) None None).

Definition note_store : Store := mkStore [note_item] [].

(** The step of the loop of [findBestMatch]: the greater of the best
    rating so far and the rating of the next target. *)
Definition better (mainString : str) (best : Q) (t : str) : Q :=
  if Qgtb (compareTwoStrings mainString t) best
  then compareTwoStrings mainString t else best.

(** The property of a trace that the theorem is about: every entry
    decided while title [t] is on the list and rated above the threshold
    against it is skipped. *)
Definition skips_similar (t : str) (trace : list (FeedItem * Decision)) : Prop :=
  forall e d,
    In (e, d) trace ->
    (SIMILARITY_THRESHOLD < compareTwoStrings (item_title e) t)%Q ->
    d = SkippedUrl \/ d = SkippedTitle.

(** Two sources that carry the same story under two titles: the titles
    share their first 13 of 20 bigrams, a rating of exactly 0.65. *)
Definition first_entry : FeedItem :=
  mkFeedItem (lit "abcdefghijklmnopqrstu") (Some (lit "https://one.com/story"))
    None None.

Definition second_entry : FeedItem :=
  mkFeedItem (lit "abcdefghijklmn1234567") (Some (lit "https://two.com/item"))
    None None.

Definition two_feeds : list FeedSource :=
  [mkFeedSource (lit "One") (lit "https://one.com/rss");
   mkFeedSource (lit "Two") (lit "https://two.com/rss")].

Definition two_feeds_parse (u : str) : option (list FeedItem) :=
  if str_eqb u (lit "https://one.com/rss") then Some [first_entry]
  else if str_eqb u (lit "https://two.com/rss") then Some [second_entry]
  else None.

(** A rendering of ObjectIds for the examples. *)
Definition oid_text (n : nat) : str := repeat "f" (S n).

(** A store that knows both stories: the first is queued, the second
    was published from the same link written with a trailing slash. *)
Definition known_post : Post :=
  mkPost 100000001%N (Some (lit "Archive")) (Some (lit "Old summary"))
    (Some (lit "Old summary")) (Some (lit "https://two.com/item/"))
    (lit "archive") (lit "Two") (lit "Two") (lit "rss") null None []
    [lit "General"] [] 500%N true (lit "normal_post") (lit "te").

Definition known_store : Store :=
  mkStore
    [rss_queue_item 9 oid_text 1000%N
       (mkFeedSource (lit "One") (lit "https://one.com/rss")) first_entry]
    [known_post].

(** A story that the store does not know, carried by the first source
    after the first story. *)
Definition fresh_entry : FeedItem :=
  mkFeedItem (lit "Heavy rains lash the coast")
    (Some (lit "https://one.com/rains?utm_source=rss")) None None.

Definition fresh_feeds_parse (u : str) : option (list FeedItem) :=
  if str_eqb u (lit "https://one.com/rss") then Some [first_entry; fresh_entry]
  else if str_eqb u (lit "https://two.com/rss") then Some [second_entry]
  else None.

(** The same story again, under a title that shares 14 of 20 bigrams. *)
Definition third_entry : FeedItem :=
  mkFeedItem (lit "abcdefghijklmno234567") (Some (lit "https://two.com/item"))
    None None.

Definition similar_feeds_parse (u : str) : option (list FeedItem) :=
  if str_eqb u (lit "https://one.com/rss") then Some [first_entry]
  else if str_eqb u (lit "https://two.com/rss") then Some [third_entry]
  else None.

(** The counter of invocations in flight mirrors the flag. *)
Definition lock_consistent (p : Process) : Prop :=
  in_flight p = if isRSSFetching p then 1 else 0.

(** A process with a fetch cycle in flight. *)
Definition busy_process : Process := mkProcess true 1 (mkStore [] []).

(** A handler that, on this body, adds one new document to the queue
    and answers with success. *)
Definition enqueues_one (handler : Body -> Store -> Store * Response)
  (body : Body) (st : Store) : Prop :=
  exists doc,
    fst (handler body st) = Queue_insertMany [doc] st
    /\ status (snd (handler body st)) = 200
    /\ res_success (snd (handler body st)) = true.

(** ** Vocabulary of the further properties *)

(** The text of a URL from its lower-case scheme, host and path
    segments. *)
Definition url_text (sch h : str) (segs : list str) : str :=
  sch ++ lit "://" ++ h ++ path_text segs.

(** Characters a slug is made of: no upper-case letter, no underscore. *)
Definition slug_char (c : ascii) : bool :=
  negb (is_upper c) && negb (Ascii.eqb c "_").



(** The variants of the first entry of the media list. *)
Definition first_variants (item : QueueItem) : list Variant :=
  match mediaList item with
  | m :: _ => match video_variants m with Some l => l | None => [] end
  | [] => []
  end.

(** [mediaList.length > 0 && mediaList[0].type === "video"]. *)
Definition first_is_video (item : QueueItem) : bool :=
  match mediaList item with
  | m :: _ => same_opt (media_type m) (Some (lit "video"))
  | [] => false
  end.

(** The image of an item: its [imageUrl], or [media_url_https] of its
    first entity medium when it has such a medium and its [imageUrl] is
    undefined, null or empty. *)
Definition item_image (item : QueueItem) : Nullable :=
  match imageUrl item, extendedEntities_media item with
  | value ((_ :: _) as i), _ => value i
  | _, Some (m :: _) =>
      match media_url_https m with Some i => value i | None => undefined end
  | x, _ => x
  end.

(** What a published post takes from the item, the generator and the
    clock; [default] is the default of [imageUrl] in the schema of the
    posts, when it declares one. *)
Definition built_from (default : option str) (generatePostId Date_now : nat -> N)
  (item : QueueItem) (p : Post) : Prop :=
  post_url p = url item
  /\ post_relatedStories p = relatedStories item
  /\ post_imageUrl p
     = match item_image item, default with
       | undefined, Some d => value d
       | image, _ => image
       end
  /\ videoUrl p = fst (derive_video item)
  /\ post_type p = snd (derive_video item)
  /\ post_source p = or_else (source item) (lit "Manual")
  /\ sourceName p = or_else (user_name item) (lit "Manual")
  /\ isPublished p = true
  /\ tags p = []
  /\ exists k, k < 3 /\ postId p = generatePostId k /\ publishedAt p = Date_now k.

(** The entries a cycle enqueued, in fetch order. *)
Definition enqueued (trace : list (FeedItem * Decision)) : list FeedItem :=
  flat_map (fun e => match snd e with Enqueued => [fst e] | _ => [] end) trace.

(** The key of an entry in the set of known URLs. *)
Definition clean_link (e : FeedItem) : str := normalizeUrl (link e).

(** The queue document saved for an entry is the one the fetcher builds
    from it, whatever the ObjectId and the source. *)
Definition queued_from (now : N) (e : FeedItem) (q : QueueItem) : Prop :=
  exists oid oid_string feedSource,
    q = rss_queue_item oid oid_string now feedSource e.

(** The entries a cycle looks at: the first five of every feed that
    parses, each with its source. *)
Definition feed_entries (parseURL : str -> option (list FeedItem))
  (feeds : list FeedSource) : list (FeedSource * FeedItem) :=
  flat_map (fun f =>
              match parseURL (feed_url f) with
              | Some items => map (pair f) (firstn 5 items)
              | None => []
              end) feeds.

(** The two loops of the fetcher as one loop over the entries. *)
Fixpoint fetch_entries (newObjectId : nat -> nat) (ObjectId_toString : nat -> str)
  (now : N) (entries : list (FeedSource * FeedItem))
  (state : Store * FetchMemory)
  : (Store * FetchMemory) * list (FeedItem * Decision) :=
  match entries with
  | [] => (state, [])
  | (f, item) :: rest =>
      let (state1, d) :=
        fetch_item newObjectId ObjectId_toString now f state item in
      let (state2, trace) :=
        fetch_entries newObjectId ObjectId_toString now rest state1 in
      (state2, (item, d) :: trace)
  end.

(** A title that survives the round trip through the text of a queue
    document: not empty and on one line. *)
Definition plain_title (t : str) : Prop :=
  t <> [] /\ ~ In (ascii_of_nat 10) t.

(** The posts inside the 72-hour window of a cycle started at [now]. *)
Definition recent (now : N) (p : Post) : bool :=
  (now - HOURS_72 <=? publishedAt p)%N.

(** The string ids of queue documents, the key of the unique index. *)
Definition doc_ids (q : list QueueItem) : list str := map id q.

(** The tweets a call looks at: the first five of the reply. *)
Definition reply_tweets (r : TwitterReply) : list Tweet :=
  match r with
  | Json data_tweets data_data_tweets =>
      firstn 5
        (match data_tweets with
         | Some l => l
         | None => match data_data_tweets with Some l => l | None => [] end
         end)
  | _ => []
  end.

(** The tweets of a list that are neither queued nor posted. *)
Definition new_tweets (Post_tweetId : Post -> option str) (st : Store)
  (tweets : list Tweet) : list Tweet :=
  filter (fun t =>
            negb (set_has (postedIds Post_tweetId st (map tweet_id tweets)
                           ++ queuedIds st (map tweet_id tweets))
                    (tweet_id t))) tweets.

(** The documents built from a list of tweets. *)
Definition tweet_queue_docs (newObjectId : str -> nat -> nat) (now : N)
  (userName : str) (tweets : list Tweet) : list QueueItem :=
  map (fun kt => tweet_queue_doc newObjectId now userName (fst kt) (snd kt))
    (combine (seq 0 (length tweets)) tweets).

(** A reply with two tweets under [data.tweets], and posts without
    tweet ids. *)
Definition sample_tweets : list Tweet :=
  [mkTweet (lit "1790000000000000001") (lit "First tweet")
     (Some (lit "https://x.com/h/status/1790000000000000001")) None None None;
   mkTweet (lit "1790000000000000002") (lit "Second tweet")
     (Some (lit "https://x.com/h/status/1790000000000000002")) None None
     (Some (Some (lit "Handle")))].

Definition sample_timeline (_ : str) : TwitterReply :=
  Json None (Some sample_tweets).

Definition no_tweetId (_ : Post) : option str := None.

(** Characters of a tag slug: lower-case letters, digits, underscore and
    hyphen. *)
Definition tag_slug_char (c : ascii) : bool :=
  is_lower c || is_digit c || Ascii.eqb c "_" || Ascii.eqb c "-".

(** What the two unique indexes and the required paths of tagSchema
    guarantee. *)
Definition tags_consistent (tags : list Tag) : Prop :=
  NoDup (map tag_name tags)
  /\ NoDup (map tag_slug tags)
  /\ Forall (fun t => tag_name t <> [] /\ tag_slug t <> []) tags.

(** A name that a call cannot change the collection for: its slug is
    found, or creating its tag throws. *)
Definition tag_settled (tags : list Tag) (name : str) : Prop :=
  Tag_findOne tags (tag_slug_of name) <> None
  \/ forall oid, exists message,
       Tag_create oid tags name (tag_slug_of name) = inl message.

(** The post ids reported as duplicates. *)
Definition duplicate_ids (found : list FuzzyDuplicate) : list N :=
  map (fun d => postId (duplicate d)) found.

(** A reported pair: the two titles are defined and rated above the
    threshold, and the rating is the one reported. *)
Definition rated_pair (d : FuzzyDuplicate) : Prop :=
  exists a b,
    title (original d) = Some a /\ title (duplicate d) = Some b
    /\ similarity d = compareTwoStrings a b
    /\ (FUZZY_THRESHOLD < similarity d)%Q.

(** Two posts whose titles, when both are defined, are not rated above
    the threshold. *)
Definition dissimilar (postA postB : Post) : Prop :=
  forall a b,
    title postA = Some a -> title postB = Some b ->
    (compareTwoStrings a b <= FUZZY_THRESHOLD)%Q.

(** Three stored posts: the second is a near copy of the first. *)
Definition scan_sample : list Post :=
  [mkPost 100000003%N (Some (lit "Heavy rains lash the coastal districts"))
     None None None [] (lit "Site") (lit "Site") (lit "rss") null None []
     [lit "General"] [] 3000%N true (lit "normal_post") (lit "te");
   mkPost 100000002%N (Some (lit "Heavy rains lash the coastal district"))
     None None None [] (lit "Site") (lit "Site") (lit "rss") null None []
     [lit "General"] [] 2000%N true (lit "normal_post") (lit "te");
   mkPost 100000001%N (Some (lit "Budget passed")) None None None []
     (lit "Site") (lit "Site") (lit "rss") null None [] [lit "Politics"] []
     1000%N true (lit "normal_post") (lit "te")].

(** The last-mile check has something to find: the item has a URL and
    the URL of a stored post contains its normalized form, up to case. *)
Definition url_known (ps : list Post) (item : QueueItem) : Prop :=
  truthy_opt (url item) = true
  /\ exists p u,
       In p ps /\ post_url p = Some u
       /\ includes_with eqb_ci (normalizeUrl (url item)) u = true.

(** What lies behind an outcome. *)
Definition outcome_cause (formatTweetWithGemini : str -> option str -> option GeminiData)
  (ps : list Post) (item : QueueItem) (o : Outcome) : Prop :=
  match o with
  | SkippedDuplicate => url_known ps item
  | RewriteFailed => formatTweetWithGemini (text item) (url item) = None
  | Published p => formatTweetWithGemini (text item) (url item) <> None
  | Threw message =>
      formatTweetWithGemini (text item) (url item) <> None
      /\ (message = VALIDATION_MESSAGE
          \/ exists p q,
               message = DUPLICATE_MESSAGE p /\ post_url p = url item
               /\ In q ps /\ duplicate_key p q = true)
  end.

(* ================================================================== *)
(** * Part III. Properties                                           *)
(* ================================================================== *)

(** ** Characters and strings *)

Ltac by_cases_on_char c :=
  destruct c as [[] [] [] [] [] [] [] []]; vm_compute; intuition congruence.

Lemma url_char_not_delim : forall c,
  url_char c = true ->
  Ascii.eqb c "/" = false /\ Ascii.eqb c "?" = false /\ Ascii.eqb c "#" = false.
Proof. intros c; by_cases_on_char c. Qed.

Lemma host_char_not_authority_end : forall c,
  host_char c = true -> is_authority_end c = false.
Proof. intros c; by_cases_on_char c. Qed.

Lemma path_char_not_query_start : forall c,
  path_char c = true -> Ascii.eqb "?" c = false /\ Ascii.eqb "#" c = false.
Proof. intros c; by_cases_on_char c. Qed.

Lemma query_char_not_hash : forall c,
  query_char c = true -> Ascii.eqb "#" c = false.
Proof. intros c; by_cases_on_char c. Qed.

Lemma path_char_split : forall c,
  path_char c = true -> Ascii.eqb c "/" = false -> url_char c = true.
Proof. intros c; by_cases_on_char c. Qed.

Lemma url_char_path_char : forall c, url_char c = true -> path_char c = true.
Proof. intros c H; unfold path_char; rewrite H; reflexivity. Qed.

Lemma break_app : forall p a b,
  forallb (fun c => negb (p c)) a = true ->
  match b with [] => True | c :: _ => p c = true end ->
  break p (a ++ b) = (a, b).
Proof.
  intros p a b; induction a as [|c a IH]; simpl; intros Ha Hb.
  - destruct b as [|c b]; [reflexivity|]. simpl. rewrite Hb. reflexivity.
  - apply andb_true_iff in Ha as [Hc Ha].
    apply negb_true_iff in Hc. rewrite Hc, (IH Ha Hb). reflexivity.
Qed.

Lemma forallb_impl : forall (P Q : ascii -> bool) x,
  (forall c, P c = true -> Q c = true) ->
  forallb P x = true -> forallb Q x = true.
Proof.
  intros P Q x H; induction x as [|c x IH]; simpl; [reflexivity|].
  intros Hx. apply andb_true_iff in Hx as [Hc Hx].
  rewrite (H _ Hc), (IH Hx). reflexivity.
Qed.

Lemma split_on_not_nil : forall d x, split_on d x <> [].
Proof.
  intros d x; destruct x as [|c x]; simpl; [discriminate|].
  destruct (Ascii.eqb c d); [discriminate|].
  destruct (split_on d x); discriminate.
Qed.

Lemma path_text_cons : forall s r,
  path_text (s :: r) = "/" :: s ++ path_text r.
Proof. reflexivity. Qed.

Lemma path_text_nil : path_text [] = [].
Proof. reflexivity. Qed.

(** Splitting the text of a path gives back its segments. *)
Lemma split_on_join : forall rest seg,
  forallb url_char seg = true ->
  Forall (fun s => forallb url_char s = true) rest ->
  split_on "/" (seg ++ path_text rest) = seg :: rest.
Proof.
  induction rest as [|s rest IH]; intros seg Hseg Hrest.
  - change (path_text []) with (@nil ascii). rewrite app_nil_r. clear Hrest.
    induction seg as [|c seg IHs]; simpl; [reflexivity|].
    simpl in Hseg. apply andb_true_iff in Hseg as [Hc Hseg].
    destruct (url_char_not_delim c Hc) as [-> _]. rewrite (IHs Hseg). reflexivity.
  - inversion Hrest as [|? ? Hs Hrest']; subst.
    induction seg as [|c seg IHs].
    + change (path_text (s :: rest)) with ("/" :: s ++ path_text rest).
      simpl. rewrite (IH s Hs Hrest'). reflexivity.
    + simpl in Hseg. apply andb_true_iff in Hseg as [Hc Hseg].
      change ((c :: seg) ++ ?r) with (c :: (seg ++ r)).
      cbn [split_on].
      destruct (url_char_not_delim c Hc) as [-> _]. rewrite (IHs Hseg). reflexivity.
Qed.

(** Every piece of a split is free of the separator. *)
Lemma split_on_pieces : forall x,
  forallb path_char x = true ->
  Forall (fun s => forallb url_char s = true) (split_on "/" x).
Proof.
  induction x as [|c x IH]; simpl; intros Hx.
  - constructor; [reflexivity|constructor].
  - apply andb_true_iff in Hx as [Hc Hx]. specialize (IH Hx).
    destruct (Ascii.eqb c "/") eqn:E.
    + constructor; [reflexivity|exact IH].
    + pose proof (path_char_split c Hc E) as Hu.
      destruct (split_on "/" x) as [|h t]; inversion IH; subst.
      * constructor; [simpl; rewrite Hu; reflexivity|constructor].
      * constructor; [simpl; rewrite Hu; assumption|assumption].
Qed.

(** ** The URL record *)

Lemma seg_ok_nil : seg_ok [] = true.
Proof. reflexivity. Qed.

Lemma Forall_removelast : forall (A : Type) (P : A -> Prop) l,
  Forall P l -> Forall P (removelast l).
Proof.
  intros A P l H; induction H as [|x l Hx Hl IH]; simpl; [constructor|].
  destruct l; [constructor|]. constructor; assumption.
Qed.

Lemma path_state_ok : forall segs acc,
  Forall (fun s => seg_ok s = true) acc ->
  Forall (fun s => forallb url_char s = true) segs ->
  Forall (fun s => seg_ok s = true) (path_state acc segs).
Proof.
  induction segs as [|seg rest IH]; intros acc Hacc Hsegs; simpl; [assumption|].
  inversion Hsegs as [|? ? Hseg Hrest]; subst.
  assert (Hnil : Forall (fun s => seg_ok s = true) [[]])
    by (constructor; [reflexivity|constructor]).
  destruct (is_double_dot seg) eqn:Edd.
  - apply IH; [|assumption].
    destruct rest; [apply Forall_app; split|];
      try apply Forall_removelast; assumption.
  - destruct (is_single_dot seg) eqn:Esd.
    + apply IH; [|assumption].
      destruct rest; [apply Forall_app; split|]; assumption.
    + apply IH; [|assumption].
      apply Forall_app; split; [assumption|].
      constructor; [|constructor].
      unfold seg_ok. rewrite Hseg, Esd, Edd. reflexivity.
Qed.

Lemma path_state_not_nil : forall segs acc,
  segs <> [] -> path_state acc segs <> [].
Proof.
  induction segs as [|seg rest IH]; intros acc Hne; [congruence|].
  destruct rest as [|seg' rest'].
  - simpl. destruct (is_double_dot seg); [|destruct (is_single_dot seg)];
      intros E; apply app_eq_nil in E as [_ E]; discriminate.
  - change (path_state acc (seg :: seg' :: rest'))
      with (if is_double_dot seg then path_state (removelast acc) (seg' :: rest')
            else if is_single_dot seg then path_state acc (seg' :: rest')
            else path_state (acc ++ [seg]) (seg' :: rest')).
    destruct (is_double_dot seg); [|destruct (is_single_dot seg)];
      apply IH; discriminate.
Qed.

(** Segments without dots pass the path state unchanged. *)
Lemma path_state_id : forall segs acc,
  Forall (fun s => seg_ok s = true) segs ->
  path_state acc segs = acc ++ segs.
Proof.
  induction segs as [|seg rest IH]; intros acc H; simpl.
  - rewrite app_nil_r; reflexivity.
  - inversion H as [|? ? Hseg Hrest]; subst.
    unfold seg_ok in Hseg.
    apply andb_true_iff in Hseg as [Hseg Hdd].
    apply andb_true_iff in Hseg as [_ Hsd].
    apply negb_true_iff in Hdd, Hsd. rewrite Hdd, Hsd.
    rewrite (IH _ Hrest), <- app_assoc. reflexivity.
Qed.

Lemma seg_ok_chars : forall s, seg_ok s = true -> forallb url_char s = true.
Proof.
  intros s H. unfold seg_ok in H.
  apply andb_true_iff in H as [H _]. apply andb_true_iff in H as [H _]. exact H.
Qed.

Lemma pathname_chars : forall p,
  Forall (fun s => seg_ok s = true) p ->
  forallb path_char (path_text p) = true.
Proof.
  induction p as [|s p IH]; intros H; [reflexivity|].
  inversion H as [|? ? Hs Hp]; subst.
  change (path_text (s :: p)) with ("/" :: s ++ path_text p).
  cbn [forallb]. change (path_char "/") with true. cbn [andb].
  rewrite forallb_app, (IH Hp), andb_true_r.
  apply (forallb_impl url_char); [apply url_char_path_char|].
  apply seg_ok_chars; assumption.
Qed.

Lemma raw_segments_pathname : forall p,
  p <> [] -> Forall (fun s => seg_ok s = true) p ->
  raw_segments (path_text p) = p.
Proof.
  intros [|s p] Hne H; [congruence|].
  change (path_text (s :: p)) with ("/" :: s ++ path_text p). cbn [raw_segments].
  inversion H as [|? ? Hs Hp]; subst.
  apply split_on_join; [apply seg_ok_chars; assumption|].
  eapply Forall_impl; [|exact Hp]. apply seg_ok_chars.
Qed.

Lemma cut_app : forall d a (o : option str),
  forallb (fun c => negb (Ascii.eqb d c)) a = true ->
  cut d (a ++ match o with Some v => d :: v | None => [] end) = (a, o).
Proof.
  intros d a o Ha. unfold cut.
  rewrite break_app; [destruct o; reflexivity|assumption|].
  destruct o; [apply Ascii.eqb_refl|exact I].
Qed.

Lemma parse_scheme_ok : forall sch rest,
  sch = lit "https" \/ sch = lit "http" ->
  parse_scheme (sch ++ lit "://" ++ rest) = Some (sch, rest).
Proof. intros sch rest [-> | ->]; reflexivity. Qed.

Lemma host_ok_chars : forall h, host_ok h = true -> forallb host_char h = true.
Proof.
  intros h H. unfold host_ok in H.
  apply andb_true_iff in H as [H _]. apply andb_true_iff in H as [H _]. exact H.
Qed.

Lemma host_char_lower : forall c, host_char c = true -> to_lower_char c = c.
Proof. intros c; by_cases_on_char c. Qed.

Lemma host_ok_lower : forall h, host_ok h = true -> toLowerCase h = h.
Proof.
  intros h H. apply host_ok_chars in H. unfold toLowerCase.
  induction h as [|c h IH]; [reflexivity|].
  simpl in H. apply andb_true_iff in H as [Hc Hh].
  cbn [map]. rewrite (host_char_lower c Hc), (IH Hh). reflexivity.
Qed.

Lemma host_ok_not_nil : forall h, host_ok h = true -> h <> [].
Proof. intros h H ->. discriminate. Qed.

(** The parser on a text assembled from well-formed parts. *)
Lemma URL_parse_text : forall sch h p q f,
  sch = lit "https" \/ sch = lit "http" ->
  host_ok h = true ->
  forallb path_char p = true ->
  match p with [] => True | c :: _ => c = "/" end ->
  opt_forallb query_char q = true ->
  opt_forallb fragment_char f = true ->
  URL_parse (sch ++ lit "://" ++ h ++ p ++ query_text q ++ fragment_text f)
  = Some (mkURL sch h (path_state [] (raw_segments p)) q f).
Proof.
  intros sch h p q f Hsch Hh Hp Hp0 Hq Hf.
  unfold URL_parse. rewrite (parse_scheme_ok _ _ Hsch).
  rewrite break_app.
  - replace (p ++ query_text q ++ fragment_text f)
      with ((p ++ query_text q) ++ fragment_text f) by (rewrite app_assoc; reflexivity).
    unfold fragment_text. rewrite cut_app.
    + unfold query_text. rewrite cut_app.
      * rewrite (host_ok_lower h Hh), Hh, Hp, Hq, Hf. reflexivity.
      * apply (forallb_impl path_char); [|assumption].
        intros c Hc. destruct (path_char_not_query_start c Hc) as [-> _]. reflexivity.
    + rewrite forallb_app. apply andb_true_iff; split.
      * apply (forallb_impl path_char); [|assumption].
        intros c Hc. destruct (path_char_not_query_start c Hc) as [_ ->]. reflexivity.
      * destruct q as [v|]; [|reflexivity]. cbn [query_text forallb].
        apply andb_true_iff; split; [reflexivity|].
        apply (forallb_impl query_char); [|assumption].
        intros c Hc. rewrite (query_char_not_hash c Hc). reflexivity.
  - apply (forallb_impl host_char); [|apply host_ok_chars; assumption].
    intros c Hc. rewrite (host_char_not_authority_end c Hc). reflexivity.
  - destruct p as [|c p']; [|subst c; reflexivity].
    destruct q; [reflexivity|]. destruct f; [reflexivity|exact I].
Qed.

Lemma href_text : forall u,
  href u = scheme u ++ lit "://" ++ host u ++ pathname u
           ++ query_text (query u) ++ fragment_text (fragment u).
Proof. reflexivity. Qed.

(** Serialising a record and parsing the text gives the record back. *)
Lemma URL_parse_href : forall u, wf_url u -> URL_parse (href u) = Some u.
Proof.
  intros [sch h p q f] (Hsch & Hh & Hne & Hp & Hq & Hf); simpl in *.
  rewrite href_text. unfold pathname. cbn [scheme host path query fragment].
  rewrite URL_parse_text; try assumption.
  - rewrite raw_segments_pathname, path_state_id by assumption. reflexivity.
  - apply pathname_chars; assumption.
  - destruct p; [congruence|reflexivity].
Qed.

Lemma URL_parse_wf : forall x u, URL_parse x = Some u -> wf_url u.
Proof.
  intros x u. unfold URL_parse.
  destruct (parse_scheme x) as [[sch rest]|] eqn:Es; [|discriminate].
  destruct (break is_authority_end rest) as [h0 tail].
  set (h := toLowerCase h0).
  destruct (cut "#" tail) as [pq frag].
  destruct (cut "?" pq) as [p q].
  destruct (host_ok h) eqn:Hh; [|discriminate].
  destruct (forallb path_char p) eqn:Hp; [|discriminate].
  destruct (opt_forallb query_char q) eqn:Hq; [|discriminate].
  destruct (opt_forallb fragment_char frag) eqn:Hf; [|discriminate].
  simpl. intros E; injection E as <-.
  assert (Hsch : sch = lit "https" \/ sch = lit "http").
  { unfold parse_scheme in Es.
    destruct (strip_prefix (lit "https://") x); [injection Es as <- _; left; reflexivity|].
    destruct (strip_prefix (lit "http://") x); [injection Es as <- _; right; reflexivity|].
    discriminate. }
  assert (Hraw : Forall (fun s => forallb url_char s = true) (raw_segments p)).
  { destruct p as [|c p']; simpl.
    - constructor; [reflexivity|constructor].
    - simpl in Hp. apply andb_true_iff in Hp as [_ Hp]. apply split_on_pieces; assumption. }
  repeat split; simpl; try assumption.
  - apply path_state_not_nil. destruct p; simpl; [discriminate|apply split_on_not_nil].
  - apply path_state_ok; [constructor|assumption].
Qed.

(** ** normalizeUrl *)

Lemma last_case : forall (A : Type) (l : list A),
  l = [] \/ exists y c, l = y ++ [c].
Proof.
  intros A l. destruct l as [|a l]; [left; reflexivity|right].
  destruct (exists_last (l := a :: l)) as (y & c & E); [discriminate|].
  exists y, c; exact E.
Qed.

Lemma endsWith_slash_app : forall y c,
  endsWith (y ++ [c]) (lit "/") = Ascii.eqb "/" c.
Proof.
  intros y c. unfold endsWith. rewrite rev_unit. simpl.
  apply andb_true_r.
Qed.

Lemma drop_last_1_app : forall y (c : ascii), drop_last 1 (y ++ [c]) = y.
Proof.
  intros y c. unfold drop_last. rewrite length_app. simpl.
  replace (length y + 1 - 1) with (length y + 0) by lia.
  rewrite firstn_app_2. simpl. apply app_nil_r.
Qed.

Lemma strip_trailing_slash_slash : forall y,
  strip_trailing_slash (y ++ ["/"]) = y.
Proof.
  intros y. unfold strip_trailing_slash.
  rewrite endsWith_slash_app, drop_last_1_app. reflexivity.
Qed.

Lemma strip_trailing_slash_other : forall y c,
  Ascii.eqb "/" c = false -> strip_trailing_slash (y ++ [c]) = y ++ [c].
Proof.
  intros y c H. unfold strip_trailing_slash.
  rewrite endsWith_slash_app, H. reflexivity.
Qed.

Lemma strip_trailing_slash_fixed : forall x,
  endsWith x (lit "/") = false -> strip_trailing_slash x = x.
Proof. intros x H. unfold strip_trailing_slash. rewrite H. reflexivity. Qed.

Lemma URL_parse_truthy : forall x u, URL_parse x = Some u -> truthy x = true.
Proof. intros [|c x] u H; [discriminate|reflexivity]. Qed.

(** On a platform that follows the standard, [normalizeUrl] of an input
    of the fragment is computed from the record of the standard. *)
Lemma normalizeUrl_parsed : follows_standard -> forall x u,
  URL_parse x = Some u ->
  normalizeUrl (Some x) = strip_trailing_slash (href (set_search_empty u)).
Proof.
  intros Hstd x u H. unfold normalizeUrl.
  destruct (Hstd x u H) as (o & -> & -> & _).
  rewrite (URL_parse_truthy _ _ H). reflexivity.
Qed.

(** When [new URL] throws, the [catch] returns the argument. *)
Lemma normalizeUrl_unparsed : forall x,
  new_URL x = None -> normalizeUrl (Some x) = x.
Proof.
  intros x H. unfold normalizeUrl. rewrite H.
  destruct x; reflexivity.
Qed.

Lemma set_search_empty_wf : forall u,
  wf_url u -> wf_url (set_search_empty u) /\ query (set_search_empty u) = None.
Proof.
  intros u (Hs & Hh & Hn & Hp & Hq & Hf).
  repeat split; assumption.
Qed.

Lemma set_search_empty_id : forall u,
  query u = None -> set_search_empty u = u.
Proof. intros [sch h p q f]; simpl; intros ->; reflexivity. Qed.

Lemma pathname_app : forall p s,
  path_text (p ++ [s])
  = path_text p ++ "/" :: s.
Proof.
  intros p s. unfold path_text.
  rewrite map_app, concat_app. simpl. rewrite app_nil_r. reflexivity.
Qed.

Lemma url_char_not_slash : forall c,
  url_char c = true -> Ascii.eqb "/" c = false.
Proof. intros c; by_cases_on_char c. Qed.

Lemma host_char_not_slash : forall c,
  host_char c = true -> Ascii.eqb "/" c = false.
Proof. intros c; by_cases_on_char c. Qed.

(** One trailing slash removed from a serialised record is again the
    text of a record, or the bare origin of the same record. *)
Lemma strip_href_parse : forall u,
  wf_url u -> query u = None ->
  exists v, wf_url v /\ query v = None
    /\ URL_parse (strip_trailing_slash (href u)) = Some v
    /\ strip_trailing_slash (href v)
       = strip_trailing_slash (strip_trailing_slash (href u)).
Proof.
  intros u Hwf Hq.
  destruct (endsWith (href u) (lit "/")) eqn:Eends.
  2:{ exists u. rewrite (strip_trailing_slash_fixed _ Eends).
      split; [exact Hwf|]. split; [exact Hq|].
      split; [apply URL_parse_href; exact Hwf|].
      rewrite (strip_trailing_slash_fixed _ Eends). reflexivity. }
  destruct u as [sch h p q f]; simpl in Hq; subst q.
  destruct Hwf as (Hs & Hh & Hn & Hp & _ & Hf); simpl in *.
  rewrite href_text in *. unfold pathname in *.
  cbn [scheme host path query fragment query_text] in *.
  destruct f as [f|].
  - (* the slash ends the fragment *)
    destruct (last_case _ f) as [-> | (f' & c & ->)].
    + exfalso. cbn [fragment_text] in Eends.
      rewrite !app_assoc, endsWith_slash_app in Eends. discriminate.
    + cbn [fragment_text] in *.
      assert (Ec : c = "/").
      { rewrite app_comm_cons, !app_assoc, endsWith_slash_app in Eends.
        apply Ascii.eqb_eq in Eends. congruence. }
      subst c.
      assert (Hf' : forallb fragment_char f' = true).
      { simpl in Hf. rewrite forallb_app in Hf.
        apply andb_true_iff in Hf as [Hf _]. exact Hf. }
      exists (mkURL sch h p None (Some f')).
      assert (Hstrip : strip_trailing_slash
                (sch ++ lit "://" ++ h ++ path_text p
                 ++ [] ++ "#" :: f' ++ ["/"])
              = href (mkURL sch h p None (Some f'))).
      { rewrite href_text. unfold pathname.
        cbn [scheme host path query fragment query_text fragment_text].
        rewrite app_comm_cons, !app_assoc, strip_trailing_slash_slash.
        reflexivity. }
      rewrite Hstrip.
      assert (Hwf' : wf_url (mkURL sch h p None (Some f')))
        by (repeat split; assumption).
      split; [exact Hwf'|]. split; [reflexivity|].
      split; [apply URL_parse_href; exact Hwf'|reflexivity].
  - (* the slash ends the path *)
    cbn [fragment_text] in *. rewrite !app_nil_r in *.
    destruct (last_case _ p) as [-> | (p' & s & ->)]; [congruence|].
    rewrite pathname_app in *.
    apply Forall_app in Hp as [Hp' Hs'].
    inversion Hs' as [|? ? Hsok _]; subst.
    destruct (last_case _ s) as [-> | (s' & c & ->)].
    2:{ exfalso. rewrite app_comm_cons, !app_assoc, endsWith_slash_app in Eends.
        apply seg_ok_chars in Hsok. rewrite forallb_app in Hsok.
        apply andb_true_iff in Hsok as [_ Hc]. simpl in Hc.
        rewrite andb_true_r in Hc.
        rewrite (url_char_not_slash c Hc) in Eends. discriminate. }
    rewrite !app_assoc, strip_trailing_slash_slash, <- !app_assoc.
    destruct p' as [|s0 p0].
    + (* the bare origin *)
      exists (mkURL sch h [[]] None None).
      assert (Hwf' : wf_url (mkURL sch h [[]] None None))
        by (repeat split; simpl; try assumption; try discriminate).
      split; [exact Hwf'|]. split; [reflexivity|].
      change (path_text []) with (@nil ascii). rewrite app_nil_r.
      assert (Eorigin : sch ++ lit "://" ++ h
                = sch ++ lit "://" ++ h ++ [] ++ query_text None ++ fragment_text None)
        by (simpl; rewrite app_nil_r; reflexivity).
      split.
      * rewrite Eorigin, URL_parse_text; try assumption; reflexivity.
      * rewrite href_text. unfold pathname.
        cbn [scheme host path query fragment query_text fragment_text].
        change (path_text [[]]) with ["/"]. rewrite !app_nil_r.
        rewrite !app_assoc, strip_trailing_slash_slash, <- !app_assoc.
        destruct (last_case _ h) as [-> | (h' & c & ->)]; [discriminate|].
        symmetry. rewrite !app_assoc. apply strip_trailing_slash_other.
        apply host_char_not_slash.
        apply host_ok_chars in Hh. rewrite forallb_app in Hh.
        apply andb_true_iff in Hh as [_ Hc]. simpl in Hc.
        rewrite andb_true_r in Hc. exact Hc.
    + exists (mkURL sch h (s0 :: p0) None None).
      assert (Hwf' : wf_url (mkURL sch h (s0 :: p0) None None))
        by (repeat split; simpl; try assumption; try discriminate).
      assert (Ehref : href (mkURL sch h (s0 :: p0) None None)
                = sch ++ lit "://" ++ h ++ path_text (s0 :: p0)).
      { rewrite href_text. unfold pathname.
        cbn [scheme host path query fragment query_text fragment_text].
        rewrite !app_nil_r. reflexivity. }
      rewrite <- Ehref.
      split; [exact Hwf'|]. split; [reflexivity|].
      split; [apply URL_parse_href; exact Hwf'|reflexivity].
Qed.


(** Two URLs that differ only in their query strings normalize to the
    same text. *)
Lemma normalizeUrl_ignores_query : follows_standard -> forall sch h p q q' f,
  sch = lit "https" \/ sch = lit "http" ->
  host_ok h = true ->
  forallb path_char p = true ->
  match p with [] => True | c :: _ => c = "/" end ->
  opt_forallb query_char q = true ->
  opt_forallb query_char q' = true ->
  opt_forallb fragment_char f = true ->
  normalizeUrl (Some (sch ++ lit "://" ++ h ++ p ++ query_text q ++ fragment_text f))
  = normalizeUrl (Some (sch ++ lit "://" ++ h ++ p ++ query_text q' ++ fragment_text f)).
Proof.
  intros Hstd sch h p q q' f Hsch Hh Hp Hp0 Hq Hq' Hf.
  etransitivity;
    [apply (normalizeUrl_parsed Hstd _ _
              (URL_parse_text sch h p q f Hsch Hh Hp Hp0 Hq Hf))|].
  symmetry.
  apply (normalizeUrl_parsed Hstd _ _
           (URL_parse_text sch h p q' f Hsch Hh Hp Hp0 Hq' Hf)).
Qed.

(** The normalized form of a URL of the fragment, by evaluation of the
    standard. *)
Ltac normalize_by_standard Hstd :=
  etransitivity;
    [eapply (normalizeUrl_parsed Hstd); vm_compute; reflexivity
    |vm_compute; reflexivity].

(** A URL that ends in two slashes loses one of them at each
    application. *)
Lemma normalizeUrl_double_slash :
  follows_standard ->
  normalizeUrl (Some (lit "https://a.com/x//")) = lit "https://a.com/x/"
  /\ normalizeUrl (Some (lit "https://a.com/x/")) = lit "https://a.com/x".
Proof.
  intros Hstd. split; normalize_by_standard Hstd.
Qed.


(** ** extractSlugFromUrl *)

Lemma filter_truthy_all : forall segs,
  Forall (fun s => truthy s = true) segs -> filter truthy segs = segs.
Proof.
  induction segs as [|s segs IH]; intros H; simpl; [reflexivity|].
  inversion H as [|? ? Hs Hr]; subst. rewrite Hs, (IH Hr). reflexivity.
Qed.

Lemma split_pathname : forall segs,
  segs <> [] -> Forall (fun s => seg_ok s = true) segs ->
  split_on "/" (path_text segs) = [] :: segs.
Proof.
  intros segs Hne H.
  pose proof (raw_segments_pathname segs Hne H) as E.
  destruct segs as [|s r]; [congruence|].
  simpl in *. rewrite E. reflexivity.
Qed.

(** The selection of [extractSlugFromUrl] on the list of non-empty
    segments. *)
Lemma select_segment : forall segs,
  Forall (fun s => truthy s = true) segs ->
  (let slug :=
     match length segs with
     | 0 => None
     | S n => js_nth segs n
     end in
   if truthy_opt slug
      && match slug with Some v => all_digits v | None => false end
      && (1 <? length segs)
   then js_nth segs (length segs - 2)
   else slug) = chosen_segment segs.
Proof.
  intros segs Hall. unfold chosen_segment, js_nth.
  destruct (last_case _ segs) as [-> | (y & b & ->)]; [reflexivity|].
  apply Forall_app in Hall as [Hy Hb].
  inversion Hb as [|? ? Hbt _]; subst.
  rewrite rev_unit, length_app. simpl length. rewrite Nat.add_1_r.
  cbv beta iota zeta.
  assert (Elast : forall (z : list str) (c : str),
             nth_error (z ++ [c]) (length z) = Some c).
  { intros z c. rewrite nth_error_app2 by lia.
    rewrite Nat.sub_diag. reflexivity. }
  rewrite Elast. simpl truthy_opt. rewrite Hbt. simpl andb.
  destruct (last_case _ y) as [-> | (y' & a & ->)].
  - simpl. rewrite andb_false_r. reflexivity.
  - rewrite rev_unit, length_app. simpl length. rewrite Nat.add_1_r.
    replace (1 <? S (S (length y'))) with true by (symmetry; apply Nat.ltb_lt; lia).
    rewrite andb_true_r.
    replace (S (S (length y')) - 2) with (length y') by lia.
    rewrite <- app_assoc, nth_error_app2 by lia.
    rewrite Nat.sub_diag. simpl. destruct (all_digits b); reflexivity.
Qed.

Lemma extractSlugFromUrl_parsed : follows_standard -> forall x u,
  URL_parse x = Some u ->
  extractSlugFromUrl (Some x)
  = match chosen_segment (filter truthy (path u)) with
    | Some v => slug_clean v
    | None => []
    end.
Proof.
  intros Hstd x u H. unfold extractSlugFromUrl.
  destruct (Hstd x u H) as (o & -> & _ & ->).
  rewrite (URL_parse_truthy _ _ H). cbn [negb].
  destruct (URL_parse_wf _ _ H) as (_ & _ & Hne & Hp & _).
  unfold pathname. rewrite (split_pathname _ Hne Hp).
  cbn [filter truthy].
  set (segs := filter truthy (path u)).
  assert (Hall : Forall (fun s => truthy s = true) segs).
  { apply Forall_forall. intros s Hs. apply filter_In in Hs as [_ Hs]. exact Hs. }
  pose proof (select_segment segs Hall) as Hsel.
  cbv zeta in Hsel |- *. rewrite Hsel.
  destruct (chosen_segment segs) as [v|] eqn:Ev; [|reflexivity].
  assert (Hv : truthy v = true).
  { rewrite Forall_forall in Hall. apply Hall.
    unfold chosen_segment in Ev.
    destruct (rev segs) as [|b [|a r]] eqn:Er; [discriminate| |].
    - injection Ev as <-. apply in_rev. rewrite Er. left; reflexivity.
    - apply in_rev. rewrite Er.
      destruct (all_digits b); injection Ev as <-;
        [right; left; reflexivity|left; reflexivity]. }
  rewrite Hv. reflexivity.
Qed.

Lemma URL_parse_segments : forall sch h segs q f,
  sch = lit "https" \/ sch = lit "http" ->
  host_ok h = true ->
  segs <> [] ->
  Forall (fun s => seg_ok s = true) segs ->
  opt_forallb query_char q = true ->
  opt_forallb fragment_char f = true ->
  URL_parse (sch ++ lit "://" ++ h ++ path_text segs
             ++ query_text q ++ fragment_text f)
  = Some (mkURL sch h segs q f).
Proof.
  intros sch h segs q f Hsch Hh Hne Hsegs Hq Hf.
  rewrite URL_parse_text; try assumption.
  - rewrite raw_segments_pathname, path_state_id by assumption. reflexivity.
  - apply pathname_chars; assumption.
  - destruct segs; [congruence|reflexivity].
Qed.

(** *** The code and the description *)












(** What [extractSlugFromUrl] returns is empty or the slug of a text. *)
Lemma extractSlugFromUrl_shape : forall url,
  extractSlugFromUrl url = [] \/ exists v, extractSlugFromUrl url = slug_clean v.
Proof.
  intros [x|]; [|left; reflexivity]. unfold extractSlugFromUrl.
  destruct (negb (truthy x)); [left; reflexivity|].
  destruct (new_URL x) as [o|]; [|left; reflexivity]. cbv zeta.
  match goal with
  | |- context [match ?slug with None => [] | Some v => _ end] =>
      destruct slug as [v|]; [|left; reflexivity]
  end.
  destruct (negb (truthy v)); [left; reflexivity|right; exists v; reflexivity].
Qed.


(** The slug of a URL of the fragment, by evaluation of the standard. *)
Ltac slug_by_standard Hstd :=
  etransitivity;
    [eapply (extractSlugFromUrl_parsed Hstd); vm_compute; reflexivity
    |vm_compute; reflexivity].

(** A numeric segment is the slug when the segment after it is numeric
    too, and when it is the only one. *)
Lemma extractSlugFromUrl_numeric_segments :
  follows_standard ->
  extractSlugFromUrl (Some (lit "https://site.com/news/2024/12345")) = lit "2024"
  /\ extractSlugFromUrl (Some (lit "https://site.com/12345")) = lit "12345"
  /\ extractSlugFromUrl (Some (lit "https://site.com/News/Big_Story.HTML?x=1"))
     = lit "big-story".
Proof.
  intros Hstd. split; [|split]; slug_by_standard Hstd.
Qed.

(** ** The queue *)

Lemma worker_item_effect : forall g gen now,
  step_effect worker_removes (worker_item g gen now).
Proof.
  intros g gen now k st item. unfold worker_item.
  destruct (last_mile_duplicate (posts st) item);
    [simpl; rewrite app_nil_r; split; reflexivity|].
  destruct (g (text item) (url item)) as [d|];
    [|simpl; rewrite app_nil_r; split; reflexivity].
  destruct (Post_save (posts st) (worker_newPost gen now k item d)) as [m|ps] eqn:E;
    simpl; [rewrite app_nil_r; split; reflexivity|].
  split; [reflexivity|].
  unfold Post_save in E.
  destruct (negb (post_valid _)); [discriminate|].
  destruct (existsb _ _); [discriminate|]. injection E as <-. reflexivity.
Qed.

Lemma processQueueItem_item_effect : forall g gen now,
  step_effect processQueueItem_removes (processQueueItem_item g gen now).
Proof.
  intros g gen now k st item. unfold processQueueItem_item.
  destruct (last_mile_duplicate (posts st) item);
    [simpl; rewrite app_nil_r; split; reflexivity|].
  destruct (g (text item) (url item)) as [d|];
    [|simpl; rewrite app_nil_r; split; reflexivity].
  destruct (Post_save (posts st) (processQueueItem_newPost gen now k item d))
    as [m|ps] eqn:E.
  - destruct (includes m (lit "validation failed")) eqn:Ei;
      cbn [fst snd processQueueItem_removes Queue_deleteOne queue posts published];
      rewrite Ei, app_nil_r; split; reflexivity.
  - simpl. split; [reflexivity|].
    unfold Post_save in E.
    destruct (negb (post_valid _)); [discriminate|].
    destruct (existsb _ _); [discriminate|]. injection E as <-. reflexivity.
Qed.

Lemma deleteOne_incl : forall i q x, In x (deleteOne i q) -> In x q.
Proof.
  intros i q x; induction q as [|y q IH]; simpl; [tauto|].
  destruct (_id y =? i); [tauto|]. simpl. intros [->|H]; [left; reflexivity|].
  right; apply IH; assumption.
Qed.

Lemma deleteOne_keeps : forall i q x,
  In x q -> _id x <> i -> In x (deleteOne i q).
Proof.
  intros i q x; induction q as [|y q IH]; simpl; [tauto|].
  intros [->|H] Hne.
  - destruct (_id x =? i) eqn:E; [apply Nat.eqb_eq in E; congruence|].
    left; reflexivity.
  - destruct (_id y =? i); [assumption|]. right; apply IH; assumption.
Qed.

Lemma deleteOne_ids_incl : forall i q j,
  In j (ids (deleteOne i q)) -> In j (ids q).
Proof.
  intros i q j H. unfold ids in *. apply in_map_iff in H as (x & <- & Hx).
  apply in_map. eapply deleteOne_incl; eassumption.
Qed.

Lemma deleteOne_NoDup : forall i q, NoDup (ids q) -> NoDup (ids (deleteOne i q)).
Proof.
  intros i q; induction q as [|y q IH]; simpl; intros H; [constructor|].
  inversion H as [|? ? Hy Hq]; subst.
  destruct (_id y =? i); [assumption|]. simpl. constructor.
  - intros Hin. apply Hy. eapply deleteOne_ids_incl; eassumption.
  - apply IH; assumption.
Qed.

(** With distinct keys, the deleted key is gone. *)
Lemma deleteOne_removes : forall i q,
  NoDup (ids q) -> ~ In i (ids (deleteOne i q)).
Proof.
  intros i q; induction q as [|y q IH]; simpl; intros H; [tauto|].
  inversion H as [|? ? Hy Hq]; subst.
  destruct (_id y =? i) eqn:E.
  - apply Nat.eqb_eq in E. subst i. assumption.
  - simpl. intros [Heq|Hin]; [apply Nat.eqb_neq in E; congruence|].
    exact (IH Hq Hin).
Qed.

(** Deleting a key leaves the documents of the other keys as they are. *)
Lemma deleteOne_filter : forall (keep : QueueItem -> bool) i q,
  (forall y, _id y = i -> keep y = false) ->
  filter keep (deleteOne i q) = filter keep q.
Proof.
  intros keep i q Hkeep; induction q as [|y q IH]; simpl; [reflexivity|].
  destruct (_id y =? i) eqn:E.
  - apply Nat.eqb_eq in E. rewrite (Hkeep y E). reflexivity.
  - simpl. rewrite IH. reflexivity.
Qed.

Lemma arrived_S : forall arrivals k n,
  arrived arrivals k (S n) = arrivals k ++ arrived arrivals (S k) n.
Proof. reflexivity. Qed.

Section Batch.

Variable removes : Outcome -> bool.
Variable step : nat -> Store -> QueueItem -> Store * Outcome.
Hypothesis step_ok : step_effect removes step.
Variable arrivals : nat -> list QueueItem.

Lemma run_batch_cons : forall k item rest st,
  run_batch step arrivals k (item :: rest) st
  = (fst (run_batch step arrivals (S k) rest
            (fst (step k (Queue_insertMany (arrivals k) st) item))),
     (item, snd (step k (Queue_insertMany (arrivals k) st) item))
     :: snd (run_batch step arrivals (S k) rest
               (fst (step k (Queue_insertMany (arrivals k) st) item)))).
Proof.
  intros k item rest st. simpl.
  destruct (step k (Queue_insertMany (arrivals k) st) item) as [st1 o].
  cbn [fst snd].
  destruct (run_batch step arrivals (S k) rest st1) as [st2 tr]. reflexivity.
Qed.

Lemma run_batch_trace : forall batch k st,
  map fst (snd (run_batch step arrivals k batch st)) = batch.
Proof.
  induction batch as [|item rest IH]; intros k st; [reflexivity|].
  rewrite run_batch_cons. simpl. rewrite IH. reflexivity.
Qed.

Lemma published_app : forall a b, published (a ++ b) = published a ++ published b.
Proof.
  induction a as [|[x o] a IH]; intros b; [reflexivity|].
  simpl. destruct o; rewrite IH; reflexivity.
Qed.

(** The posts after a run are the posts before it and those published. *)
Lemma run_batch_posts : forall batch k st,
  posts (fst (run_batch step arrivals k batch st))
  = posts st ++ published (snd (run_batch step arrivals k batch st)).
Proof.
  induction batch as [|item rest IH]; intros k st.
  - simpl. rewrite app_nil_r. reflexivity.
  - rewrite run_batch_cons. cbn [fst snd]. rewrite IH.
    destruct (step_ok k (Queue_insertMany (arrivals k) st) item) as [_ Hp].
    rewrite Hp. cbn [Queue_insertMany posts]. rewrite <- app_assoc. f_equal.
    symmetry. apply (published_app [(item, _)]).
Qed.

(** The documents kept by a filter that rejects the keys of the batch
    are those of the queue and of the arrivals. *)
Lemma run_batch_frame : forall (keep : QueueItem -> bool) batch k st,
  (forall x y, In x batch -> _id y = _id x -> keep y = false) ->
  filter keep (queue (fst (run_batch step arrivals k batch st)))
  = filter keep (queue st ++ arrived arrivals k (length batch)).
Proof.
  intros keep; induction batch as [|item rest IH]; intros k st Hkeep.
  - simpl. rewrite app_nil_r. reflexivity.
  - rewrite run_batch_cons. cbn [fst length]. rewrite IH.
    2:{ intros x y Hx. apply Hkeep. right; assumption. }
    destruct (step_ok k (Queue_insertMany (arrivals k) st) item) as [Hq _].
    rewrite arrived_S, !filter_app, Hq. cbn [Queue_insertMany queue].
    destruct (removes _).
    + rewrite deleteOne_filter, filter_app, app_assoc; [reflexivity|].
      intros y Hy. apply (Hkeep item); [left; reflexivity|assumption].
    + rewrite filter_app, app_assoc. reflexivity.
Qed.

Lemma run_batch_incl : forall batch k st x,
  In x (queue (fst (run_batch step arrivals k batch st))) ->
  In x (queue st ++ arrived arrivals k (length batch)).
Proof.
  induction batch as [|item rest IH]; intros k st x.
  - simpl. rewrite app_nil_r. tauto.
  - rewrite run_batch_cons. cbn [fst length]. intros H.
    apply IH in H. rewrite arrived_S, app_assoc.
    apply in_app_or in H as [H|H]; apply in_or_app; [left|right; assumption].
    destruct (step_ok k (Queue_insertMany (arrivals k) st) item) as [Hq _].
    rewrite Hq in H. cbn [Queue_insertMany queue] in H.
    destruct (removes _); [eapply deleteOne_incl; eassumption|assumption].
Qed.

Lemma ids_app : forall a b, ids (a ++ b) = ids a ++ ids b.
Proof. intros a b. apply map_app. Qed.

Lemma NoDup_app_l : forall (A : Type) (a b : list A), NoDup (a ++ b) -> NoDup a.
Proof.
  intros A a b; induction a as [|x a IH]; simpl; intros H; [constructor|].
  inversion H as [|? ? Hx Ha]; subst. constructor.
  - intros Hin. apply Hx. apply in_or_app. left; assumption.
  - apply IH; assumption.
Qed.

Lemma NoDup_app_disjoint : forall (A : Type) (a b : list A) x,
  NoDup (a ++ b) -> In x a -> ~ In x b.
Proof.
  intros A a b x; induction a as [|y a IH]; simpl; intros H Hin; [tauto|].
  inversion H as [|? ? Hy Ha]; subst.
  destruct Hin as [->|Hin]; [|apply IH; assumption].
  intros Hb. apply Hy. apply in_or_app. right; assumption.
Qed.

(** The state of the queue after one iteration keeps distinct keys. *)
Lemma step_NoDup : forall k st item n,
  NoDup (ids (queue st ++ arrived arrivals k (S n))) ->
  NoDup (ids (queue (fst (step k (Queue_insertMany (arrivals k) st) item))
              ++ arrived arrivals (S k) n)).
Proof.
  intros k st item n H.
  destruct (step_ok k (Queue_insertMany (arrivals k) st) item) as [Hq _].
  rewrite Hq. cbn [Queue_insertMany queue].
  rewrite arrived_S, app_assoc in H.
  destruct (removes _); [|assumption].
  rewrite ids_app in *.
  remember (queue st ++ arrivals k) as q0.
  remember (ids (arrived arrivals (S k) n)) as later.
  clear -H. induction q0 as [|y q0 IH]; simpl in *; [assumption|].
  inversion H as [|? ? Hy Hq]; subst.
  destruct (_id y =? _id item); [assumption|].
  simpl. constructor; [|apply IH; assumption].
  intros Hin. apply Hy. apply in_app_or in Hin as [Hin|Hin]; apply in_or_app;
    [left; eapply deleteOne_ids_incl; eassumption|right; assumption].
Qed.

(** With distinct keys, an item whose outcome removes it is absent from
    the queue when the run ends. *)
Lemma run_batch_removed : forall batch k st item o,
  NoDup (ids (queue st ++ arrived arrivals k (length batch))) ->
  (forall x, In x batch ->
     ~ In (_id x) (ids (arrived arrivals k (length batch)))) ->
  In (item, o) (snd (run_batch step arrivals k batch st)) ->
  removes o = true ->
  ~ In (_id item) (ids (queue (fst (run_batch step arrivals k batch st)))).
Proof.
  induction batch as [|x rest IH]; intros k st item o Hnd Hfresh Htr Hrem;
    [destruct Htr|].
  rewrite run_batch_cons in *. cbn [fst snd length] in *.
  pose proof (step_NoDup k st x _ Hnd) as Hnd1.
  destruct (step_ok k (Queue_insertMany (arrivals k) st) x) as [Hq _].
  cbn [Queue_insertMany queue] in Hq.
  assert (Hfresh1 : forall z, In z (x :: rest) ->
            ~ In (_id z) (ids (arrived arrivals (S k) (length rest)))).
  { intros z Hz Hin. apply (Hfresh z Hz).
    rewrite arrived_S, ids_app. apply in_or_app. right; exact Hin. }
  destruct Htr as [Heq|Htr].
  - injection Heq as -> Ho. rewrite Ho, Hrem in Hq.
    intros Hfin. unfold ids in Hfin. apply in_map_iff in Hfin as (y & Hy & Hfin).
    apply run_batch_incl in Hfin. apply in_app_or in Hfin as [Hfin|Hfin].
    + rewrite Hq in Hfin.
      apply (deleteOne_removes (_id item) (queue st ++ arrivals k)).
      * rewrite arrived_S, app_assoc, ids_app in Hnd.
        apply NoDup_app_l in Hnd. exact Hnd.
      * rewrite <- Hy. apply in_map. rewrite Hy. exact Hfin.
    + apply (Hfresh1 item (or_introl eq_refl)).
      rewrite <- Hy. apply in_map. exact Hfin.
  - apply IH with (o := o); try assumption.
    intros z Hz. apply Hfresh1. right; exact Hz.
Qed.

(** A document survives the iterations on the other keys. *)
Lemma run_batch_kept : forall batch k st y,
  In y (queue st) ->
  ~ In (_id y) (ids batch) ->
  In y (queue (fst (run_batch step arrivals k batch st))).
Proof.
  induction batch as [|x rest IH]; intros k st y Hy Hout; [exact Hy|].
  rewrite run_batch_cons. cbn [fst]. apply IH.
  - destruct (step_ok k (Queue_insertMany (arrivals k) st) x) as [Hq _].
    rewrite Hq. cbn [Queue_insertMany queue].
    assert (Hy0 : In y (queue st ++ arrivals k))
      by (apply in_or_app; left; exact Hy).
    destruct (removes _); [|exact Hy0].
    apply deleteOne_keeps; [exact Hy0|].
    intros E. apply Hout. left. symmetry; exact E.
  - intros Hin. apply Hout. right; exact Hin.
Qed.

(** An item whose outcome does not remove it is still queued when the
    run ends, the keys of the batch being distinct. *)
Lemma run_batch_retained : forall batch k st item o,
  NoDup (ids batch) ->
  In item (queue st) ->
  In (item, o) (snd (run_batch step arrivals k batch st)) ->
  removes o = false ->
  In item (queue (fst (run_batch step arrivals k batch st))).
Proof.
  induction batch as [|x rest IH]; intros k st item o Hnd Hq Htr Hrem;
    [destruct Htr|].
  rewrite run_batch_cons in *. cbn [fst snd] in *.
  inversion Hnd as [|? ? Hx Hrest]; subst.
  destruct (step_ok k (Queue_insertMany (arrivals k) st) x) as [Hq1 _].
  cbn [Queue_insertMany queue] in Hq1.
  assert (Hq0 : In item (queue st ++ arrivals k))
    by (apply in_or_app; left; exact Hq).
  destruct Htr as [Heq|Htr].
  - injection Heq as -> Ho. rewrite Ho, Hrem in Hq1.
    apply run_batch_kept; [rewrite Hq1; exact Hq0|exact Hx].
  - apply IH with (o := o); try assumption.
    rewrite Hq1.
    destruct (removes (snd (step k (Queue_insertMany (arrivals k) st) x)));
      [|exact Hq0].
    apply deleteOne_keeps; [exact Hq0|].
    intros E. apply Hx. rewrite <- E.
    apply (in_map _id). rewrite <- (run_batch_trace rest (S k)
      (fst (step k (Queue_insertMany (arrivals k) st) x))).
    apply (in_map fst) in Htr. exact Htr.
Qed.

(** Every recorded outcome is that of an iteration run on a store whose
    posts extend the posts at the start. *)
Lemma run_batch_outcome : forall batch k st item o,
  In (item, o) (snd (run_batch step arrivals k batch st)) ->
  exists k' st0 extra,
    posts st0 = posts st ++ extra /\ o = snd (step k' st0 item).
Proof.
  induction batch as [|x rest IH]; intros k st item o Htr; [destruct Htr|].
  rewrite run_batch_cons in Htr. cbn [snd] in Htr.
  destruct Htr as [Heq|Htr].
  - injection Heq as -> Ho.
    exists k, (Queue_insertMany (arrivals k) st), [].
    split; [cbn [Queue_insertMany posts]; rewrite app_nil_r; reflexivity|].
    symmetry; exact Ho.
  - apply IH in Htr as (k' & st0 & extra & Hp & Ho).
    destruct (step_ok k (Queue_insertMany (arrivals k) st) x) as [_ Hp1].
    rewrite Hp1 in Hp. cbn [Queue_insertMany posts] in Hp.
    rewrite <- app_assoc in Hp.
    exists k', st0, (published [(x, snd (step k (Queue_insertMany (arrivals k) st) x))] ++ extra).
    split; assumption.
Qed.

End Batch.

(** ** The batch *)

Lemma insert_by_queuedAt_perm : forall x l,
  Permutation (insert_by_queuedAt x l) (x :: l).
Proof.
  intros x l; induction l as [|y l IH]; simpl; [apply Permutation_refl|].
  destruct (queuedAt x <=? queuedAt y)%N; [apply Permutation_refl|].
  apply perm_trans with (y :: x :: l); [apply perm_skip; exact IH|apply perm_swap].
Qed.

Lemma sort_by_queuedAt_perm : forall l, Permutation (sort_by_queuedAt l) l.
Proof.
  induction l as [|x l IH]; simpl; [apply perm_nil|].
  apply perm_trans with (x :: sort_by_queuedAt l);
    [apply insert_by_queuedAt_perm|apply perm_skip; exact IH].
Qed.

Lemma insert_by_queuedAt_sorted : forall x l,
  StronglySorted older_or_same l ->
  StronglySorted older_or_same (insert_by_queuedAt x l).
Proof.
  intros x l H; induction H as [|y l Hl IH Hy]; simpl.
  - constructor; constructor.
  - destruct (queuedAt x <=? queuedAt y)%N eqn:E.
    + apply N.leb_le in E. constructor; [constructor; assumption|].
      constructor; [exact E|].
      rewrite Forall_forall in *. intros z Hz. specialize (Hy z Hz).
      unfold older_or_same in *. lia.
    + apply N.leb_gt in E. constructor; [exact IH|].
      rewrite Forall_forall in *. intros z Hz.
      apply (Permutation_in _ (insert_by_queuedAt_perm x l)) in Hz.
      destruct Hz as [<-|Hz]; [unfold older_or_same; lia|apply Hy; exact Hz].
Qed.

Lemma sort_by_queuedAt_sorted : forall l,
  StronglySorted older_or_same (sort_by_queuedAt l).
Proof.
  induction l as [|x l IH]; simpl; [constructor|].
  apply insert_by_queuedAt_sorted; exact IH.
Qed.

Lemma StronglySorted_app_older : forall a b,
  StronglySorted older_or_same (a ++ b) ->
  forall x y, In x a -> In y b -> older_or_same x y.
Proof.
  induction a as [|z a IH]; intros b H x y Hx Hy; [destruct Hx|].
  simpl in H. inversion H as [|? ? Hs Hz]; subst.
  destruct Hx as [<-|Hx]; [|apply (IH b Hs); assumption].
  rewrite Forall_forall in Hz. apply Hz. apply in_or_app. right; exact Hy.
Qed.

Lemma select_batch_In : forall st x, In x (select_batch st) -> In x (queue st).
Proof.
  intros st x H. unfold select_batch in H.
  apply (Permutation_in _ (sort_by_queuedAt_perm (queue st))).
  rewrite <- (firstn_skipn 3). apply in_or_app. left; exact H.
Qed.

Lemma select_batch_length : forall st, length (select_batch st) <= 3.
Proof. intros st. unfold select_batch. apply firstn_le_length. Qed.

(** The batch holds the oldest documents of the queue. *)
Lemma select_batch_oldest : forall st,
  exists rest,
    Permutation (queue st) (select_batch st ++ rest)
    /\ forall x y, In x (select_batch st) -> In y rest -> older_or_same x y.
Proof.
  intros st. exists (skipn 3 (sort_by_queuedAt (queue st))). unfold select_batch.
  split.
  - rewrite firstn_skipn. apply Permutation_sym, sort_by_queuedAt_perm.
  - apply StronglySorted_app_older. rewrite firstn_skipn.
    apply sort_by_queuedAt_sorted.
Qed.

Lemma select_batch_NoDup : forall st,
  NoDup (ids (queue st)) -> NoDup (ids (select_batch st)).
Proof.
  intros st H. unfold select_batch, ids.
  assert (Hs : NoDup (map _id (sort_by_queuedAt (queue st)))).
  { eapply Permutation_NoDup; [|exact H].
    apply Permutation_map, Permutation_sym, sort_by_queuedAt_perm. }
  rewrite <- (firstn_skipn 3 (sort_by_queuedAt (queue st))), map_app in Hs.
  apply NoDup_app_l in Hs. exact Hs.
Qed.

Lemma select_batch_fresh : forall st later x,
  NoDup (ids (queue st ++ later)) ->
  In x (select_batch st) -> ~ In (_id x) (ids later).
Proof.
  intros st later x H Hx. rewrite ids_app in H.
  apply (NoDup_app_disjoint _ _ _ _ H).
  apply (in_map _id). apply select_batch_In; exact Hx.
Qed.

(** C10: one drain cycle, in either worker, touches only the documents of
    its batch: at most three documents, the oldest of the queue; the
    documents of every other key, those that arrive while the cycle runs
    included, are in the queue afterwards as they were, in their order. *)
Theorem drain_cycle_frame : forall g gen now arrivals st,
  length (select_batch st) <= 3
  /\ (exists rest,
        Permutation (queue st) (select_batch st ++ rest)
        /\ forall x y, In x (select_batch st) -> In y rest ->
                       (queuedAt x <= queuedAt y)%N)
  /\ filter (outside (select_batch st))
       (queue (fst (worker_cycle g gen now arrivals st)))
     = filter (outside (select_batch st))
         (queue st ++ arrived arrivals 0 (length (select_batch st)))
  /\ filter (outside (select_batch st))
       (queue (fst (processQueueItem g gen now arrivals st)))
     = filter (outside (select_batch st))
         (queue st ++ arrived arrivals 0 (length (select_batch st))).
Proof.
  intros g gen now arrivals st.
  assert (Hout : forall x y, In x (select_batch st) -> _id y = _id x ->
                   outside (select_batch st) y = false).
  { intros x y Hx Hy. unfold outside. apply negb_false_iff.
    apply existsb_exists. exists x. split; [exact Hx|].
    apply Nat.eqb_eq. symmetry; exact Hy. }
  split; [apply select_batch_length|].
  split; [apply select_batch_oldest|].
  split.
  - apply (run_batch_frame _ _ (worker_item_effect g gen now)). exact Hout.
  - apply (run_batch_frame _ _ (processQueueItem_item_effect g gen now)). exact Hout.
Qed.

(** ** Last-mile deduplication *)

Lemma regex_literal_escape : forall x, regex_literal (escapeRegExp x) = x.
Proof.
  induction x as [|c x IH]; [reflexivity|].
  unfold escapeRegExp in *. cbn [flat_map].
  destruct (is_regex_special c) eqn:E.
  - cbn [app regex_literal]. change (Ascii.eqb "\" "\") with true.
    cbn iota. rewrite IH. reflexivity.
  - cbn [app regex_literal].
    destruct (Ascii.eqb c "\") eqn:Eb.
    + apply Ascii.eqb_eq in Eb. subst c. discriminate.
    + rewrite IH. reflexivity.
Qed.

(** The search pattern of the worker matches exactly the stored URLs
    that contain the normalized URL, up to case. *)
Lemma regex_test_escape : forall cleanUrl u,
  regex_test_i (escapeRegExp cleanUrl) u = includes_with eqb_ci cleanUrl u.
Proof. intros. unfold regex_test_i. rewrite regex_literal_escape. reflexivity. Qed.

Lemma last_mile_duplicate_found : forall ps extra item p u,
  truthy_opt (url item) = true ->
  In p ps -> post_url p = Some u ->
  includes_with eqb_ci (normalizeUrl (url item)) u = true ->
  last_mile_duplicate (ps ++ extra) item = Some (normalizeUrl (url item)).
Proof.
  intros ps extra item p u Ht Hp Hu Hinc. unfold last_mile_duplicate.
  rewrite Ht. unfold find_duplicate.
  destruct (find _ (ps ++ extra)) eqn:E; [reflexivity|].
  exfalso. apply find_none with (x := p) in E.
  - rewrite Hu, regex_test_escape, Hinc in E. discriminate.
  - apply in_or_app. left; exact Hp.
Qed.

Lemma worker_item_duplicate : forall g gen now k st item c,
  last_mile_duplicate (posts st) item = Some c ->
  snd (worker_item g gen now k st item) = SkippedDuplicate.
Proof. intros. unfold worker_item. rewrite H. reflexivity. Qed.

Lemma processQueueItem_item_duplicate : forall g gen now k st item c,
  last_mile_duplicate (posts st) item = Some c ->
  snd (processQueueItem_item g gen now k st item) = SkippedDuplicate.
Proof. intros. unfold processQueueItem_item. rewrite H. reflexivity. Qed.

Lemma worker_item_null : forall g gen now k st item,
  g (text item) (url item) = None ->
  snd (worker_item g gen now k st item) = RewriteFailed
  \/ snd (worker_item g gen now k st item) = SkippedDuplicate.
Proof.
  intros. unfold worker_item.
  destruct (last_mile_duplicate _ _); [right; reflexivity|].
  rewrite H. left; reflexivity.
Qed.

Lemma processQueueItem_item_null : forall g gen now k st item,
  g (text item) (url item) = None ->
  snd (processQueueItem_item g gen now k st item) = RewriteFailed
  \/ snd (processQueueItem_item g gen now k st item) = SkippedDuplicate.
Proof.
  intros. unfold processQueueItem_item.
  destruct (last_mile_duplicate _ _); [right; reflexivity|].
  rewrite H. left; reflexivity.
Qed.

(** ** One drain cycle *)

Section Cycle.

Variable removes : Outcome -> bool.
Variable step : nat -> Store -> QueueItem -> Store * Outcome.
Hypothesis step_ok : step_effect removes step.
Variable arrivals : nat -> list QueueItem.
Variable st : Store.
Hypothesis distinct :
  NoDup (ids (queue st ++ arrived arrivals 0 (length (select_batch st)))).

Lemma cycle_trace : map fst (snd (drain_cycle step arrivals st)) = select_batch st.
Proof. apply run_batch_trace. Qed.

Lemma cycle_outcome_exists : forall item,
  In item (select_batch st) ->
  exists o, In (item, o) (snd (drain_cycle step arrivals st)).
Proof.
  intros item H. rewrite <- cycle_trace in H.
  apply in_map_iff in H as ([x o] & E & H). simpl in E. subst x.
  exists o; exact H.
Qed.

Lemma cycle_item_in_batch : forall item o,
  In (item, o) (snd (drain_cycle step arrivals st)) -> In item (select_batch st).
Proof.
  intros item o H. rewrite <- cycle_trace. apply (in_map fst) in H. exact H.
Qed.

Lemma cycle_removed : forall item o,
  In (item, o) (snd (drain_cycle step arrivals st)) ->
  removes o = true ->
  ~ In (_id item) (ids (queue (fst (drain_cycle step arrivals st)))).
Proof.
  intros item o H Hr. unfold drain_cycle in *.
  apply (run_batch_removed removes step step_ok arrivals) with (o := o);
    try assumption.
  intros x Hx. apply (select_batch_fresh st); assumption.
Qed.

Lemma cycle_retained : forall item o,
  In (item, o) (snd (drain_cycle step arrivals st)) ->
  removes o = false ->
  In item (queue (fst (drain_cycle step arrivals st))).
Proof.
  intros item o H Hr. unfold drain_cycle in *.
  apply (run_batch_retained removes step step_ok arrivals) with (o := o);
    try assumption.
  - apply select_batch_NoDup. rewrite ids_app in distinct.
    apply NoDup_app_l in distinct. exact distinct.
  - apply select_batch_In. apply (cycle_item_in_batch item o). exact H.
Qed.

Lemma cycle_posts :
  posts (fst (drain_cycle step arrivals st))
  = posts st ++ published (snd (drain_cycle step arrivals st)).
Proof. apply (run_batch_posts removes step step_ok). Qed.

End Cycle.

(** C1 (as amended): after one drain cycle every item of the batch has an
    outcome; an item that was skipped as a duplicate, published, or whose
    rewrite returned null is absent from the queue; an item whose
    processing threw an error other than a validation failure (a
    duplicate key, for one) is still queued, in both workers; in
    processQueueItem an item whose processing threw a validation failure
    is absent. *)
Theorem drain_cycle_removal : forall g gen now arrivals st,
  NoDup (ids (queue st ++ arrived arrivals 0 (length (select_batch st)))) ->
  (forall item, In item (select_batch st) ->
     exists o, In (item, o) (snd (worker_cycle g gen now arrivals st)))
  /\ (forall item o,
        In (item, o) (snd (worker_cycle g gen now arrivals st)) ->
        match o with
        | Threw message =>
            includes message (lit "validation failed") = false ->
            In item (queue (fst (worker_cycle g gen now arrivals st)))
        | _ =>
            ~ In (_id item)
                (ids (queue (fst (worker_cycle g gen now arrivals st))))
        end)
  /\ (forall item, In item (select_batch st) ->
        exists o, In (item, o) (snd (processQueueItem g gen now arrivals st)))
  /\ (forall item o,
        In (item, o) (snd (processQueueItem g gen now arrivals st)) ->
        match o with
        | Threw message =>
            if includes message (lit "validation failed")
            then ~ In (_id item)
                     (ids (queue (fst (processQueueItem g gen now arrivals st))))
            else In item (queue (fst (processQueueItem g gen now arrivals st)))
        | _ =>
            ~ In (_id item)
                (ids (queue (fst (processQueueItem g gen now arrivals st))))
        end).
Proof.
  intros g gen now arrivals st Hnd.
  pose proof (worker_item_effect g gen now) as Hw.
  pose proof (processQueueItem_item_effect g gen now) as Hp.
  split; [apply cycle_outcome_exists|].
  split.
  - intros item o H. unfold worker_cycle in *.
    destruct o;
      try (apply (cycle_removed _ _ Hw arrivals st Hnd _ _ H); reflexivity).
    intros _. apply (cycle_retained _ _ Hw arrivals st Hnd _ _ H). reflexivity.
  - split; [apply cycle_outcome_exists|].
    intros item o H. unfold processQueueItem in *.
    destruct o;
      try (apply (cycle_removed _ _ Hp arrivals st Hnd _ _ H); reflexivity).
    destruct (includes message (lit "validation failed")) eqn:E.
    + apply (cycle_removed _ _ Hp arrivals st Hnd _ _ H). exact E.
    + apply (cycle_retained _ _ Hp arrivals st Hnd _ _ H). exact E.
Qed.

(** C2: a queue item of the batch that carries a URL whose normalized
    form is contained, up to case, in the URL of a post already in the
    store is skipped as a duplicate by either worker: that is its only
    outcome, it is absent from the queue after the cycle, and the posts
    after the cycle are the old ones and those of the published outcomes. *)
Theorem duplicate_item_is_dropped : forall g gen now arrivals st item p u,
  NoDup (ids (queue st ++ arrived arrivals 0 (length (select_batch st)))) ->
  In item (select_batch st) ->
  truthy_opt (url item) = true ->
  In p (posts st) ->
  post_url p = Some u ->
  includes_with eqb_ci (normalizeUrl (url item)) u = true ->
  (In (item, SkippedDuplicate) (snd (worker_cycle g gen now arrivals st))
   /\ (forall o, In (item, o) (snd (worker_cycle g gen now arrivals st)) ->
                 o = SkippedDuplicate)
   /\ ~ In (_id item) (ids (queue (fst (worker_cycle g gen now arrivals st))))
   /\ posts (fst (worker_cycle g gen now arrivals st))
      = posts st ++ published (snd (worker_cycle g gen now arrivals st)))
  /\ (In (item, SkippedDuplicate) (snd (processQueueItem g gen now arrivals st))
      /\ (forall o, In (item, o) (snd (processQueueItem g gen now arrivals st)) ->
                    o = SkippedDuplicate)
      /\ ~ In (_id item)
             (ids (queue (fst (processQueueItem g gen now arrivals st))))
      /\ posts (fst (processQueueItem g gen now arrivals st))
         = posts st ++ published (snd (processQueueItem g gen now arrivals st))).
Proof.
  intros g gen now arrivals st item p u Hnd Hitem Ht Hp Hu Hinc.
  pose proof (worker_item_effect g gen now) as Hw.
  pose proof (processQueueItem_item_effect g gen now) as Hq.
  assert (Hdup : forall extra,
            last_mile_duplicate (posts st ++ extra) item
            = Some (normalizeUrl (url item)))
    by (intros extra; eapply last_mile_duplicate_found; eassumption).
  split.
  - assert (Honly : forall o,
              In (item, o) (snd (worker_cycle g gen now arrivals st)) ->
              o = SkippedDuplicate).
    { intros o H. apply (run_batch_outcome _ _ Hw) in H
        as (k' & st0 & extra & Hposts & ->).
      eapply worker_item_duplicate. rewrite Hposts. apply Hdup. }
    destruct (cycle_outcome_exists (worker_item g gen now) arrivals st item Hitem)
      as [o Ho].
    pose proof (Honly o Ho) as ->.
    split; [exact Ho|]. split; [exact Honly|].
    split; [|apply (cycle_posts _ _ Hw)].
    apply (cycle_removed _ _ Hw arrivals st Hnd _ _ Ho). reflexivity.
  - assert (Honly : forall o,
              In (item, o) (snd (processQueueItem g gen now arrivals st)) ->
              o = SkippedDuplicate).
    { intros o H. apply (run_batch_outcome _ _ Hq) in H
        as (k' & st0 & extra & Hposts & ->).
      eapply processQueueItem_item_duplicate. rewrite Hposts. apply Hdup. }
    destruct (cycle_outcome_exists (processQueueItem_item g gen now) arrivals st
                item Hitem) as [o Ho].
    pose proof (Honly o Ho) as ->.
    split; [exact Ho|]. split; [exact Honly|].
    split; [|apply (cycle_posts _ _ Hq)].
    apply (cycle_removed _ _ Hq arrivals st Hnd _ _ Ho). reflexivity.
Qed.

Lemma published_others : forall item trace,
  (forall x o, In (x, o) trace -> _id x = _id item -> published [(x, o)] = []) ->
  published (others item trace) = published trace.
Proof.
  intros item trace. induction trace as [|[x o] r IH]; intros H; [reflexivity|].
  assert (Hr : published (others item r) = published r)
    by (apply IH; intros y o' Hin; apply H; right; exact Hin).
  unfold others in *. cbn [filter fst].
  destruct (_id x =? _id item) eqn:E; cbn [negb].
  - apply Nat.eqb_eq in E.
    pose proof (H x o (or_introl eq_refl) E) as Hnone.
    rewrite Hr. destruct o; try reflexivity. discriminate Hnone.
  - destruct o; cbn [published]; rewrite Hr; reflexivity.
Qed.

Lemma same_id_same_item : forall (l : list QueueItem) x y,
  NoDup (ids l) -> In x l -> In y l -> _id x = _id y -> x = y.
Proof.
  induction l as [|a l IH]; intros x y Hnd Hx Hy E; [destruct Hx|].
  unfold ids in Hnd. cbn [map] in Hnd.
  inversion Hnd as [|? ? Ha Hl]; subst.
  destruct Hx as [<-|Hx], Hy as [<-|Hy].
  - reflexivity.
  - exfalso. apply Ha. rewrite E. apply (in_map _id). exact Hy.
  - exfalso. apply Ha. rewrite <- E. apply (in_map _id). exact Hx.
  - apply IH; assumption.
Qed.

(** C3: a queue item of the batch whose rewrite returns null is deleted
    by either worker and no post is created for it: its outcome is the
    failed rewrite (or the duplicate skip, when the rewrite is not
    reached), never a publication; the posts after the cycle are the posts
    before it followed by those published for the other items of the
    batch; the item is absent from the queue after the cycle, so that no
    later cycle retries it. *)
Theorem null_rewrite_is_dropped : forall g gen now arrivals st item,
  NoDup (ids (queue st ++ arrived arrivals 0 (length (select_batch st)))) ->
  In item (select_batch st) ->
  g (text item) (url item) = None ->
  ((exists o, In (item, o) (snd (worker_cycle g gen now arrivals st)))
   /\ (forall o, In (item, o) (snd (worker_cycle g gen now arrivals st)) ->
                 (o = RewriteFailed \/ o = SkippedDuplicate)
                 /\ published [(item, o)] = [])
   /\ posts (fst (worker_cycle g gen now arrivals st))
      = posts st
        ++ published (others item (snd (worker_cycle g gen now arrivals st)))
   /\ ~ In (_id item) (ids (queue (fst (worker_cycle g gen now arrivals st))))
   /\ ~ In item (select_batch (fst (worker_cycle g gen now arrivals st))))
  /\ ((exists o, In (item, o) (snd (processQueueItem g gen now arrivals st)))
      /\ (forall o, In (item, o) (snd (processQueueItem g gen now arrivals st)) ->
                    (o = RewriteFailed \/ o = SkippedDuplicate)
                    /\ published [(item, o)] = [])
      /\ posts (fst (processQueueItem g gen now arrivals st))
         = posts st
           ++ published
                (others item (snd (processQueueItem g gen now arrivals st)))
      /\ ~ In (_id item)
             (ids (queue (fst (processQueueItem g gen now arrivals st))))
      /\ ~ In item (select_batch (fst (processQueueItem g gen now arrivals st)))).
Proof.
  intros g gen now arrivals st item Hnd Hitem Hnull.
  pose proof (worker_item_effect g gen now) as Hw.
  pose proof (processQueueItem_item_effect g gen now) as Hq.
  assert (Hbatch : NoDup (ids (select_batch st))).
  { apply select_batch_NoDup. rewrite ids_app in Hnd.
    apply NoDup_app_l in Hnd. exact Hnd. }
  split.
  - assert (Honly : forall o,
              In (item, o) (snd (worker_cycle g gen now arrivals st)) ->
              (o = RewriteFailed \/ o = SkippedDuplicate)
              /\ published [(item, o)] = []).
    { intros o H. apply (run_batch_outcome _ _ Hw) in H
        as (k' & st0 & extra & _ & ->).
      destruct (worker_item_null g gen now k' st0 item Hnull) as [-> | ->];
        split; auto. }
    destruct (cycle_outcome_exists (worker_item g gen now) arrivals st item Hitem)
      as [o Ho].
    assert (Hgone : ~ In (_id item)
              (ids (queue (fst (worker_cycle g gen now arrivals st))))).
    { apply (cycle_removed _ _ Hw arrivals st Hnd _ _ Ho).
      destruct (Honly o Ho) as [[-> | ->] _]; reflexivity. }
    split; [exists o; exact Ho|]. split; [exact Honly|].
    split.
    { rewrite published_others; [apply (cycle_posts _ _ Hw)|].
      intros x o' Hin E.
      assert (x = item) as ->.
      { apply (same_id_same_item (select_batch st)); try assumption.
        apply (cycle_item_in_batch (worker_item g gen now) arrivals st x o').
        exact Hin. }
      apply Honly. exact Hin. }
    split; [exact Hgone|].
    intros Hsel. apply Hgone. apply (in_map _id). apply select_batch_In. exact Hsel.
  - assert (Honly : forall o,
              In (item, o) (snd (processQueueItem g gen now arrivals st)) ->
              (o = RewriteFailed \/ o = SkippedDuplicate)
              /\ published [(item, o)] = []).
    { intros o H. apply (run_batch_outcome _ _ Hq) in H
        as (k' & st0 & extra & _ & ->).
      destruct (processQueueItem_item_null g gen now k' st0 item Hnull)
        as [-> | ->]; split; auto. }
    destruct (cycle_outcome_exists (processQueueItem_item g gen now) arrivals st
                item Hitem) as [o Ho].
    assert (Hgone : ~ In (_id item)
              (ids (queue (fst (processQueueItem g gen now arrivals st))))).
    { apply (cycle_removed _ _ Hq arrivals st Hnd _ _ Ho).
      destruct (Honly o Ho) as [[-> | ->] _]; reflexivity. }
    split; [exists o; exact Ho|]. split; [exact Honly|].
    split.
    { rewrite published_others; [apply (cycle_posts _ _ Hq)|].
      intros x o' Hin E.
      assert (x = item) as ->.
      { apply (same_id_same_item (select_batch st)); try assumption.
        apply (cycle_item_in_batch (processQueueItem_item g gen now) arrivals
                 st x o').
        exact Hin. }
      apply Honly. exact Hin. }
    split; [exact Hgone|].
    intros Hsel. apply Hgone. apply (in_map _id). apply select_batch_In. exact Hsel.
Qed.

(** ** The image-search slug *)

Lemma derive_slug_choice : forall fallback d item,
  derive_slug fallback d item = slug_choice fallback (slug_en d) (url item).
Proof.
  intros fallback d item. unfold derive_slug, slug_choice.
  destruct (slug_en d) as [v|].
  - destruct (3 <=? length v) eqn:E.
    + apply Nat.leb_le in E.
      assert (Hlt : (length v <? 3) = false) by (apply Nat.ltb_ge; exact E).
      destruct v as [|c v]; [simpl in E; lia|].
      cbn [truthy negb orb]. rewrite Hlt. reflexivity.
    + apply Nat.leb_gt in E.
      assert (Hlt : (length v <? 3) = true) by (apply Nat.ltb_lt; exact E).
      rewrite Hlt, orb_true_r.
      destruct (truthy (extractSlugFromUrl (url item))); reflexivity.
  - destruct (truthy (extractSlugFromUrl (url item))); reflexivity.
Qed.

Lemma extractSlugFromUrl_falsy : forall u,
  truthy_opt u = false -> extractSlugFromUrl u = [].
Proof. intros [[|c u]|] H; [reflexivity|discriminate|reflexivity]. Qed.

Lemma worker_item_published : forall g gen now k st item p,
  snd (worker_item g gen now k st item) = Published p ->
  exists d, g (text item) (url item) = Some d
            /\ p = worker_newPost gen now k item d.
Proof.
  intros g gen now k st item p. unfold worker_item.
  destruct (last_mile_duplicate _ _); [discriminate|].
  destruct (g (text item) (url item)) as [d|]; [|discriminate].
  destruct (Post_save _ _); [discriminate|].
  simpl. intros E; injection E as <-. exists d. split; reflexivity.
Qed.

Lemma processQueueItem_item_published : forall g gen now k st item p,
  snd (processQueueItem_item g gen now k st item) = Published p ->
  exists d, g (text item) (url item) = Some d
            /\ p = processQueueItem_newPost gen now k item d.
Proof.
  intros g gen now k st item p. unfold processQueueItem_item.
  destruct (last_mile_duplicate _ _); [discriminate|].
  destruct (g (text item) (url item)) as [d|]; [|discriminate].
  destruct (Post_save _ _) as [m|ps].
  - destruct (includes m _); discriminate.
  - simpl. intros E; injection E as <-. exists d. split; reflexivity.
Qed.

Lemma worker_newPost_slug : forall gen now k item d,
  imageSearchSlug (worker_newPost gen now k item d)
  = slug_choice (lit "latest-telugu-news") (slug_en d) (url item)
  /\ categories (worker_newPost gen now k item d)
     = [or_else (g_category d) (lit "General")].
Proof.
  intros. unfold worker_newPost. destruct (derive_video item).
  cbn [imageSearchSlug categories]. rewrite derive_slug_choice. split; reflexivity.
Qed.

Lemma processQueueItem_newPost_slug : forall gen now k item d,
  imageSearchSlug (processQueueItem_newPost gen now k item d)
  = slug_choice (lit "latest-news") (slug_en d) (url item)
  /\ categories (processQueueItem_newPost gen now k item d)
     = [or_else (g_category d) (lit "General")].
Proof.
  intros. unfold processQueueItem_newPost. destruct (derive_video item).
  cbn [imageSearchSlug categories]. rewrite derive_slug_choice. split; reflexivity.
Qed.

(** C9 (as amended): the post a worker publishes for an item carries the
    slug of the engine when it has at least three characters, else the slug
    extracted from the URL of the item, else the fallback of that worker:
    "latest-telugu-news" in server.js and index.js, "latest-news" in
    processQueueItem; its categories are the category of the engine, or
    "General".  An item without URL and an engine slug that is empty give
    the fallback. *)
Theorem published_slug : forall g gen now arrivals st item p,
  (In (item, Published p) (snd (worker_cycle g gen now arrivals st)) ->
   exists d,
     g (text item) (url item) = Some d
     /\ imageSearchSlug p
        = slug_choice (lit "latest-telugu-news") (slug_en d) (url item)
     /\ categories p = [or_else (g_category d) (lit "General")]
     /\ (truthy_opt (url item) = false -> truthy_opt (slug_en d) = false ->
         imageSearchSlug p = lit "latest-telugu-news")
     /\ (g_category d = None -> categories p = [lit "General"]))
  /\ (In (item, Published p) (snd (processQueueItem g gen now arrivals st)) ->
      exists d,
        g (text item) (url item) = Some d
        /\ imageSearchSlug p
           = slug_choice (lit "latest-news") (slug_en d) (url item)
        /\ categories p = [or_else (g_category d) (lit "General")]
        /\ (truthy_opt (url item) = false -> truthy_opt (slug_en d) = false ->
            imageSearchSlug p = lit "latest-news")
        /\ (g_category d = None -> categories p = [lit "General"])).
Proof.
  intros g gen now arrivals st item p.
  assert (Hfallback : forall fallback (d : GeminiData),
            truthy_opt (url item) = false -> truthy_opt (slug_en d) = false ->
            slug_choice fallback (slug_en d) (url item) = fallback).
  { intros fallback d Hu Hs. unfold slug_choice.
    rewrite (extractSlugFromUrl_falsy _ Hu). cbn [truthy].
    destruct (slug_en d) as [[|c v]|]; [reflexivity|discriminate|reflexivity]. }
  split; intros H.
  - apply (run_batch_outcome _ _ (worker_item_effect g gen now)) in H
      as (k' & st0 & extra & _ & Ho).
    symmetry in Ho. apply worker_item_published in Ho as (d & Hg & ->).
    destruct (worker_newPost_slug gen now k' item d) as [Hs Hc].
    exists d. split; [exact Hg|]. split; [exact Hs|]. split; [exact Hc|].
    split.
    + intros Hu Hd. rewrite Hs. apply Hfallback; assumption.
    + intros Hn. rewrite Hc, Hn. reflexivity.
  - apply (run_batch_outcome _ _ (processQueueItem_item_effect g gen now)) in H
      as (k' & st0 & extra & _ & Ho).
    symmetry in Ho. apply processQueueItem_item_published in Ho as (d & Hg & ->).
    destruct (processQueueItem_newPost_slug gen now k' item d) as [Hs Hc].
    exists d. split; [exact Hg|]. split; [exact Hs|]. split; [exact Hc|].
    split.
    + intros Hu Hd. rewrite Hs. apply Hfallback; assumption.
    + intros Hn. rewrite Hc, Hn. reflexivity.
Qed.

(** ** The best rating *)

Lemma Qgtb_true : forall a b, Qgtb a b = true <-> (b < a)%Q.
Proof.
  intros a b. unfold Qgtb. rewrite negb_true_iff. split.
  - intros H. apply Qnot_le_lt. intros Hle.
    apply Qle_bool_iff in Hle. congruence.
  - intros H. destruct (Qle_bool a b) eqn:E; [|reflexivity].
    apply Qle_bool_iff in E. exfalso. apply (Qlt_not_le _ _ H E).
Qed.

Lemma Qgtb_false : forall a b, Qgtb a b = false <-> (a <= b)%Q.
Proof.
  intros a b. unfold Qgtb. rewrite negb_false_iff. apply Qle_bool_iff.
Qed.

Lemma better_ge_best : forall m best t, (best <= better m best t)%Q.
Proof.
  intros m best t. unfold better.
  destruct (Qgtb (compareTwoStrings m t) best) eqn:E; [|apply Qle_refl].
  apply Qlt_le_weak, Qgtb_true; exact E.
Qed.

Lemma better_ge_rating : forall m best t,
  (compareTwoStrings m t <= better m best t)%Q.
Proof.
  intros m best t. unfold better.
  destruct (Qgtb (compareTwoStrings m t) best) eqn:E; [apply Qle_refl|].
  apply Qgtb_false; exact E.
Qed.

Lemma fold_better_ge_best : forall m l best,
  (best <= fold_left (better m) l best)%Q.
Proof.
  intros m l; induction l as [|t l IH]; intros best; simpl; [apply Qle_refl|].
  eapply Qle_trans; [apply (better_ge_best m best t)|apply IH].
Qed.

Lemma fold_better_ge_rating : forall m l best t,
  In t l -> (compareTwoStrings m t <= fold_left (better m) l best)%Q.
Proof.
  intros m l; induction l as [|x l IH]; intros best t Hin; [destruct Hin|].
  simpl. destruct Hin as [->|Hin]; [|apply IH; exact Hin].
  eapply Qle_trans; [apply (better_ge_rating m best t)|apply fold_better_ge_best].
Qed.

Lemma fold_better_le : forall m l best bound,
  (best <= bound)%Q ->
  (forall t, In t l -> (compareTwoStrings m t <= bound)%Q) ->
  (fold_left (better m) l best <= bound)%Q.
Proof.
  intros m l; induction l as [|x l IH]; intros best bound Hb Hl; simpl;
    [exact Hb|].
  apply IH.
  - unfold better. destruct (Qgtb _ _); [apply Hl; left; reflexivity|exact Hb].
  - intros t Ht. apply Hl. right; exact Ht.
Qed.

Lemma bestMatchRating_fold : forall m t0 l,
  bestMatchRating m (t0 :: l)
  = Some (fold_left (better m) (t0 :: l) (compareTwoStrings m t0)).
Proof. reflexivity. Qed.

(** A title on the list above the threshold makes the entry a duplicate. *)
Lemma title_duplicate_above : forall mem item t,
  In t (existingTitles mem) ->
  (SIMILARITY_THRESHOLD < compareTwoStrings (item_title item) t)%Q ->
  title_duplicate mem item = true.
Proof.
  intros mem item t Hin Hlt. unfold title_duplicate.
  destruct (existingTitles mem) as [|t0 l] eqn:E; [destruct Hin|].
  cbn [length Nat.ltb Nat.leb]. rewrite bestMatchRating_fold.
  apply Qgtb_true. eapply Qlt_le_trans; [exact Hlt|].
  apply fold_better_ge_rating. exact Hin.
Qed.

(** No title on the list above the threshold: not a duplicate. *)
Lemma title_duplicate_below : forall mem item,
  (forall t, In t (existingTitles mem) ->
     (compareTwoStrings (item_title item) t <= SIMILARITY_THRESHOLD)%Q) ->
  title_duplicate mem item = false.
Proof.
  intros mem item Hall. unfold title_duplicate.
  destruct (existingTitles mem) as [|t0 l] eqn:E; [reflexivity|].
  cbn [length Nat.ltb Nat.leb]. rewrite bestMatchRating_fold.
  apply Qgtb_false. apply fold_better_le.
  - apply Hall. left; reflexivity.
  - exact Hall.
Qed.

(** ** One fetch cycle *)

Section FetchCycle.

Variable parseURL : str -> option (list FeedItem).
Variable newObjectId : nat -> nat.
Variable ObjectId_toString : nat -> str.
Variable now : N.

Local Abbreviation item_step := (fetch_item newObjectId ObjectId_toString now).
Local Abbreviation items_loop := (fetch_items newObjectId ObjectId_toString now).
Local Abbreviation feeds_loop := (fetch_feeds parseURL newObjectId ObjectId_toString now).

Lemma fetch_items_cons : forall f item rest state,
  items_loop f (item :: rest) state
  = (fst (items_loop f rest (fst (item_step f state item))),
     (item, snd (item_step f state item))
     :: snd (items_loop f rest (fst (item_step f state item)))).
Proof.
  intros f item rest state. simpl.
  destruct (item_step f state item) as [s1 d]. cbn [fst snd].
  destruct (items_loop f rest s1) as [s2 tr]. reflexivity.
Qed.

Lemma fetch_feeds_cons : forall f rest state,
  feeds_loop (f :: rest) state
  = (fst (feeds_loop rest
            (fst (fetch_feed parseURL newObjectId ObjectId_toString now f state))),
     snd (fetch_feed parseURL newObjectId ObjectId_toString now f state)
     ++ snd (feeds_loop rest
               (fst (fetch_feed parseURL newObjectId ObjectId_toString now f state)))).
Proof.
  intros f rest state. simpl.
  destruct (fetch_feed parseURL newObjectId ObjectId_toString now f state)
    as [s1 t1]. cbn [fst snd].
  destruct (feeds_loop rest s1) as [s2 t2]. reflexivity.
Qed.

(** The comparison titles only grow, and an enqueued entry adds its own. *)
Lemma fetch_item_titles : forall f state item t,
  In t (existingTitles (snd state)) ->
  In t (existingTitles (snd (fst (item_step f state item)))).
Proof.
  intros f [st mem] item t H. unfold fetch_item.
  destruct (set_has _ _); [exact H|].
  destruct (title_duplicate _ _); [exact H|].
  cbn [fst snd existingTitles]. apply in_or_app. left; exact H.
Qed.

Lemma fetch_item_enqueued : forall f state item,
  snd (item_step f state item) = Enqueued ->
  In (item_title item) (existingTitles (snd (fst (item_step f state item)))).
Proof.
  intros f [st mem] item. unfold fetch_item.
  destruct (set_has _ _); [discriminate|].
  destruct (title_duplicate _ _); [discriminate|].
  intros _. cbn [fst snd existingTitles]. apply in_or_app. right. left; reflexivity.
Qed.

Lemma fetch_item_skips : forall f state item t,
  In t (existingTitles (snd state)) ->
  (SIMILARITY_THRESHOLD < compareTwoStrings (item_title item) t)%Q ->
  snd (item_step f state item) = SkippedUrl
  \/ snd (item_step f state item) = SkippedTitle.
Proof.
  intros f [st mem] item t Hin Hlt. unfold fetch_item.
  destruct (set_has _ _); [left; reflexivity|].
  cbn [snd] in Hin. rewrite (title_duplicate_above mem item t Hin Hlt).
  right; reflexivity.
Qed.

Lemma fetch_items_titles : forall f items state t,
  In t (existingTitles (snd state)) ->
  In t (existingTitles (snd (fst (items_loop f items state))))
  /\ skips_similar t (snd (items_loop f items state)).
Proof.
  intros f items; induction items as [|item rest IH]; intros state t H.
  - split; [exact H|]. intros e d [].
  - rewrite fetch_items_cons. cbn [fst snd].
    destruct (IH _ t (fetch_item_titles f state item t H)) as [Ht Hs].
    split; [exact Ht|].
    intros e d [Heq|Hin] Hlt; [|apply (Hs e d Hin Hlt)].
    injection Heq as <- <-. apply (fetch_item_skips f state item t H Hlt).
Qed.

Lemma fetch_feed_titles : forall f state t,
  In t (existingTitles (snd state)) ->
  In t (existingTitles
          (snd (fst (fetch_feed parseURL newObjectId ObjectId_toString now f state))))
  /\ skips_similar t
       (snd (fetch_feed parseURL newObjectId ObjectId_toString now f state)).
Proof.
  intros f state t H. unfold fetch_feed.
  destruct (parseURL (feed_url f)) as [items|].
  - apply fetch_items_titles; exact H.
  - split; [exact H|]. intros e d [].
Qed.

Lemma fetch_feeds_titles : forall feeds state t,
  In t (existingTitles (snd state)) ->
  In t (existingTitles (snd (fst (feeds_loop feeds state))))
  /\ skips_similar t (snd (feeds_loop feeds state)).
Proof.
  induction feeds as [|f rest IH]; intros state t H.
  - split; [exact H|]. intros e d [].
  - rewrite fetch_feeds_cons. cbn [fst snd].
    destruct (fetch_feed_titles f state t H) as [H1 S1].
    destruct (IH _ t H1) as [H2 S2].
    split; [exact H2|].
    intros e d Hin Hlt. apply in_app_or in Hin as [Hin|Hin];
      [apply (S1 e d Hin Hlt)|apply (S2 e d Hin Hlt)].
Qed.

(** After an enqueued entry, the rest of the trace skips what is similar
    to it. *)
Lemma fetch_items_after : forall f items state t1 e1 rest,
  snd (items_loop f items state) = t1 ++ (e1, Enqueued) :: rest ->
  In (item_title e1) (existingTitles (snd (fst (items_loop f items state))))
  /\ skips_similar (item_title e1) rest.
Proof.
  intros f items; induction items as [|item more IH]; intros state t1 e1 rest H.
  - destruct t1; discriminate H.
  - rewrite fetch_items_cons in *. cbn [fst snd] in *.
    destruct t1 as [|x t1]; simpl in H.
    + injection H as <- Hd Hrest.
      pose proof (fetch_item_enqueued f state item Hd) as Hin.
      rewrite <- Hrest. apply fetch_items_titles; exact Hin.
    + injection H as _ H. apply (IH _ _ _ _ H).
Qed.

Lemma fetch_feed_after : forall f state t1 e1 rest,
  snd (fetch_feed parseURL newObjectId ObjectId_toString now f state)
  = t1 ++ (e1, Enqueued) :: rest ->
  In (item_title e1)
    (existingTitles
       (snd (fst (fetch_feed parseURL newObjectId ObjectId_toString now f state))))
  /\ skips_similar (item_title e1) rest.
Proof.
  intros f state t1 e1 rest. unfold fetch_feed.
  destruct (parseURL (feed_url f)) as [items|].
  - apply fetch_items_after.
  - intros H. destruct t1; discriminate H.
Qed.

Lemma app_eq_split : forall (A : Type) (a b c d : list A) (x : A),
  a ++ b = c ++ x :: d ->
  (exists r, a = c ++ x :: r /\ d = r ++ b)
  \/ (exists r, c = a ++ r /\ b = r ++ x :: d).
Proof.
  intros A a; induction a as [|y a IH]; intros b c d x H.
  - right. exists c. split; [reflexivity|exact H].
  - destruct c as [|z c]; simpl in H.
    + injection H as -> <-. left. exists a. split; reflexivity.
    + injection H as -> H. destruct (IH _ _ _ _ H) as [(r & -> & ->)|(r & -> & ->)].
      * left. exists r. split; reflexivity.
      * right. exists r. split; reflexivity.
Qed.

Lemma fetch_feeds_after : forall feeds state t1 e1 rest,
  snd (feeds_loop feeds state) = t1 ++ (e1, Enqueued) :: rest ->
  skips_similar (item_title e1) rest.
Proof.
  induction feeds as [|f more IH]; intros state t1 e1 rest H.
  - destruct t1; discriminate H.
  - rewrite fetch_feeds_cons in H. cbn [snd] in H.
    apply app_eq_split in H as [(r & Hhere & ->)|(r & -> & Hlater)].
    + destruct (fetch_feed_after f state t1 e1 r Hhere) as [Hin Hs].
      destruct (fetch_feeds_titles more _ _ Hin) as [_ Hs'].
      intros e d Hed Hlt. apply in_app_or in Hed as [Hed|Hed];
        [apply (Hs e d Hed Hlt)|apply (Hs' e d Hed Hlt)].
    + apply (IH _ _ _ _ Hlater).
Qed.

End FetchCycle.

(** C6 (as amended): in one fetch cycle, an entry met after an entry that
    was enqueued, and whose title is rated above 0.65 against the title of
    that entry, is skipped; and an entry whose normalized link is not in
    the set of URLs and whose title is rated at most 0.65 against every
    title on the list is enqueued, its title and normalized link being
    added to the comparison sets at once. *)
Theorem near_duplicate_skipped :
  forall parseURL newObjectId ObjectId_toString now,
  (forall feeds st t1 e1 t2 e2 d2 t3,
     fetch_trace parseURL newObjectId ObjectId_toString now feeds st
     = t1 ++ (e1, Enqueued) :: t2 ++ (e2, d2) :: t3 ->
     (SIMILARITY_THRESHOLD
      < compareTwoStrings (item_title e2) (item_title e1))%Q ->
     d2 = SkippedUrl \/ d2 = SkippedTitle)
  /\ (forall feedSource st mem item,
        set_has (existingUrls mem) (normalizeUrl (link item)) = false ->
        (forall t, In t (existingTitles mem) ->
           (compareTwoStrings (item_title item) t <= SIMILARITY_THRESHOLD)%Q) ->
        snd (fetch_item newObjectId ObjectId_toString now feedSource (st, mem) item)
        = Enqueued
        /\ In (item_title item)
             (existingTitles
                (snd (fst (fetch_item newObjectId ObjectId_toString now
                             feedSource (st, mem) item))))
        /\ set_has
             (existingUrls
                (snd (fst (fetch_item newObjectId ObjectId_toString now
                             feedSource (st, mem) item))))
             (normalizeUrl (link item)) = true).
Proof.
  intros parseURL newObjectId ObjectId_toString now. split.
  - intros feeds st t1 e1 t2 e2 d2 t3 Htrace Hlt. unfold fetch_trace in Htrace.
    apply fetch_feeds_after in Htrace.
    apply (Htrace e2 d2); [|exact Hlt].
    apply in_or_app. right. left; reflexivity.
  - intros feedSource st mem item Hurl Htitles. unfold fetch_item.
    rewrite Hurl, (title_duplicate_below mem item Htitles).
    cbn [fst snd existingTitles existingUrls].
    split; [reflexivity|]. split.
    + apply in_or_app. right. left; reflexivity.
    + unfold set_has. rewrite existsb_app. cbn [existsb].
      unfold str_eqb at 2.
      destruct (str_eq_dec _ _) as [_|Hne]; [|congruence].
      rewrite orb_true_r. reflexivity.
Qed.

(** ** The fetch lock *)

Lemma fetch_step_consistent : forall p e q,
  lock_consistent p -> fetch_step p e q -> lock_consistent q.
Proof.
  intros p e q Hp Hstep. unfold lock_consistent in *.
  destruct Hstep as [p Hf|p Hf|p item Hpos|p Hpos|p st]; cbn; try assumption.
  - rewrite Hf in Hp. rewrite Hp. reflexivity.
  - destruct (isRSSFetching p); [rewrite Hp; reflexivity|lia].
Qed.

Lemma fetch_run_consistent : forall p es q,
  fetch_run p es q -> lock_consistent p -> lock_consistent q.
Proof.
  intros p es q Hrun; induction Hrun as [p|p e q es r Hstep Hrun IH];
    intros Hp; [exact Hp|].
  apply IH. eapply fetch_step_consistent; eassumption.
Qed.

Lemma fetch_run_app : forall p es q fs r,
  fetch_run p es q -> fetch_run q fs r -> fetch_run p (es ++ fs) r.
Proof.
  intros p es q fs r H; induction H as [p|p e q es r' Hstep Hrun IH]; intros H2;
    [exact H2|].
  simpl. econstructor; [exact Hstep|apply IH; exact H2].
Qed.

Lemma Queue_insertMany_app : forall a b st,
  Queue_insertMany b (Queue_insertMany a st) = Queue_insertMany (a ++ b) st.
Proof.
  intros a b st. unfold Queue_insertMany. cbn [queue posts].
  rewrite app_assoc. reflexivity.
Qed.

Lemma Queue_insertMany_nil : forall st, Queue_insertMany [] st = st.
Proof.
  intros [q ps]. unfold Queue_insertMany. cbn [queue posts].
  rewrite app_nil_r. reflexivity.
Qed.

(** An invocation in flight saves documents one by one. *)
Lemma fetch_run_saved : forall items flag n st,
  0 < n ->
  fetch_run (mkProcess flag n st) (map Saved items)
    (mkProcess flag n (Queue_insertMany items st)).
Proof.
  induction items as [|item rest IH]; intros flag n st Hn.
  - rewrite Queue_insertMany_nil. constructor.
  - simpl. econstructor.
    + apply (step_saved (mkProcess flag n st) item). exact Hn.
    + cbn [isRSSFetching in_flight store].
      change (item :: rest) with ([item] ++ rest).
      rewrite <- Queue_insertMany_app. apply IH. exact Hn.
Qed.

Section FetchStore.

Variable parseURL : str -> option (list FeedItem).
Variable newObjectId : nat -> nat.
Variable ObjectId_toString : nat -> str.
Variable now : N.

(** A cycle changes the store by the documents it saves. *)
Lemma fetch_item_store : forall f st mem item,
  exists saved,
    fst (fst (fetch_item newObjectId ObjectId_toString now f (st, mem) item))
    = Queue_insertMany saved st.
Proof.
  intros f st mem item. unfold fetch_item.
  destruct (set_has _ _);
    [exists []; rewrite Queue_insertMany_nil; reflexivity|].
  destruct (title_duplicate _ _);
    [exists []; rewrite Queue_insertMany_nil; reflexivity|].
  eexists. reflexivity.
Qed.

Lemma fetch_items_store : forall f items st mem,
  exists saved,
    fst (fst (fetch_items newObjectId ObjectId_toString now f items (st, mem)))
    = Queue_insertMany saved st.
Proof.
  intros f items; induction items as [|item rest IH]; intros st mem.
  - exists []. rewrite Queue_insertMany_nil. reflexivity.
  - rewrite fetch_items_cons. cbn [fst].
    destruct (fetch_item_store f st mem item) as [s1 H1].
    destruct (fetch_item newObjectId ObjectId_toString now f (st, mem) item)
      as [[st1 mem1] d]. cbn [fst] in *. subst st1.
    destruct (IH (Queue_insertMany s1 st) mem1) as [s2 H2].
    exists (s1 ++ s2). rewrite H2. apply Queue_insertMany_app.
Qed.

Lemma fetch_feeds_store : forall feeds st mem,
  exists saved,
    fst (fst (fetch_feeds parseURL newObjectId ObjectId_toString now feeds (st, mem)))
    = Queue_insertMany saved st.
Proof.
  induction feeds as [|f rest IH]; intros st mem.
  - exists []. rewrite Queue_insertMany_nil. reflexivity.
  - rewrite fetch_feeds_cons. cbn [fst].
    assert (H1 : exists s1,
              fst (fst (fetch_feed parseURL newObjectId ObjectId_toString now f
                          (st, mem))) = Queue_insertMany s1 st).
    { unfold fetch_feed. destruct (parseURL (feed_url f)) as [items|].
      - apply fetch_items_store.
      - exists []. rewrite Queue_insertMany_nil. reflexivity. }
    destruct H1 as [s1 H1].
    destruct (fetch_feed parseURL newObjectId ObjectId_toString now f (st, mem))
      as [[st1 mem1] t1]. cbn [fst] in *. subst st1.
    destruct (IH (Queue_insertMany s1 st) mem1) as [s2 H2].
    exists (s1 ++ s2). rewrite H2. apply Queue_insertMany_app.
Qed.

(** An unguarded call of [fetchAndQueueRSS] is a run of the interleaving
    semantics: it enters, saves its documents and finishes. *)
Lemma fetchAndQueueRSS_run : forall feeds p,
  isRSSFetching p = false ->
  exists saved,
    fetch_run p (Entered :: map Saved saved ++ [Finished])
      (fst (fetchAndQueueRSS parseURL newObjectId ObjectId_toString now feeds p)).
Proof.
  intros feeds [flag n st] Hflag. cbn [isRSSFetching] in Hflag. subst flag.
  unfold fetchAndQueueRSS. cbn [isRSSFetching store in_flight].
  destruct (fetch_feeds_store feeds st (initial_memory now st)) as [saved Hs].
  destruct (fetch_feeds parseURL newObjectId ObjectId_toString now feeds
              (st, initial_memory now st)) as [state tr].
  cbn [fst] in *. rewrite Hs. exists saved.
  econstructor; [apply step_entered; reflexivity|].
  cbn [in_flight store].
  eapply fetch_run_app; [apply fetch_run_saved; lia|].
  econstructor; [|constructor].
  apply (step_finished (mkProcess true (S n) (Queue_insertMany saved st))).
  cbn. lia.
Qed.

End FetchStore.

(** C4: an invocation of the fetch cycle made while the flag is set
    returns 0 and leaves the process, hence the queue, unchanged; at every
    moment of every execution from start-up at most one invocation is in
    flight, and one is exactly when the flag is set; while the flag is set
    no invocation enters; an invocation made while the flag is clear is
    such an execution: it enters, saves its documents and finishes. *)
Theorem fetch_cycle_guard :
  (forall parseURL newObjectId ObjectId_toString now feeds p,
     isRSSFetching p = true ->
     fetchAndQueueRSS parseURL newObjectId ObjectId_toString now feeds p = (p, 0))
  /\ (forall st0 events p,
        fetch_run (initial_process st0) events p ->
        in_flight p <= 1 /\ (isRSSFetching p = true <-> in_flight p = 1))
  /\ (forall p e q,
        isRSSFetching p = true -> fetch_step p e q ->
        e <> Entered /\ (forall n, e = Guarded n -> n = 0 /\ q = p))
  /\ (forall parseURL newObjectId ObjectId_toString now feeds p,
        isRSSFetching p = false ->
        exists saved,
          fetch_run p (Entered :: map Saved saved ++ [Finished])
            (fst (fetchAndQueueRSS parseURL newObjectId ObjectId_toString now
                    feeds p))).
Proof.
  split; [|split; [|split]]; [| | |intros; apply fetchAndQueueRSS_run; assumption].
  - intros parseURL newObjectId ObjectId_toString now feeds p H.
    unfold fetchAndQueueRSS. rewrite H. reflexivity.
  - intros st0 events p Hrun.
    assert (Hc : lock_consistent p)
      by (apply (fetch_run_consistent _ _ _ Hrun); reflexivity).
    unfold lock_consistent in Hc.
    destruct (isRSSFetching p); rewrite Hc; split; try lia;
      split; intros; congruence.
  - intros p e q Hflag Hstep.
    destruct Hstep as [p _|p Hf|p item Hpos|p Hpos|p st].
    + split; [discriminate|]. intros n E. injection E as <-. split; reflexivity.
    + congruence.
    + split; [discriminate|]. intros n E. discriminate E.
    + split; [discriminate|]. intros n E. discriminate E.
    + split; [discriminate|]. intros n E. discriminate E.
Qed.

(** ** POST /api/add-content-to-queue *)

Section Handlers.

Variable newObjectId : nat.
Variable ObjectId_toString : nat -> str.
Variable now : N.

Lemma create_and_answer_ok : forall st doc,
  queue_doc_valid doc = true ->
  existsb (fun q => str_eqb (id q) (id doc)) (queue st) = false ->
  create_and_answer st doc
  = (Queue_insertMany [doc] st, mkResponse 200 true (Some (id doc)) None).
Proof.
  intros st doc Hv Hu. unfold create_and_answer, Queue_create.
  rewrite Hv, Hu. reflexivity.
Qed.

(** index.js and the queue controller: a body with content or url and a
    fresh, non-empty ObjectId give one new document and success; a body
    with neither is answered 400 and nothing is enqueued. *)
Lemma add_content_to_queue_index_ok : forall body st,
  truthy (ObjectId_toString newObjectId) = true ->
  existsb (fun q => str_eqb (id q) (ObjectId_toString newObjectId)) (queue st)
  = false ->
  if no_content_or_url body
  then add_content_to_queue_index newObjectId ObjectId_toString now body st
       = (st, answer_400)
  else enqueues_one
         (add_content_to_queue_index newObjectId ObjectId_toString now) body st.
Proof.
  intros body st Hid Hfresh. unfold enqueues_one, add_content_to_queue_index.
  destruct (no_content_or_url body); [reflexivity|].
  rewrite create_and_answer_ok.
  - eexists. repeat split.
  - unfold queue_doc_valid, content_queue_item. cbn [id relatedStories forallb].
    rewrite Hid. reflexivity.
  - exact Hfresh.
Qed.

Lemma addUrlToQueue_ok : forall body st,
  truthy (ObjectId_toString newObjectId) = true ->
  existsb (fun q => str_eqb (id q) (ObjectId_toString newObjectId)) (queue st)
  = false ->
  if no_content_or_url body
  then addUrlToQueue newObjectId ObjectId_toString now body st = (st, answer_400)
  else enqueues_one (addUrlToQueue newObjectId ObjectId_toString now) body st.
Proof. exact add_content_to_queue_index_ok. Qed.

(** server.js, line 4952: the same, the related stories of the body
    having their titles. *)
Lemma add_content_to_queue_4952_ok : forall body st,
  truthy (ObjectId_toString newObjectId) = true ->
  existsb (fun q => str_eqb (id q) (ObjectId_toString newObjectId)) (queue st)
  = false ->
  forallb (fun r => truthy_opt (story_title r))
    (match b_relatedStories body with Some l => l | None => [] end) = true ->
  if no_content_or_url body
  then add_content_to_queue_4952 newObjectId ObjectId_toString now body st
       = (st, answer_400)
  else enqueues_one
         (add_content_to_queue_4952 newObjectId ObjectId_toString now) body st.
Proof.
  intros body st Hid Hfresh Hstories.
  unfold enqueues_one, add_content_to_queue_4952.
  destruct (no_content_or_url body); [reflexivity|].
  cbn [resolve existsb String.eqb Ascii.eqb Bool.eqb orb andb].
  change (resolve _ "relatedStories" (b_relatedStories body))
    with (@inr str _ (b_relatedStories body)).
  cbv iota. rewrite create_and_answer_ok.
  - eexists. repeat split.
  - unfold queue_doc_valid, content_queue_item. cbn [id relatedStories].
    rewrite Hid, Hstories. reflexivity.
  - exact Hfresh.
Qed.

End Handlers.

(** server.js, the handler at line 1060: a body without content and url
    is answered 400; every other body is answered 500 with the message of
    the ReferenceError, and in both cases the store is unchanged: no
    document is ever enqueued. *)
Theorem add_content_to_queue_1060_never_enqueues :
  forall newObjectId ObjectId_toString now body st,
  add_content_to_queue_1060 newObjectId ObjectId_toString now body st
  = if no_content_or_url body then (st, answer_400)
    else (st, mkResponse 500 false None
                (Some (lit "relatedStories is not defined"))).
Proof.
  intros. unfold add_content_to_queue_1060.
  destruct (no_content_or_url body); reflexivity.
Qed.

(** C8, at a body with content only: the handler of server.js at line
    1060 answers 500 and enqueues nothing, where the handler at line 4952
    enqueues the document and answers 200. *)
Theorem add_content_to_queue_1060_at_pasted_text :
  no_content_or_url
    (mkBody (Some (lit "Some pasted article text")) None None None None None)
  = false
  /\ add_content_to_queue_1060 3 (fun _ => lit "65f0c0fff0") 1000%N
       (mkBody (Some (lit "Some pasted article text")) None None None None None)
       (mkStore [] [])
     = (mkStore [] [],
        mkResponse 500 false None (Some (lit "relatedStories is not defined")))
  /\ add_content_to_queue_4952 3 (fun _ => lit "65f0c0fff0") 1000%N
       (mkBody (Some (lit "Some pasted article text")) None None None None None)
       (mkStore [] [])
     = (mkStore
          [content_queue_item 3 (fun _ => lit "65f0c0fff0") 1000%N
             (mkBody (Some (lit "Some pasted article text")) None None None
                None None) []]
          [],
        mkResponse 200 true (Some (lit "65f0c0fff0")) None).
Proof. repeat split; vm_compute; reflexivity. Qed.

(* ------------------------------------------------------------------ *)
(** ** Further properties of the pipeline *)

(** ** More on normalizeUrl and extractSlugFromUrl *)

Lemma endsWith_slash_last : forall x c,
  Ascii.eqb "/" c = false -> endsWith (x ++ [c]) (lit "/") = false.
Proof. intros x c H. rewrite endsWith_slash_app. exact H. Qed.

Lemma normalizeUrl_of_href : follows_standard -> forall x u,
  URL_parse x = Some u -> query u = None ->
  normalizeUrl (Some x) = strip_trailing_slash (href u).
Proof.
  intros Hstd x u H Hq. rewrite (normalizeUrl_parsed Hstd _ _ H).
  rewrite (set_search_empty_id _ Hq). reflexivity.
Qed.

Lemma href_no_query_fragment : forall sch h segs,
  href (mkURL sch h segs None None) = url_text sch h segs.
Proof.
  intros. rewrite href_text. unfold pathname, url_text.
  cbn [scheme host path query fragment query_text fragment_text].
  rewrite !app_nil_r. reflexivity.
Qed.

(** The text of a URL whose last segment is not empty does not end in a
    slash. *)
Lemma url_text_no_trailing_slash : forall sch h segs s,
  host_ok h = true ->
  Forall (fun x => seg_ok x = true) (segs ++ [s]) -> s <> [] ->
  endsWith (url_text sch h (segs ++ [s])) (lit "/") = false.
Proof.
  intros sch h segs s Hh Hsegs Hs.
  destruct (last_case _ s) as [-> | (s' & c & ->)]; [congruence|].
  unfold url_text. rewrite pathname_app, app_comm_cons, !app_assoc.
  apply endsWith_slash_last. apply url_char_not_slash.
  apply Forall_app in Hsegs as [_ Hlast]. inversion Hlast as [|? ? Hok _]; subst.
  apply seg_ok_chars in Hok. rewrite forallb_app in Hok.
  apply andb_true_iff in Hok as [_ Hc]. simpl in Hc.
  rewrite andb_true_r in Hc. exact Hc.
Qed.

Lemma url_text_origin_no_trailing_slash : forall sch h,
  host_ok h = true -> endsWith (url_text sch h []) (lit "/") = false.
Proof.
  intros sch h Hh. unfold url_text. change (path_text []) with (@nil ascii).
  rewrite app_nil_r.
  destruct (last_case _ h) as [-> | (h' & c & ->)]; [discriminate|].
  rewrite !app_assoc. apply endsWith_slash_last. apply host_char_not_slash.
  apply host_ok_chars in Hh. rewrite forallb_app in Hh.
  apply andb_true_iff in Hh as [_ Hc]. simpl in Hc.
  rewrite andb_true_r in Hc. exact Hc.
Qed.

(** X1: the deduplication key.  On a platform that follows the URL
    standard, a URL of the fragment written with a lower-case scheme and
    host, without dot segments and without fragment, whose last path
    segment is not empty, with or without a query string and with or
    without one trailing slash, normalizes to the text of its scheme, host
    and path. *)
Theorem normalizeUrl_canonical :
  follows_standard ->
  forall sch h segs q (slash : bool),
  sch = lit "https" \/ sch = lit "http" ->
  host_ok h = true ->
  Forall (fun s => seg_ok s = true) segs ->
  last segs (lit "x") <> [] ->
  opt_forallb query_char q = true ->
  normalizeUrl
    (Some (url_text sch h segs ++ (if slash then ["/"] else []) ++ query_text q))
  = url_text sch h segs.
Proof.
  intros Hstd sch h segs q slash Hsch Hh Hsegs Hlast Hq.
  assert (Hfixed : strip_trailing_slash (url_text sch h segs) = url_text sch h segs).
  { apply strip_trailing_slash_fixed.
    destruct (last_case _ segs) as [-> | (segs' & s & ->)].
    - apply url_text_origin_no_trailing_slash; exact Hh.
    - rewrite last_last in Hlast.
      apply url_text_no_trailing_slash; assumption. }
  assert (Hslash : forall p,
            p = path_text (segs ++ [[]]) ->
            normalizeUrl (Some (sch ++ lit "://" ++ h ++ p ++ query_text q
                                ++ fragment_text None))
            = url_text sch h segs).
  { intros p ->.
    assert (Hok : Forall (fun s => seg_ok s = true) (segs ++ [[]]))
      by (apply Forall_app; split; [exact Hsegs|constructor; [reflexivity|constructor]]).
    assert (Hne : segs ++ [[]] <> []) by (destruct segs; discriminate).
    etransitivity;
      [apply (normalizeUrl_parsed Hstd _ _
                (URL_parse_segments sch h (segs ++ [[]]) q None Hsch Hh Hne Hok
                   Hq eq_refl))|].
    change (set_search_empty (mkURL sch h (segs ++ [[]]) q None))
      with (mkURL sch h (segs ++ [[]]) None None).
    etransitivity;
      [apply (f_equal strip_trailing_slash
                (href_no_query_fragment sch h (segs ++ [[]])))|].
    unfold url_text.
    rewrite pathname_app, !app_assoc, strip_trailing_slash_slash, <- !app_assoc.
    reflexivity. }
  destruct slash.
  - replace (url_text sch h segs ++ ["/"] ++ query_text q)
      with (sch ++ lit "://" ++ h ++ path_text (segs ++ [[]]) ++ query_text q
            ++ fragment_text None).
    + apply Hslash. reflexivity.
    + unfold url_text. rewrite pathname_app. cbn [fragment_text].
      rewrite app_nil_r, <- !app_assoc. reflexivity.
  - destruct (last_case _ segs) as [-> | (segs' & s & Es)].
    + (* the bare origin *)
      replace (url_text sch h [] ++ [] ++ query_text q)
        with (sch ++ lit "://" ++ h ++ [] ++ query_text q ++ fragment_text None)
        by (unfold url_text; change (path_text []) with (@nil ascii);
            cbn [fragment_text]; rewrite !app_nil_r, <- !app_assoc; reflexivity).
      etransitivity;
        [apply (normalizeUrl_parsed Hstd _ _
                  (URL_parse_text sch h [] q None Hsch Hh eq_refl I Hq eq_refl))|].
      cbn [raw_segments path_state is_double_dot is_single_dot].
      change (set_search_empty (mkURL sch h (path_state [] [[]]) q None))
        with (mkURL sch h [[]] None None).
      etransitivity;
        [apply (f_equal strip_trailing_slash
                  (href_no_query_fragment sch h [[]]))|].
      unfold url_text.
      change (path_text [[]]) with ["/"]. change (path_text []) with (@nil ascii).
      rewrite !app_assoc, strip_trailing_slash_slash, app_nil_r. reflexivity.
    + assert (Hne : segs <> []) by (rewrite Es; destruct segs'; discriminate).
      replace (url_text sch h segs ++ [] ++ query_text q)
        with (sch ++ lit "://" ++ h ++ path_text segs ++ query_text q
              ++ fragment_text None)
        by (unfold url_text; cbn [fragment_text];
            rewrite !app_nil_r, <- !app_assoc; reflexivity).
      etransitivity;
        [apply (normalizeUrl_parsed Hstd _ _
                  (URL_parse_segments sch h segs q None Hsch Hh Hne Hsegs Hq
                     eq_refl))|].
      change (set_search_empty (mkURL sch h segs q None))
        with (mkURL sch h segs None None).
      etransitivity;
        [apply (f_equal strip_trailing_slash
                  (href_no_query_fragment sch h segs))|].
      exact Hfixed.
Qed.

(** X2: on a platform that follows the URL standard, the normalized form
    of a URL of the fragment is a URL of the fragment, and it has no query
    string. *)
Theorem normalizeUrl_valid :
  follows_standard ->
  forall u,
  URL_parse u <> None ->
  exists v, URL_parse (normalizeUrl (Some u)) = Some v /\ query v = None.
Proof.
  intros Hstd u H. destruct (URL_parse u) as [r|] eqn:E; [|congruence].
  rewrite (normalizeUrl_parsed Hstd _ _ E).
  destruct (set_search_empty_wf r (URL_parse_wf _ _ E)) as [Hwf Hq].
  destruct (strip_href_parse _ Hwf Hq) as (v & _ & Hqv & Hparse & _).
  exists v. split; assumption.
Qed.

Lemma slug_char_lower : forall c,
  slug_char (to_lower_char (if Ascii.eqb c "_" then "-" else c)) = true.
Proof. intros c; by_cases_on_char c. Qed.

(** X3: a slug has no upper-case letter and no underscore, whatever the URL. *)
Theorem extractSlugFromUrl_charset : forall url,
  forallb slug_char (extractSlugFromUrl url) = true.
Proof.
  assert (Hclean : forall v, forallb slug_char (slug_clean v) = true).
  { intros v. unfold slug_clean, toLowerCase, replace_char.
    rewrite map_map. induction (strip_html_ext v) as [|c x IH]; [reflexivity|].
    cbn [map forallb]. rewrite slug_char_lower, IH. reflexivity. }
  intros url.
  destruct (extractSlugFromUrl_shape url) as [-> | (v & ->)];
    [reflexivity|apply Hclean].
Qed.

(** ** More on the publish worker *)

Lemma str_eqb_eq : forall a b, str_eqb a b = true <-> a = b.
Proof.
  intros a b. unfold str_eqb. destruct (str_eq_dec a b); split; congruence.
Qed.

Lemma str_eqb_refl : forall a, str_eqb a a = true.
Proof. intros a. apply str_eqb_eq. reflexivity. Qed.



Lemma NoDup_snoc : forall (A : Type) (l : list A) x,
  NoDup l -> ~ In x l -> NoDup (l ++ [x]).
Proof.
  intros A l x Hl Hx. induction l as [|y l IH]; simpl.
  - constructor; [tauto|constructor].
  - inversion Hl as [|? ? Hy Hl']; subst. constructor.
    + rewrite in_app_iff. simpl. intros [H|[->|[]]]; [tauto|].
      apply Hx. left; reflexivity.
    + apply IH; [assumption|]. intros H. apply Hx. right; exact H.
Qed.

(** What a successful [save] has checked. *)
Lemma Post_save_inr : forall ps p ps',
  Post_save ps p = inr ps' ->
  ps' = ps ++ [p] /\ post_valid p = true
  /\ existsb (duplicate_key p) ps = false.
Proof.
  intros ps p ps' H. unfold Post_save in H.
  destruct (post_valid p); [|discriminate].
  destruct (existsb _ _); [discriminate|].
  injection H as <-. repeat split.
Qed.


Lemma worker_item_saved : forall g gen now k st item p,
  snd (worker_item g gen now k st item) = Published p ->
  Post_save (posts st) p = inr (posts (fst (worker_item g gen now k st item))).
Proof.
  intros g gen now k st item p. unfold worker_item.
  destruct (last_mile_duplicate _ _); [discriminate|].
  destruct (g (text item) (url item)) as [d|]; [|discriminate].
  destruct (Post_save _ _) as [m|ps] eqn:E; [discriminate|].
  simpl. intros H; injection H as <-. exact E.
Qed.

Lemma processQueueItem_item_saved : forall g gen now k st item p,
  snd (processQueueItem_item g gen now k st item) = Published p ->
  Post_save (posts st) p
  = inr (posts (fst (processQueueItem_item g gen now k st item))).
Proof.
  intros g gen now k st item p. unfold processQueueItem_item.
  destruct (last_mile_duplicate _ _); [discriminate|].
  destruct (g (text item) (url item)) as [d|]; [|discriminate].
  destruct (Post_save _ _) as [m|ps] eqn:E.
  - destruct (includes m _); discriminate.
  - simpl. intros H; injection H as <-. exact E.
Qed.

Section BatchPosts.

Variable removes : Outcome -> bool.
Variable step : nat -> Store -> QueueItem -> Store * Outcome.
Hypothesis step_ok : step_effect removes step.
Hypothesis step_saved : forall k st item p,
  snd (step k st item) = Published p ->
  Post_save (posts st) p = inr (posts (fst (step k st item))).
Variable arrivals : nat -> list QueueItem.



Lemma deleteOne_length : forall i q,
  length (deleteOne i q) <= length q /\ length q <= S (length (deleteOne i q)).
Proof.
  intros i q; induction q as [|y q IH]; simpl; [lia|].
  destruct (_id y =? i); simpl; lia.
Qed.

Lemma arrived_length_S : forall k n,
  length (arrived arrivals k (S n))
  = length (arrivals k) + length (arrived arrivals (S k) n).
Proof. intros. rewrite arrived_S. apply length_app. Qed.

Lemma run_batch_lengths : forall batch k st,
  length (snd (run_batch step arrivals k batch st)) = length batch
  /\ length (queue (fst (run_batch step arrivals k batch st)))
     <= length (queue st) + length (arrived arrivals k (length batch))
  /\ length (queue st) + length (arrived arrivals k (length batch))
     <= length (queue (fst (run_batch step arrivals k batch st))) + length batch.
Proof.
  induction batch as [|item rest IH]; intros k st.
  - cbn. lia.
  - rewrite run_batch_cons. cbn [fst snd length].
    destruct (IH (S k) (fst (step k (Queue_insertMany (arrivals k) st) item)))
      as (Hl & Hle & Hge).
    rewrite arrived_length_S.
    destruct (step_ok k (Queue_insertMany (arrivals k) st) item) as [Hq _].
    assert (Hstep :
      length (queue (fst (step k (Queue_insertMany (arrivals k) st) item)))
      <= length (queue st) + length (arrivals k)
      /\ length (queue st) + length (arrivals k)
         <= S (length (queue (fst (step k (Queue_insertMany (arrivals k) st) item))))).
    { rewrite Hq. cbn [Queue_insertMany queue].
      destruct (removes _).
      - destruct (deleteOne_length (_id item) (queue st ++ arrivals k)) as [A B].
        rewrite length_app in A, B. lia.
      - rewrite length_app. lia. }
    lia.
Qed.

Lemma published_length : forall trace : list (QueueItem * Outcome),
  length (published trace) <= length trace.
Proof.
  induction trace as [|[x o] r IH]; simpl; [lia|].
  destruct o; simpl; lia.
Qed.

Lemma cycle_bounds : forall st,
  length (posts (fst (drain_cycle step arrivals st))) <= length (posts st) + 3
  /\ length (queue (fst (drain_cycle step arrivals st)))
     <= length (queue st) + length (arrived arrivals 0 (length (select_batch st)))
  /\ length (queue st) + length (arrived arrivals 0 (length (select_batch st)))
     <= length (queue (fst (drain_cycle step arrivals st))) + 3.
Proof.
  intros st. unfold drain_cycle.
  rewrite (run_batch_posts removes step step_ok), length_app.
  destruct (run_batch_lengths (select_batch st) 0 st) as (Hl & Hle & Hge).
  pose proof (published_length (snd (run_batch step arrivals 0 (select_batch st) st))).
  pose proof (select_batch_length st). lia.
Qed.

(** An item whose URL is the URL of a stored post is not published,
    whatever the last-mile check found. *)
Lemma run_batch_same_url : forall batch k st item o u q p,
  In (item, o) (snd (run_batch step arrivals k batch st)) ->
  (forall k st item p, snd (step k st item) = Published p -> post_url p = url item) ->
  url item = Some u -> In q (posts st) -> post_url q = Some u ->
  o <> Published p.
Proof.
  intros batch k st item o u q p Hin Hurl Eu Hq Equ ->.
  destruct (run_batch_outcome removes step step_ok arrivals batch k st item _ Hin)
    as (k' & st0 & extra & Hposts & Ho).
  symmetry in Ho. pose proof (step_saved _ _ _ _ Ho) as Hsave.
  apply Post_save_inr in Hsave as (_ & _ & Hdup).
  assert (Hex : existsb (duplicate_key p) (posts st0) = true).
  { apply existsb_exists. exists q. split.
    - rewrite Hposts. apply in_or_app. left; exact Hq.
    - unfold duplicate_key. rewrite (Hurl _ _ _ _ Ho), Eu, Equ.
      cbn [same_opt]. rewrite str_eqb_refl. apply orb_true_r. }
  congruence.
Qed.

End BatchPosts.

Lemma worker_newPost_fields : forall gen now k item d,
  post_url (worker_newPost gen now k item d) = url item
  /\ post_relatedStories (worker_newPost gen now k item d) = relatedStories item
  /\ postId (worker_newPost gen now k item d) = gen k
  /\ publishedAt (worker_newPost gen now k item d) = now k
  /\ isPublished (worker_newPost gen now k item d) = true
  /\ post_imageUrl (worker_newPost gen now k item d)
     = with_default imageUrl_default (derive_imageUrl item)
  /\ videoUrl (worker_newPost gen now k item d) = fst (derive_video item)
  /\ post_type (worker_newPost gen now k item d) = snd (derive_video item).
Proof.
  intros. unfold worker_newPost. destruct (derive_video item).
  repeat split.
Qed.

Lemma processQueueItem_newPost_fields : forall gen now k item d,
  post_url (processQueueItem_newPost gen now k item d) = url item
  /\ post_relatedStories (processQueueItem_newPost gen now k item d)
     = relatedStories item
  /\ postId (processQueueItem_newPost gen now k item d) = gen k
  /\ publishedAt (processQueueItem_newPost gen now k item d) = now k
  /\ isPublished (processQueueItem_newPost gen now k item d) = true
  /\ post_imageUrl (processQueueItem_newPost gen now k item d)
     = derive_imageUrl item
  /\ videoUrl (processQueueItem_newPost gen now k item d) = fst (derive_video item)
  /\ post_type (processQueueItem_newPost gen now k item d)
     = snd (derive_video item).
Proof.
  intros. unfold processQueueItem_newPost. destruct (derive_video item).
  repeat split.
Qed.

Lemma worker_item_url : forall g gen now k st item p,
  snd (worker_item g gen now k st item) = Published p -> post_url p = url item.
Proof.
  intros g gen now k st item p H.
  apply worker_item_published in H as (d & _ & ->).
  apply worker_newPost_fields.
Qed.

Lemma processQueueItem_item_url : forall g gen now k st item p,
  snd (processQueueItem_item g gen now k st item) = Published p ->
  post_url p = url item.
Proof.
  intros g gen now k st item p H.
  apply processQueueItem_item_published in H as (d & _ & ->).
  apply processQueueItem_newPost_fields.
Qed.


(** X5: a cycle of either worker adds at most three posts, removes at most
    three documents from the queue and adds none of its own. *)
Theorem drain_cycle_bounds : forall g gen now arrivals st,
  let incoming := length (arrived arrivals 0 (length (select_batch st))) in
  (length (posts (fst (worker_cycle g gen now arrivals st))) <= length (posts st) + 3
   /\ length (queue (fst (worker_cycle g gen now arrivals st)))
      <= length (queue st) + incoming
   /\ length (queue st) + incoming
      <= length (queue (fst (worker_cycle g gen now arrivals st))) + 3)
  /\ (length (posts (fst (processQueueItem g gen now arrivals st)))
      <= length (posts st) + 3
      /\ length (queue (fst (processQueueItem g gen now arrivals st)))
         <= length (queue st) + incoming
      /\ length (queue st) + incoming
         <= length (queue (fst (processQueueItem g gen now arrivals st))) + 3).
Proof.
  intros g gen now arrivals st incoming. split.
  - apply (cycle_bounds worker_removes _ (worker_item_effect g gen now)).
  - apply (cycle_bounds processQueueItem_removes _
             (processQueueItem_item_effect g gen now)).
Qed.

(** X6: an item whose URL is, character for character, the URL of a post
    stored before the cycle is never published, by either worker. *)
Theorem same_url_never_published : forall g gen now arrivals st item o u q,
  In (item, o) (snd (worker_cycle g gen now arrivals st))
  \/ In (item, o) (snd (processQueueItem g gen now arrivals st)) ->
  url item = Some u -> In q (posts st) -> post_url q = Some u ->
  forall p, o <> Published p.
Proof.
  intros g gen now arrivals st item o u q [Hin|Hin] Eu Hq Equ p.
  - apply (run_batch_same_url worker_removes _ (worker_item_effect g gen now)
             (worker_item_saved g gen now) arrivals _ _ _ _ _ u q p Hin
             (worker_item_url g gen now) Eu Hq Equ).
  - apply (run_batch_same_url processQueueItem_removes _
             (processQueueItem_item_effect g gen now)
             (processQueueItem_item_saved g gen now) arrivals _ _ _ _ _ u q p Hin
             (processQueueItem_item_url g gen now) Eu Hq Equ).
Qed.

Lemma run_batch_outcome_index : forall step arrivals batch k st item o,
  In (item, o) (snd (run_batch step arrivals k batch st)) ->
  exists k' st0, k <= k' < k + length batch /\ o = snd (step k' st0 item).
Proof.
  intros step arrivals. induction batch as [|x rest IH]; intros k st item o H.
  - contradiction.
  - rewrite run_batch_cons in H. cbn [snd] in H. destruct H as [E|H].
    + injection E as -> <-. eexists k, _. split; [simpl; lia|reflexivity].
    + apply IH in H as (k' & st0 & Hk & Ho). exists k', st0.
      split; [simpl; lia|exact Ho].
Qed.

Lemma published_In : forall (trace : list (QueueItem * Outcome)) item p,
  In (item, Published p) trace -> In p (published trace).
Proof.
  induction trace as [|[x o] r IH]; intros item p H; [contradiction|].
  destruct H as [E|H].
  - injection E as -> ->. left; reflexivity.
  - specialize (IH _ _ H). destruct o; simpl; tauto.
Qed.

Lemma derive_imageUrl_image : forall item,
  derive_imageUrl item = item_image item.
Proof.
  intros item. unfold derive_imageUrl, item_image, first_entity_media.
  destruct (imageUrl item) as [| |[|c i]];
    destruct (extendedEntities_media item) as [[|m l]|]; try reflexivity;
    cbn [truthy_value truthy negb of_option];
    match goal with
    | |- context [media_url_https ?m] => destruct (media_url_https m)
    end; reflexivity.
Qed.

Lemma with_default_image : forall default item,
  with_default default (derive_imageUrl item)
  = match item_image item, default with
    | undefined, Some d => value d
    | image, _ => image
    end.
Proof.
  intros default item. rewrite derive_imageUrl_image. unfold with_default.
  destruct (item_image item), default; reflexivity.
Qed.

Lemma worker_newPost_built : forall gen now k item d,
  k < 3 ->
  built_from imageUrl_default gen now item (worker_newPost gen now k item d).
Proof.
  intros gen now k item d Hk. unfold built_from, worker_newPost.
  destruct (derive_video item). cbn [post_url post_relatedStories post_imageUrl
    videoUrl post_type post_source sourceName isPublished tags postId
    publishedAt fst snd].
  split; [reflexivity|]. split; [reflexivity|].
  split; [apply with_default_image|].
  repeat (split; [reflexivity|]). exists k. repeat split. exact Hk.
Qed.

Lemma processQueueItem_newPost_built : forall gen now k item d,
  k < 3 ->
  built_from None gen now item (processQueueItem_newPost gen now k item d).
Proof.
  intros gen now k item d Hk. unfold built_from, processQueueItem_newPost.
  destruct (derive_video item). cbn [post_url post_relatedStories post_imageUrl
    videoUrl post_type post_source sourceName isPublished tags postId
    publishedAt fst snd].
  split; [reflexivity|]. split; [reflexivity|].
  split; [rewrite <- (with_default_image None item);
          destruct (derive_imageUrl item); reflexivity|].
  repeat (split; [reflexivity|]). exists k. repeat split. exact Hk.
Qed.

(** X7: every post a cycle publishes takes its URL, related stories, video
    and source from the item, its id and date from the generator and the
    clock at one of the three positions of the batch, carries no tag and is
    marked published.  Its image is the image of the item; when that is
    undefined, the worker callback stores the default of the postSchema of
    its file (server.js declares one, index.js none), and the worker
    service, whose schema declares none, leaves it undefined.  A null
    image stays null. *)
Theorem published_post_fields : forall g gen now arrivals st item p,
  (In (item, Published p) (snd (worker_cycle g gen now arrivals st)) ->
   built_from imageUrl_default gen now item p)
  /\ (In (item, Published p) (snd (processQueueItem g gen now arrivals st)) ->
      built_from None gen now item p).
Proof.
  intros g gen now arrivals st item p.
  pose proof (select_batch_length st) as Hlen.
  split; intros H;
    apply run_batch_outcome_index in H as (k & st0 & Hk & Ho); symmetry in Ho.
  - apply worker_item_published in Ho as (d & _ & ->).
    apply worker_newPost_built. lia.
  - apply processQueueItem_item_published in Ho as (d & _ & ->).
    apply processQueueItem_newPost_built. lia.
Qed.

(** X8: the posts are append-only under both workers: after a cycle the
    collection is the collection before followed by the posts published, in
    the order of the batch. *)
Theorem drain_cycle_appends_posts : forall g gen now arrivals st,
  posts (fst (worker_cycle g gen now arrivals st))
  = posts st ++ published (snd (worker_cycle g gen now arrivals st))
  /\ posts (fst (processQueueItem g gen now arrivals st))
     = posts st ++ published (snd (processQueueItem g gen now arrivals st)).
Proof.
  intros. split.
  - apply (run_batch_posts worker_removes _ (worker_item_effect g gen now)).
  - apply (run_batch_posts processQueueItem_removes _
             (processQueueItem_item_effect g gen now)).
Qed.

(** ** The video of a post *)

Lemma best_bitrate_none : forall l, best_bitrate l = None -> l = [].
Proof.
  intros [|v r]; [reflexivity|]. simpl.
  destruct (best_bitrate r) as [w|]; [destruct (bitrate v <? bitrate w)|];
    discriminate.
Qed.

Lemma best_bitrate_greatest : forall l v,
  best_bitrate l = Some v ->
  In v l /\ forall w, In w l -> bitrate w <= bitrate v.
Proof.
  induction l as [|x r IH]; intros v H; [discriminate|].
  simpl in H. destruct (best_bitrate r) as [b|] eqn:E.
  - destruct (IH b eq_refl) as [Hin Hmax].
    destruct (bitrate x <? bitrate b) eqn:Elt; injection H as <-.
    + apply Nat.ltb_lt in Elt. split; [right; exact Hin|].
      intros w [<-|Hw]; [lia|apply Hmax; exact Hw].
    + apply Nat.ltb_ge in Elt. split; [left; reflexivity|].
      intros w [<-|Hw]; [lia|]. specialize (Hmax w Hw). lia.
  - injection H as <-. apply best_bitrate_none in E. subst r.
    split; [left; reflexivity|]. intros w [<-|[]]. lia.
Qed.

(** X9: the post is a video post exactly when the first entry of the media
    list is a video with an mp4 variant; its video URL is then the URL of an
    mp4 variant of that entry whose bitrate no other mp4 variant exceeds.
    Otherwise it is a normal post without video. *)
Theorem derive_video_best : forall item,
  if first_is_video item && existsb is_mp4 (first_variants item)
  then snd (derive_video item) = lit "normal_video"
       /\ exists v, In v (first_variants item) /\ is_mp4 v = true
            /\ fst (derive_video item) = variant_url v
            /\ forall w, In w (first_variants item) -> is_mp4 w = true ->
                         bitrate w <= bitrate v
  else derive_video item = (None, lit "normal_post").
Proof.
  intros item. unfold first_is_video, first_variants, derive_video.
  destruct (mediaList item) as [|m rest]; [reflexivity|].
  destruct (same_opt (media_type m) (Some (lit "video"))); [|reflexivity].
  cbn [andb].
  set (variants := match video_variants m with Some l => l | None => [] end).
  destruct (best_bitrate (filter is_mp4 variants)) as [b|] eqn:E.
  - apply best_bitrate_greatest in E as [Hin Hmax].
    apply filter_In in Hin as [Hin Hmp4].
    replace (existsb is_mp4 variants) with true
      by (symmetry; apply existsb_exists; exists b; split; assumption).
    split; [reflexivity|]. exists b. repeat split; try assumption.
    intros w Hw Hw4. apply Hmax. apply filter_In. split; assumption.
  - apply best_bitrate_none in E.
    replace (existsb is_mp4 variants) with false; [reflexivity|].
    symmetry. apply not_true_is_false. intros H.
    apply existsb_exists in H as (w & Hw & Hw4).
    assert (Hin : In w (filter is_mp4 variants)) by (apply filter_In; split; assumption).
    rewrite E in Hin. contradiction.
Qed.

(** ** More on the feed fetcher *)

Lemma split_on_head : forall d a b,
  ~ In d a -> split_on d (a ++ d :: b) = a :: split_on d b.
Proof.
  intros d a b; induction a as [|c a IH]; intros H.
  - simpl. rewrite Ascii.eqb_refl. reflexivity.
  - simpl. destruct (Ascii.eqb c d) eqn:E.
    + apply Ascii.eqb_eq in E. exfalso. apply H. left. exact E.
    + rewrite IH; [reflexivity|]. intros Hin. apply H. right. exact Hin.
Qed.

Lemma starts_with_app : forall p x, starts_with Ascii.eqb p (p ++ x) = true.
Proof.
  induction p as [|c p IH]; intros x; [reflexivity|].
  simpl. rewrite Ascii.eqb_refl. apply IH.
Qed.

Lemma remove_first_at_start : forall p y,
  starts_with Ascii.eqb p y = true -> remove_first p y = skipn (length p) y.
Proof.
  intros p [|c y] H; unfold remove_first; fold remove_first; rewrite H;
    reflexivity.
Qed.

Lemma remove_first_prefix : forall p x, remove_first p (p ++ x) = x.
Proof.
  intros p x. rewrite remove_first_at_start by apply starts_with_app.
  rewrite skipn_app, skipn_all, Nat.sub_diag. reflexivity.
Qed.

Lemma queue_title_of_text : forall q t rest,
  ~ In (ascii_of_nat 10) t ->
  text q = lit "Title: " ++ t ++ [ascii_of_nat 10] ++ rest ->
  queue_title q = t.
Proof.
  intros q t rest Ht E. unfold queue_title. rewrite E.
  replace (lit "Title: " ++ t ++ [ascii_of_nat 10] ++ rest)
    with ((lit "Title: " ++ t) ++ ascii_of_nat 10 :: rest)
    by (rewrite <- app_assoc; reflexivity).
  rewrite split_on_head.
  - apply remove_first_prefix.
  - rewrite in_app_iff. intros [H|H]; [|exact (Ht H)].
    vm_compute in H. intuition discriminate.
Qed.

(** X10: the title the fetcher reads back from a queued document is the title
    the document was queued with, for a title on one line: for the
    documents of the fetcher, and for the documents of the manual handlers
    built from a title. *)
Theorem queue_title_round_trip :
  forall oid oid_string now feedSource item body stories (noid : nat)
         (nstr : nat -> str) t,
  ~ In (ascii_of_nat 10) (item_title item) ->
  b_title body = Some t -> t <> [] -> ~ In (ascii_of_nat 10) t ->
  queue_title (rss_queue_item oid oid_string now feedSource item)
  = item_title item
  /\ queue_title (content_queue_item noid nstr now body stories) = t.
Proof.
  intros oid oid_string now feedSource item body stories noid nstr t Hi Hb Ht Hl.
  split.
  - eapply queue_title_of_text; [exact Hi|]. reflexivity.
  - eapply queue_title_of_text; [exact Hl|].
    unfold content_queue_item. cbn [text]. rewrite Hb.
    destruct t as [|c t]; [congruence|]. reflexivity.
Qed.

Lemma enqueued_app : forall a b, enqueued (a ++ b) = enqueued a ++ enqueued b.
Proof. intros a b. apply flat_map_app. Qed.

Lemma enqueued_length : forall trace, length (enqueued trace) <= length trace.
Proof.
  induction trace as [|[e d] r IH]; [apply le_n|].
  change (enqueued ((e, d) :: r))
    with (match d with Enqueued => [e] | _ => [] end ++ enqueued r).
  destruct d; simpl; lia.
Qed.

Lemma enqueued_In : forall trace e, In e (enqueued trace) -> In (e, Enqueued) trace.
Proof.
  intros trace e H. unfold enqueued in H. apply in_flat_map in H as ([x d] & Hx & He).
  cbn [fst snd] in He. destruct d; try contradiction.
  destruct He as [->|[]]. exact Hx.
Qed.

Lemma set_has_In : forall s x, set_has s x = true <-> In x s.
Proof.
  intros s x. unfold set_has. rewrite existsb_exists. split.
  - intros (y & Hy & E). apply str_eqb_eq in E. subst y. exact Hy.
  - intros H. exists x. split; [exact H|apply str_eqb_refl].
Qed.

Lemma set_has_not_In : forall s x, set_has s x = false <-> ~ In x s.
Proof.
  intros s x. rewrite <- set_has_In. destruct (set_has s x); split; congruence.
Qed.

(** A title is a duplicate only when a known title is rated above the
    threshold. *)
Lemma title_duplicate_rated : forall mem item,
  title_duplicate mem item = true ->
  exists t, In t (existingTitles mem)
            /\ (SIMILARITY_THRESHOLD < compareTwoStrings (item_title item) t)%Q.
Proof.
  intros mem item H.
  destruct (existsb (fun t => Qgtb (compareTwoStrings (item_title item) t)
                                SIMILARITY_THRESHOLD) (existingTitles mem)) eqn:E.
  - apply existsb_exists in E as (t & Ht & Hr). exists t. split; [exact Ht|].
    apply Qgtb_true. exact Hr.
  - rewrite title_duplicate_below in H; [discriminate|].
    intros t Ht. apply Qgtb_false.
    destruct (Qgtb (compareTwoStrings (item_title item) t) SIMILARITY_THRESHOLD) eqn:Er;
      [|reflexivity].
    rewrite <- E. symmetry. apply existsb_exists. exists t. split; assumption.
Qed.

Section FetchAccount.

Variable parseURL : str -> option (list FeedItem).
Variable newObjectId : nat -> nat.
Variable ObjectId_toString : nat -> str.
Variable now : N.

Local Abbreviation item_step := (fetch_item newObjectId ObjectId_toString now).
Local Abbreviation entries_loop := (fetch_entries newObjectId ObjectId_toString now).

Lemma fetch_entries_cons : forall f item rest state,
  entries_loop ((f, item) :: rest) state
  = (fst (entries_loop rest (fst (item_step f state item))),
     (item, snd (item_step f state item))
     :: snd (entries_loop rest (fst (item_step f state item)))).
Proof.
  intros. cbn [fetch_entries].
  destruct (item_step f state item) as [s1 d]. cbn [fst snd].
  destruct (entries_loop rest s1). reflexivity.
Qed.

Lemma fetch_entries_app : forall a b state,
  entries_loop (a ++ b) state
  = (fst (entries_loop b (fst (entries_loop a state))),
     snd (entries_loop a state) ++ snd (entries_loop b (fst (entries_loop a state)))).
Proof.
  induction a as [|[f item] a IH]; intros b state.
  - cbn [app fetch_entries fst snd]. destruct (entries_loop b state); reflexivity.
  - rewrite <- app_comm_cons, !fetch_entries_cons, IH. reflexivity.
Qed.

Lemma fetch_items_entries : forall f items state,
  fetch_items newObjectId ObjectId_toString now f items state
  = entries_loop (map (pair f) items) state.
Proof.
  intros f items; induction items as [|item rest IH]; intros state; [reflexivity|].
  cbn [map]. rewrite fetch_items_cons, fetch_entries_cons, !IH. reflexivity.
Qed.

Lemma fetch_feeds_entries : forall feeds state,
  fetch_feeds parseURL newObjectId ObjectId_toString now feeds state
  = entries_loop (feed_entries parseURL feeds) state.
Proof.
  induction feeds as [|f rest IH]; intros state; [reflexivity|].
  rewrite fetch_feeds_cons.
  change (feed_entries parseURL (f :: rest))
    with (match parseURL (feed_url f) with
          | Some items => map (pair f) (firstn 5 items)
          | None => []
          end ++ feed_entries parseURL rest).
  rewrite fetch_entries_app, !IH. unfold fetch_feed.
  destruct (parseURL (feed_url f)) as [items|].
  - rewrite fetch_items_entries. reflexivity.
  - reflexivity.
Qed.

Lemma feed_entries_length : forall feeds,
  length (feed_entries parseURL feeds) <= 5 * length feeds.
Proof.
  induction feeds as [|f rest IH]; [apply le_n|].
  change (feed_entries parseURL (f :: rest))
    with (match parseURL (feed_url f) with
          | Some items => map (pair f) (firstn 5 items)
          | None => []
          end ++ feed_entries parseURL rest).
  rewrite length_app. cbn [length].
  assert (length (match parseURL (feed_url f) with
                  | Some items => map (pair f) (firstn 5 items)
                  | None => []
                  end) <= 5).
  { destruct (parseURL (feed_url f)) as [items|]; [|simpl; lia].
    rewrite length_map. apply firstn_le_length. }
  lia.
Qed.

Lemma feed_entries_In : forall feeds f e,
  In (f, e) (feed_entries parseURL feeds) ->
  In f feeds
  /\ exists items, parseURL (feed_url f) = Some items /\ In e (firstn 5 items).
Proof.
  intros feeds f e H. unfold feed_entries in H.
  apply in_flat_map in H as (f0 & Hf0 & H).
  destruct (parseURL (feed_url f0)) as [items|] eqn:E; [|contradiction].
  apply in_map_iff in H as (e0 & Epair & He0). injection Epair as -> ->.
  split; [exact Hf0|]. exists items. split; assumption.
Qed.

Lemma fetch_entries_trace : forall entries state,
  map fst (snd (entries_loop entries state)) = map snd entries.
Proof.
  induction entries as [|[f item] rest IH]; intros state; [reflexivity|].
  rewrite fetch_entries_cons. cbn [snd map fst]. rewrite IH. reflexivity.
Qed.

(** What one entry does to the store and to the memory. *)
Lemma fetch_item_cases : forall f st mem item,
  (snd (item_step f (st, mem) item) = SkippedUrl
   /\ set_has (existingUrls mem) (clean_link item) = true
   /\ fst (item_step f (st, mem) item) = (st, mem))
  \/ (snd (item_step f (st, mem) item) = SkippedTitle
      /\ set_has (existingUrls mem) (clean_link item) = false
      /\ title_duplicate mem item = true
      /\ fst (item_step f (st, mem) item) = (st, mem))
  \/ (snd (item_step f (st, mem) item) = Enqueued
      /\ set_has (existingUrls mem) (clean_link item) = false
      /\ title_duplicate mem item = false
      /\ fst (item_step f (st, mem) item)
         = (Queue_insertMany
              [rss_queue_item (newObjectId (totalQueued mem)) ObjectId_toString
                 now f item] st,
            mkFetchMemory (existingTitles mem ++ [item_title item])
              (existingUrls mem ++ [clean_link item]) (totalQueued mem + 1))).
Proof.
  intros f st mem item. unfold fetch_item, clean_link.
  destruct (set_has (existingUrls mem) (normalizeUrl (link item)));
    [left; repeat split|right].
  destruct (title_duplicate mem item); [left|right]; repeat split.
Qed.

(** The account of a cycle: the store grows by one document per entry
    enqueued, and the memory by its link and its title. *)
Lemma fetch_entries_account : forall entries st mem,
  exists saved,
    fst (fst (entries_loop entries (st, mem))) = Queue_insertMany saved st
    /\ Forall2 (queued_from now)
         (enqueued (snd (entries_loop entries (st, mem)))) saved
    /\ existingUrls (snd (fst (entries_loop entries (st, mem))))
       = existingUrls mem
         ++ map clean_link (enqueued (snd (entries_loop entries (st, mem))))
    /\ existingTitles (snd (fst (entries_loop entries (st, mem))))
       = existingTitles mem
         ++ map item_title (enqueued (snd (entries_loop entries (st, mem))))
    /\ totalQueued (snd (fst (entries_loop entries (st, mem))))
       = totalQueued mem
         + length (enqueued (snd (entries_loop entries (st, mem)))).
Proof.
  induction entries as [|[f item] rest IH]; intros st mem.
  - exists []. cbn. rewrite Queue_insertMany_nil, !app_nil_r, Nat.add_0_r.
    repeat split. constructor.
  - rewrite fetch_entries_cons. cbn [fst snd].
    destruct (fetch_item_cases f st mem item)
      as [(Ed & _ & Es) | [(Ed & _ & _ & Es) | (Ed & _ & _ & Es)]];
      rewrite Es, Ed.
    + destruct (IH st mem) as (saved & H). exists saved. exact H.
    + destruct (IH st mem) as (saved & H). exists saved. exact H.
    + match goal with
      | |- context [entries_loop rest (?s, ?m)] =>
          destruct (IH s m) as (saved & Hst & Hsaved & Hu & Ht & Hn)
      end.
      eexists (_ :: saved). rewrite Hst, Hu, Ht, Hn.
      change (enqueued ((item, Enqueued) :: ?t)) with (item :: enqueued t).
      cbn [existingUrls existingTitles totalQueued map length].
      rewrite Queue_insertMany_app, <- !app_assoc. cbn [app].
      split; [reflexivity|]. split.
      * constructor; [|exact Hsaved]. eexists _, _, _. reflexivity.
      * repeat split. lia.
Qed.

(** The links of the entries enqueued by a cycle are new and distinct. *)
Lemma fetch_entries_fresh : forall entries st mem,
  NoDup (map clean_link (enqueued (snd (entries_loop entries (st, mem)))))
  /\ forall e, In e (enqueued (snd (entries_loop entries (st, mem)))) ->
               ~ In (clean_link e) (existingUrls mem).
Proof.
  induction entries as [|[f item] rest IH]; intros st mem.
  - cbn. split; [constructor|tauto].
  - rewrite fetch_entries_cons. cbn [fst snd].
    destruct (fetch_item_cases f st mem item)
      as [(Ed & _ & Es) | [(Ed & _ & _ & Es) | (Ed & Hu & _ & Es)]];
      rewrite Es, Ed.
    + apply (IH st mem).
    + apply (IH st mem).
    + match goal with
      | |- context [entries_loop rest (?s, ?m)] =>
          destruct (IH s m) as (Hnd & Hnew)
      end.
      change (enqueued ((item, Enqueued) :: ?t)) with (item :: enqueued t).
      cbn [existingUrls] in Hnew. split.
      * cbn [map]. constructor; [|exact Hnd].
        intros Hin. apply in_map_iff in Hin as (e & Ee & He).
        apply (Hnew e He). rewrite Ee. apply in_or_app. right. left. reflexivity.
      * intros e [<-|He].
        -- apply set_has_not_In. exact Hu.
        -- intros Hin. apply (Hnew e He). apply in_or_app. left. exact Hin.
Qed.

(** After a cycle every entry it looked at has its link in the memory,
    or a title in the memory that rates its title above the threshold. *)
Lemma fetch_entries_covered : forall entries st mem f e,
  In (f, e) entries ->
  In (clean_link e) (existingUrls (snd (fst (entries_loop entries (st, mem)))))
  \/ exists t,
       In t (existingTitles (snd (fst (entries_loop entries (st, mem)))))
       /\ (SIMILARITY_THRESHOLD < compareTwoStrings (item_title e) t)%Q.
Proof.
  induction entries as [|[f0 item] rest IH]; intros st mem f e Hin; [contradiction|].
  rewrite fetch_entries_cons. cbn [fst].
  destruct Hin as [E|Hin].
  - injection E as -> ->.
    destruct (fetch_entries_account rest
                (fst (fst (item_step f (st, mem) e)))
                (snd (fst (item_step f (st, mem) e))))
      as (saved & _ & _ & Hu & Ht & _).
    rewrite <- surjective_pairing in Hu, Ht. rewrite Hu, Ht.
    destruct (fetch_item_cases f st mem e)
      as [(_ & Hurl & Es) | [(_ & _ & Htitle & Es) | (_ & _ & _ & Es)]];
      rewrite Es; cbn [fst snd existingUrls existingTitles].
    + left. apply in_or_app. left. apply set_has_In. exact Hurl.
    + right. apply title_duplicate_rated in Htitle as (t & Hin & Hr).
      exists t. split; [apply in_or_app; left; exact Hin|exact Hr].
    + left. apply in_or_app. left. apply in_or_app. right. left. reflexivity.
  - destruct (fst (item_step f0 (st, mem) item)) as [s1 m1].
    apply (IH s1 m1 f e Hin).
Qed.

(** Entries that are all known leave the store and the memory as they
    are. *)
Lemma fetch_entries_known : forall entries st mem,
  (forall f e, In (f, e) entries ->
     set_has (existingUrls mem) (clean_link e) = true
     \/ title_duplicate mem e = true) ->
  fst (entries_loop entries (st, mem)) = (st, mem).
Proof.
  induction entries as [|[f item] rest IH]; intros st mem H; [reflexivity|].
  rewrite fetch_entries_cons. cbn [fst].
  assert (Es : fst (item_step f (st, mem) item) = (st, mem)).
  { destruct (fetch_item_cases f st mem item)
      as [(_ & _ & Es) | [(_ & _ & _ & Es) | (_ & Hu & Ht & _)]];
      [exact Es|exact Es|].
    destruct (H f item (or_introl eq_refl)); congruence. }
  rewrite Es. apply IH. intros f' e' Hin. apply (H f' e'). right. exact Hin.
Qed.

End FetchAccount.

Lemma fetchAndQueueRSS_entries : forall parseURL newObjectId ObjectId_toString now feeds p,
  isRSSFetching p = false ->
  fetchAndQueueRSS parseURL newObjectId ObjectId_toString now feeds p
  = (mkProcess false (in_flight p)
       (fst (fst (fetch_entries newObjectId ObjectId_toString now
                    (feed_entries parseURL feeds)
                    (store p, initial_memory now (store p))))),
     totalQueued
       (snd (fst (fetch_entries newObjectId ObjectId_toString now
                    (feed_entries parseURL feeds)
                    (store p, initial_memory now (store p)))))).
Proof.
  intros parseURL newObjectId ObjectId_toString now feeds p H.
  unfold fetchAndQueueRSS. rewrite H, fetch_feeds_entries.
  destruct (fetch_entries _ _ _ _ _) as [state trace]. reflexivity.
Qed.

Lemma fetch_trace_entries : forall parseURL newObjectId ObjectId_toString now feeds st,
  fetch_trace parseURL newObjectId ObjectId_toString now feeds st
  = snd (fetch_entries newObjectId ObjectId_toString now
           (feed_entries parseURL feeds) (st, initial_memory now st)).
Proof. intros. unfold fetch_trace. rewrite fetch_feeds_entries. reflexivity. Qed.

Lemma Forall2_length_eq : forall (A B : Type) (R : A -> B -> Prop) a b,
  Forall2 R a b -> length a = length b.
Proof. intros A B R a b H; induction H; simpl; congruence. Qed.

Lemma Forall2_In_left : forall (A B : Type) (R : A -> B -> Prop) a b x,
  Forall2 R a b -> In x a -> exists y, In y b /\ R x y.
Proof.
  intros A B R a b x H; induction H as [|x0 y0 a b Hxy H IH]; intros Hin;
    [contradiction|].
  destruct Hin as [->|Hin].
  - exists y0. split; [left; reflexivity|exact Hxy].
  - destruct (IH Hin) as (y & Hy & Hr). exists y. split; [right; exact Hy|exact Hr].
Qed.

(** X11: a cycle that passes the guard returns the number of entries it
    enqueued; the store afterwards is the store before with one document
    per entry enqueued, each built from its entry, added at the end of the
    queue in fetch order; the flag is clear again. *)
Theorem fetchAndQueueRSS_count :
  forall parseURL newObjectId ObjectId_toString now feeds p,
  isRSSFetching p = false ->
  exists saved,
    store (fst (fetchAndQueueRSS parseURL newObjectId ObjectId_toString now feeds p))
    = Queue_insertMany saved (store p)
    /\ Forall2 (queued_from now)
         (enqueued (fetch_trace parseURL newObjectId ObjectId_toString now feeds
                      (store p)))
         saved
    /\ snd (fetchAndQueueRSS parseURL newObjectId ObjectId_toString now feeds p)
       = length saved
    /\ isRSSFetching
         (fst (fetchAndQueueRSS parseURL newObjectId ObjectId_toString now feeds p))
       = false.
Proof.
  intros parseURL newObjectId ObjectId_toString now feeds p H.
  rewrite (fetchAndQueueRSS_entries _ _ _ _ _ _ H), fetch_trace_entries.
  destruct (fetch_entries_account newObjectId ObjectId_toString now
              (feed_entries parseURL feeds) (store p) (initial_memory now (store p)))
    as (saved & Hst & Hsaved & _ & _ & Hn).
  exists saved. cbn [fst snd store isRSSFetching].
  split; [exact Hst|]. split; [exact Hsaved|]. split; [|reflexivity].
  rewrite Hn. cbn [initial_memory totalQueued]. cbn.
  apply (Forall2_length_eq _ _ _ _ _ Hsaved).
Qed.

(** X12: a cycle never queues more than five entries per configured feed. *)
Theorem fetchAndQueueRSS_at_most_five_per_feed :
  forall parseURL newObjectId ObjectId_toString now feeds p,
  snd (fetchAndQueueRSS parseURL newObjectId ObjectId_toString now feeds p)
  <= 5 * length feeds.
Proof.
  intros parseURL newObjectId ObjectId_toString now feeds p.
  destruct (isRSSFetching p) eqn:E.
  - unfold fetchAndQueueRSS. rewrite E. cbn [snd]. lia.
  - rewrite (fetchAndQueueRSS_entries _ _ _ _ _ _ E). cbn [snd].
    destruct (fetch_entries_account newObjectId ObjectId_toString now
                (feed_entries parseURL feeds) (store p) (initial_memory now (store p)))
      as (saved & _ & _ & _ & _ & Hn).
    rewrite Hn. cbn [initial_memory totalQueued]. cbn [Nat.add].
    pose proof (enqueued_length
                  (snd (fetch_entries newObjectId ObjectId_toString now
                          (feed_entries parseURL feeds)
                          (store p, initial_memory now (store p))))) as Hle.
    assert (Hlen : length (snd (fetch_entries newObjectId ObjectId_toString now
                                  (feed_entries parseURL feeds)
                                  (store p, initial_memory now (store p))))
                   = length (feed_entries parseURL feeds)).
    { rewrite <- (length_map fst), fetch_entries_trace. apply length_map. }
    pose proof (feed_entries_length parseURL feeds). lia.
Qed.

(** X13: the entries one cycle enqueues have pairwise distinct normalized
    links, none of them the normalized URL of a queued document or of a
    post of the last 72 hours. *)
Theorem enqueued_links_distinct :
  forall parseURL newObjectId ObjectId_toString now feeds st,
  NoDup (map clean_link
           (enqueued (fetch_trace parseURL newObjectId ObjectId_toString now
                        feeds st)))
  /\ forall e,
       In e (enqueued (fetch_trace parseURL newObjectId ObjectId_toString now
                         feeds st)) ->
       (forall q, In q (queue st) -> normalizeUrl (url q) <> clean_link e)
       /\ (forall p, In p (posts st) -> recent now p = true ->
                     normalizeUrl (post_url p) <> clean_link e).
Proof.
  intros parseURL newObjectId ObjectId_toString now feeds st.
  rewrite fetch_trace_entries.
  destruct (fetch_entries_fresh newObjectId ObjectId_toString now
              (feed_entries parseURL feeds) st (initial_memory now st))
    as [Hnd Hnew].
  split; [exact Hnd|]. intros e He. specialize (Hnew e He).
  cbn [initial_memory existingUrls] in Hnew. split.
  - intros q Hq E. apply Hnew. apply in_or_app. right.
    apply in_map_iff. exists q. split; assumption.
  - intros p Hp Hr E. apply Hnew. apply in_or_app. left.
    apply in_map_iff. exists p. split; [exact E|].
    apply filter_In. split; assumption.
Qed.

(** What the memory of a later cycle holds: every URL and every title
    the earlier cycle ended with. *)
Lemma initial_memory_grows : forall now now2 st enq saved,
  Forall2 (queued_from now) enq saved ->
  (forall e, In e enq -> plain_title (item_title e)) ->
  (forall q, In q (posts st) -> recent now q = true -> recent now2 q = true) ->
  (forall l, In l (existingUrls (initial_memory now st) ++ map clean_link enq) ->
             In l (existingUrls (initial_memory now2 (Queue_insertMany saved st))))
  /\ (forall t, In t (existingTitles (initial_memory now st) ++ map item_title enq) ->
                In t (existingTitles
                        (initial_memory now2 (Queue_insertMany saved st)))).
Proof.
  intros now now2 st enq saved Hsaved Hplain Hwindow.
  assert (Hrecent : forall q, In q (filter (recent now) (posts st)) ->
                              In q (filter (recent now2) (posts st))).
  { intros q Hq. apply filter_In in Hq as [Hq Hr]. apply filter_In.
    split; [exact Hq|apply Hwindow; assumption]. }
  cbn [initial_memory existingUrls existingTitles Queue_insertMany queue posts].
  split.
  - intros l Hl. rewrite !in_app_iff in Hl. rewrite map_app, !in_app_iff.
    destruct Hl as [[Hl|Hl]|Hl].
    + left. apply in_map_iff in Hl as (q & <- & Hq).
      apply in_map_iff. exists q. split; [reflexivity|apply Hrecent; exact Hq].
    + right. left. exact Hl.
    + right. right. apply in_map_iff in Hl as (e & <- & He).
      destruct (Forall2_In_left _ _ _ _ _ _ Hsaved He) as (q & Hq & oid & os & f & ->).
      apply in_map_iff. eexists. split; [|exact Hq]. reflexivity.
  - intros t Ht. rewrite in_app_iff in Ht. apply filter_In.
    destruct Ht as [Ht|Ht].
    + apply filter_In in Ht as [Ht Htruthy]. split; [|exact Htruthy].
      rewrite in_app_iff in Ht. rewrite map_app, !in_app_iff.
      destruct Ht as [Ht|Ht].
      * left. apply in_map_iff in Ht as (q & <- & Hq).
        apply in_map_iff. exists q. split; [reflexivity|apply Hrecent; exact Hq].
      * right. left. exact Ht.
    + apply in_map_iff in Ht as (e & <- & He).
      destruct (Hplain e He) as [Hne Hline].
      destruct (Forall2_In_left _ _ _ _ _ _ Hsaved He) as (q & Hq & oid & os & f & ->).
      split.
      * rewrite map_app, !in_app_iff. right. right.
        apply in_map_iff. eexists. split; [|exact Hq].
        eapply queue_title_of_text; [exact Hline|reflexivity].
      * destruct (item_title e); [congruence|reflexivity].
Qed.

(** X14: running the fetcher again on the same feeds queues nothing: when
    the titles of the entries are non-empty and on one line, and no post has
    left the 72-hour window, a second cycle returns 0 and leaves the process
    as the first cycle left it. *)
Theorem fetch_again_queues_nothing :
  forall parseURL newObjectId ObjectId_toString now newObjectId2
         ObjectId_toString2 now2 feeds p,
  isRSSFetching p = false ->
  (forall f items e,
     In f feeds -> parseURL (feed_url f) = Some items -> In e (firstn 5 items) ->
     plain_title (item_title e)) ->
  (forall q, In q (posts (store p)) -> recent now q = true -> recent now2 q = true) ->
  fetchAndQueueRSS parseURL newObjectId2 ObjectId_toString2 now2 feeds
    (fst (fetchAndQueueRSS parseURL newObjectId ObjectId_toString now feeds p))
  = (fst (fetchAndQueueRSS parseURL newObjectId ObjectId_toString now feeds p), 0).
Proof.
  intros parseURL oid os now oid2 os2 now2 feeds p Hflag Hplain Hwindow.
  rewrite (fetchAndQueueRSS_entries _ oid os now _ _ Hflag). cbn [fst].
  rewrite fetchAndQueueRSS_entries by reflexivity. cbn [in_flight store].
  set (entries := feed_entries parseURL feeds).
  set (st := store p) in *.
  destruct (fetch_entries_account oid os now entries st (initial_memory now st))
    as (saved & Hst & Hsaved & Hu & Ht & _).
  assert (Hentry : forall e,
            In e (enqueued (snd (fetch_entries oid os now entries
                                   (st, initial_memory now st)))) ->
            plain_title (item_title e)).
  { intros e He. apply enqueued_In in He.
    apply (in_map fst) in He. rewrite fetch_entries_trace in He. cbn [fst] in He.
    apply in_map_iff in He as ([f e'] & E & Hin). cbn [snd] in E. subst e'.
    apply feed_entries_In in Hin as (Hf & items & Hparse & Hitem).
    apply (Hplain f items e Hf Hparse Hitem). }
  destruct (initial_memory_grows now now2 st _ saved Hsaved Hentry Hwindow)
    as [Hurls Htitles].
  rewrite <- Hu in Hurls. rewrite <- Ht in Htitles.
  rewrite Hst.
  rewrite (fetch_entries_known oid2 os2 now2 entries (Queue_insertMany saved st)
             (initial_memory now2 (Queue_insertMany saved st))).
  - reflexivity.
  - intros f e Hin.
    destruct (fetch_entries_covered oid os now entries st (initial_memory now st)
                f e Hin) as [Hlink | (t & Hin_t & Hrated)].
    + left. apply set_has_In. apply Hurls. exact Hlink.
    + right. apply (title_duplicate_above _ _ t); [|exact Hrated].
      apply Htitles. exact Hin_t.
Qed.

(** ** [Queue.insertMany] and the tweet fetcher *)

Lemma Queue_create_inr : forall st doc st1,
  Queue_create st doc = inr st1 ->
  st1 = Queue_insertMany [doc] st
  /\ queue_doc_valid doc = true
  /\ ~ In (id doc) (doc_ids (queue st)).
Proof.
  intros st doc st1 H. unfold Queue_create in H.
  destruct (queue_doc_valid doc); [|discriminate]. cbn [negb] in H.
  destruct (existsb _ _) eqn:E; [discriminate|].
  injection H as <-. repeat split.
  intros Hin. apply in_map_iff in Hin as (q & Eq & Hq).
  assert (existsb (fun q => str_eqb (id q) (id doc)) (queue st) = true).
  { apply existsb_exists. exists q. split; [exact Hq|]. apply str_eqb_eq. exact Eq. }
  congruence.
Qed.

Lemma Queue_create_fresh : forall st doc,
  queue_doc_valid doc = true -> ~ In (id doc) (doc_ids (queue st)) ->
  Queue_create st doc = inr (Queue_insertMany [doc] st).
Proof.
  intros st doc Hv Hfresh. unfold Queue_create. rewrite Hv. cbn [negb].
  destruct (existsb _ _) eqn:E; [|reflexivity].
  exfalso. apply Hfresh. apply existsb_exists in E as (q & Hq & Eq).
  apply str_eqb_eq in Eq. apply in_map_iff. exists q. split; assumption.
Qed.

Lemma doc_ids_app : forall a b, doc_ids (a ++ b) = doc_ids a ++ doc_ids b.
Proof. intros. apply map_app. Qed.

(** The ordered write adds a prefix of the documents, all of them when
    it does not throw, and keeps the ids of the queue distinct. *)
Lemma insert_ordered_prefix : forall docs st,
  exists saved rest,
    docs = saved ++ rest
    /\ fst (insert_ordered docs st) = Queue_insertMany saved st
    /\ (snd (insert_ordered docs st) = None -> rest = [])
    /\ (forall d, In d saved -> ~ In (id d) (doc_ids (queue st)))
    /\ (NoDup (doc_ids (queue st)) ->
        NoDup (doc_ids (queue (fst (insert_ordered docs st))))).
Proof.
  induction docs as [|doc docs IH]; intros st.
  - exists [], []. cbn. rewrite Queue_insertMany_nil. repeat split; tauto.
  - cbn [insert_ordered]. destruct (Queue_create st doc) as [m|st1] eqn:E.
    + exists [], (doc :: docs). cbn [fst snd app].
      rewrite Queue_insertMany_nil. repeat split; try tauto. discriminate.
    + apply Queue_create_inr in E as (-> & _ & Hfresh).
      destruct (IH (Queue_insertMany [doc] st))
        as (saved & rest & -> & Hst & Hnone & Hnew & Hnd).
      exists (doc :: saved), rest. rewrite Hst, Queue_insertMany_app.
      split; [reflexivity|]. split; [reflexivity|]. split; [exact Hnone|].
      split.
      * intros d [<-|Hd]; [exact Hfresh|].
        intros Hin. apply (Hnew d Hd).
        cbn [Queue_insertMany queue]. rewrite doc_ids_app. apply in_or_app.
        left. exact Hin.
      * intros Hq. rewrite <- Queue_insertMany_app, <- Hst. apply Hnd.
        cbn [Queue_insertMany queue]. rewrite doc_ids_app.
        apply NoDup_snoc; assumption.
Qed.

Lemma insert_ordered_all : forall docs st,
  NoDup (doc_ids docs) ->
  (forall d, In d docs -> queue_doc_valid d = true) ->
  (forall d, In d docs -> ~ In (id d) (doc_ids (queue st))) ->
  insert_ordered docs st = (Queue_insertMany docs st, None).
Proof.
  induction docs as [|doc docs IH]; intros st Hnd Hv Hfresh.
  - cbn. rewrite Queue_insertMany_nil. reflexivity.
  - cbn [insert_ordered].
    rewrite Queue_create_fresh
      by (try apply Hv; try apply Hfresh; left; reflexivity).
    inversion Hnd as [|? ? Hdoc Hnd']; subst.
    rewrite IH, Queue_insertMany_app; [reflexivity|exact Hnd'| |].
    + intros d Hd. apply Hv. right. exact Hd.
    + intros d Hd. cbn [Queue_insertMany queue]. rewrite doc_ids_app, in_app_iff.
      intros [Hin|[E|[]]].
      * apply (Hfresh d); [right; exact Hd|exact Hin].
      * apply Hdoc. rewrite E. apply in_map. exact Hd.
Qed.

Lemma Queue_insertMany_docs_prefix : forall docs st,
  exists saved rest,
    docs = saved ++ rest
    /\ fst (Queue_insertMany_docs docs st) = Queue_insertMany saved st
    /\ (snd (Queue_insertMany_docs docs st) = None -> rest = [])
    /\ (forall d, In d saved -> ~ In (id d) (doc_ids (queue st)))
    /\ (NoDup (doc_ids (queue st)) ->
        NoDup (doc_ids (queue (fst (Queue_insertMany_docs docs st))))).
Proof.
  intros docs st. unfold Queue_insertMany_docs.
  destruct (forallb queue_doc_valid docs); [apply insert_ordered_prefix|].
  exists [], docs. cbn [fst snd app]. rewrite Queue_insertMany_nil.
  repeat split; try tauto. discriminate.
Qed.

Lemma combine_seq_map : forall (A B : Type) (f : A -> B) (l : list A) k,
  map (fun kt : nat * A => f (snd kt)) (combine (seq k (length l)) l) = map f l.
Proof.
  intros A B f l; induction l as [|x l IH]; intros k; [reflexivity|].
  cbn [length seq combine map snd]. rewrite IH. reflexivity.
Qed.

Lemma tweet_queue_docs_ids : forall oid now userName tweets,
  doc_ids (tweet_queue_docs oid now userName tweets) = map tweet_id tweets.
Proof.
  intros. unfold doc_ids, tweet_queue_docs. rewrite map_map.
  apply (combine_seq_map _ _ tweet_id).
Qed.

Lemma tweet_queue_docs_length : forall oid now userName tweets,
  length (tweet_queue_docs oid now userName tweets) = length tweets.
Proof.
  intros. rewrite <- (length_map id). fold (doc_ids (tweet_queue_docs oid now userName tweets)).
  rewrite tweet_queue_docs_ids. apply length_map.
Qed.

Section TwitterFacts.

Variable last_tweets : str -> TwitterReply.
Variable Post_tweetId : Post -> option str.
Variable newObjectId : str -> nat -> nat.
Variable now : N.

Local Abbreviation one_handle :=
  (fetchAndQueueTweetsForHandle last_tweets Post_tweetId newObjectId now).
Local Abbreviation all_handles :=
  (fetchAllTwitterHandles last_tweets Post_tweetId newObjectId now).

Lemma fetchAndQueueTweetsForHandle_cases : forall userName st,
  one_handle userName st
  = let newTweets :=
      new_tweets Post_tweetId st (reply_tweets (last_tweets userName)) in
    if length newTweets =? 0 then (st, 0)
    else
      match Queue_insertMany_docs
              (tweet_queue_docs newObjectId now userName newTweets) st with
      | (st', None) => (st', length newTweets)
      | (st', Some _) => (st', 0)
      end.
Proof.
  intros userName st. unfold fetchAndQueueTweetsForHandle, reply_tweets.
  destruct (last_tweets userName) as [| |a b]; try reflexivity.
  cbv zeta.
  destruct (length (firstn 5 _) =? 0) eqn:E; [|reflexivity].
  apply Nat.eqb_eq in E. apply length_zero_iff_nil in E. rewrite E. reflexivity.
Qed.

Lemma reply_tweets_length : forall r, length (reply_tweets r) <= 5.
Proof.
  intros [| |a b]; cbn [reply_tweets length]; try lia. apply firstn_le_length.
Qed.

Lemma new_tweets_length : forall st tweets,
  length (new_tweets Post_tweetId st tweets) <= length tweets.
Proof. intros. apply filter_length_le. Qed.

(** A new tweet is neither queued nor posted. *)
Lemma new_tweets_fresh : forall st tweets t,
  In t (new_tweets Post_tweetId st tweets) ->
  In t tweets
  /\ ~ In (tweet_id t) (doc_ids (queue st))
  /\ forall p, In p (posts st) -> Post_tweetId p <> Some (tweet_id t).
Proof.
  intros st tweets t H. unfold new_tweets in H.
  apply filter_In in H as [Ht Hnew]. apply negb_true_iff in Hnew.
  apply set_has_not_In in Hnew. split; [exact Ht|].
  assert (Hid : set_has (map tweet_id tweets) (tweet_id t) = true)
    by (apply set_has_In; apply in_map; exact Ht).
  split.
  - intros Hin. apply Hnew. apply in_or_app. right.
    unfold queuedIds. apply nodup_In.
    apply in_map_iff in Hin as (q & Eq & Hq).
    apply in_map_iff. exists q. split; [exact Eq|].
    apply filter_In. split; [exact Hq|]. rewrite Eq. exact Hid.
  - intros p Hp E. apply Hnew. apply in_or_app. left.
    unfold postedIds. apply nodup_In. apply in_flat_map.
    exists p. split; [exact Hp|]. rewrite E, Hid. left. reflexivity.
Qed.

(** A tweet that is queued is not new. *)
Lemma new_tweets_queued : forall st tweets t,
  In t tweets -> In (tweet_id t) (doc_ids (queue st)) ->
  ~ In t (new_tweets Post_tweetId st tweets).
Proof.
  intros st tweets t Ht Hin H. apply new_tweets_fresh in H as (_ & Hq & _).
  exact (Hq Hin).
Qed.

(** What one call does. *)
Lemma fetchAndQueueTweetsForHandle_effect : forall userName st,
  exists saved,
    fst (one_handle userName st) = Queue_insertMany saved st
    /\ length saved <= 5
    /\ snd (one_handle userName st) <= length saved
    /\ (forall d, In d saved ->
          ~ In (id d) (doc_ids (queue st))
          /\ forall p, In p (posts st) -> Post_tweetId p <> Some (id d))
    /\ (NoDup (doc_ids (queue st)) ->
        NoDup (doc_ids (queue (fst (one_handle userName st))))).
Proof.
  intros userName st. rewrite fetchAndQueueTweetsForHandle_cases. cbv zeta.
  set (tweets := reply_tweets (last_tweets userName)).
  set (newTweets := new_tweets Post_tweetId st tweets).
  destruct (length newTweets =? 0) eqn:E0.
  - exists []. cbn [fst snd length]. rewrite Queue_insertMany_nil.
    repeat split; try tauto; try lia; contradiction.
  - destruct (Queue_insertMany_docs_prefix
                (tweet_queue_docs newObjectId now userName newTweets) st)
      as (saved & rest & Hdocs & Hst & Hnone & Hnew & Hnd).
    assert (Hlen : length saved + length rest = length newTweets).
    { rewrite <- length_app, <- Hdocs. apply tweet_queue_docs_length. }
    assert (Hfive : length newTweets <= 5).
    { pose proof (new_tweets_length st tweets).
      pose proof (reply_tweets_length (last_tweets userName)).
      fold tweets in H0. fold newTweets in H. lia. }
    exists saved.
    destruct (Queue_insertMany_docs _ st) as [st' [m|]] eqn:Eins;
      cbn [fst snd] in *.
    + split; [exact Hst|]. split; [lia|]. split; [lia|]. split; [|exact Hnd].
      intros d Hd. split; [apply Hnew; exact Hd|].
      assert (Hin : In (id d) (map tweet_id newTweets)).
      { rewrite <- (tweet_queue_docs_ids newObjectId now userName), Hdocs. unfold doc_ids.
        rewrite map_app. apply in_or_app. left. apply in_map. exact Hd. }
      apply in_map_iff in Hin as (t & <- & Ht).
      apply new_tweets_fresh in Ht. apply Ht.
    + rewrite (Hnone eq_refl) in *. cbn [length] in Hlen.
      split; [exact Hst|]. split; [lia|]. split; [lia|]. split; [|exact Hnd].
      intros d Hd. split; [apply Hnew; exact Hd|].
      assert (Hin : In (id d) (map tweet_id newTweets)).
      { rewrite <- (tweet_queue_docs_ids newObjectId now userName), Hdocs. unfold doc_ids.
        rewrite map_app. apply in_or_app. left. apply in_map. exact Hd. }
      apply in_map_iff in Hin as (t & <- & Ht).
      apply new_tweets_fresh in Ht. apply Ht.
Qed.

Lemma fetchAllTwitterHandles_cons : forall handle rest st,
  all_handles (handle :: rest) st
  = (fst (all_handles rest (fst (one_handle handle st))),
     snd (one_handle handle st) + snd (all_handles rest (fst (one_handle handle st)))).
Proof.
  intros. cbn [fetchAllTwitterHandles].
  destruct (one_handle handle st) as [st1 n]. cbn [fst snd].
  destruct (all_handles rest st1). reflexivity.
Qed.

Lemma fetchAllTwitterHandles_effect : forall handles st,
  exists saved,
    fst (all_handles handles st) = Queue_insertMany saved st
    /\ length saved <= 5 * length handles
    /\ snd (all_handles handles st) <= length saved
    /\ (forall d, In d saved ->
          ~ In (id d) (doc_ids (queue st))
          /\ forall p, In p (posts st) -> Post_tweetId p <> Some (id d))
    /\ (NoDup (doc_ids (queue st)) ->
        NoDup (doc_ids (queue (fst (all_handles handles st))))).
Proof.
  induction handles as [|handle rest IH]; intros st.
  - exists []. cbn. rewrite Queue_insertMany_nil. repeat split; try tauto; lia.
  - rewrite fetchAllTwitterHandles_cons. cbn [fst snd].
    destruct (fetchAndQueueTweetsForHandle_effect handle st)
      as (s1 & Hst1 & Hl1 & Hn1 & Hnew1 & Hnd1).
    destruct (IH (fst (one_handle handle st)))
      as (s2 & Hst2 & Hl2 & Hn2 & Hnew2 & Hnd2).
    exists (s1 ++ s2). rewrite length_app.
    split; [rewrite Hst2, Hst1, Queue_insertMany_app; reflexivity|].
    split; [cbn [length]; lia|]. split; [lia|]. split.
    + intros d Hd. apply in_app_or in Hd as [Hd|Hd]; [apply Hnew1; exact Hd|].
      destruct (Hnew2 d Hd) as [Hq Hp]. rewrite Hst1 in Hq, Hp.
      cbn [Queue_insertMany queue posts] in Hq, Hp. split; [|exact Hp].
      intros Hin. apply Hq. rewrite doc_ids_app. apply in_or_app. left. exact Hin.
    + intros Hq. apply Hnd2. apply Hnd1. exact Hq.
Qed.

End TwitterFacts.

Lemma NoDup_map_filter : forall (A B : Type) (f : A -> B) (p : A -> bool) l,
  NoDup (map f l) -> NoDup (map f (filter p l)).
Proof.
  intros A B f p l; induction l as [|x l IH]; intros H; [constructor|].
  inversion H as [|? ? Hx Hl]; subst. cbn [filter].
  destruct (p x); [|apply IH; exact Hl]. cbn [map]. constructor.
  - intros Hin. apply Hx. apply in_map_iff in Hin as (y & E & Hy).
    apply filter_In in Hy as [Hy _]. apply in_map_iff. exists y. split; assumption.
  - apply IH. exact Hl.
Qed.

Lemma no_member_nil : forall (A : Type) (l : list A),
  (forall x, ~ In x l) -> l = [].
Proof.
  intros A [|x l] H; [reflexivity|]. exfalso. apply (H x). left. reflexivity.
Qed.

Lemma tweet_queue_docs_valid : forall oid now userName tweets,
  forallb queue_doc_valid (tweet_queue_docs oid now userName tweets)
  = forallb (fun t => truthy (tweet_id t)) tweets.
Proof.
  intros oid now userName tweets. unfold tweet_queue_docs.
  generalize 0. induction tweets as [|t tweets IH]; intros k; [reflexivity|].
  cbn [length seq combine map forallb fst snd]. rewrite IH.
  unfold queue_doc_valid at 1. cbn. rewrite andb_true_r. reflexivity.
Qed.

Section TwitterCalls.

Variable last_tweets : str -> TwitterReply.
Variable Post_tweetId : Post -> option str.
Variable newObjectId : str -> nat -> nat.
Variable now : N.

Local Abbreviation one_handle :=
  (fetchAndQueueTweetsForHandle last_tweets Post_tweetId newObjectId now).

Lemma new_tweets_In : forall st tweets t,
  In t tweets ->
  ~ In (tweet_id t) (doc_ids (queue st)) ->
  (forall p, In p (posts st) -> Post_tweetId p <> Some (tweet_id t)) ->
  In t (new_tweets Post_tweetId st tweets).
Proof.
  intros st tweets t Ht Hq Hp. unfold new_tweets. apply filter_In.
  split; [exact Ht|]. apply negb_true_iff. apply set_has_not_In.
  intros Hin. apply in_app_or in Hin as [Hin|Hin].
  - unfold postedIds in Hin. apply nodup_In in Hin.
    apply in_flat_map in Hin as (p & Hin_p & Hin).
    destruct (Post_tweetId p) as [i|] eqn:E; [|contradiction].
    destruct (set_has _ i); [|contradiction].
    destruct Hin as [->|[]]. exact (Hp p Hin_p E).
  - unfold queuedIds in Hin. apply nodup_In in Hin.
    apply in_map_iff in Hin as (q & Eq & Hin_q).
    apply filter_In in Hin_q as [Hin_q _]. apply Hq.
    apply in_map_iff. exists q. split; assumption.
Qed.

(** With distinct tweet ids the write never meets the unique index. *)
Lemma fetchAndQueueTweetsForHandle_distinct : forall userName st,
  NoDup (map tweet_id (reply_tweets (last_tweets userName))) ->
  one_handle userName st
  = let newTweets :=
      new_tweets Post_tweetId st (reply_tweets (last_tweets userName)) in
    if forallb queue_doc_valid (tweet_queue_docs newObjectId now userName newTweets)
    then (Queue_insertMany (tweet_queue_docs newObjectId now userName newTweets) st,
          length newTweets)
    else (st, 0).
Proof.
  intros userName st Hnd. rewrite fetchAndQueueTweetsForHandle_cases. cbv zeta.
  set (newTweets := new_tweets Post_tweetId st (reply_tweets (last_tweets userName))).
  destruct (length newTweets =? 0) eqn:E0.
  - apply Nat.eqb_eq in E0. apply length_zero_iff_nil in E0. rewrite E0.
    cbn. rewrite Queue_insertMany_nil. reflexivity.
  - unfold Queue_insertMany_docs.
    destruct (forallb queue_doc_valid _) eqn:Ev; [|reflexivity].
    rewrite insert_ordered_all; [reflexivity| | |].
    + rewrite tweet_queue_docs_ids. apply NoDup_map_filter. exact Hnd.
    + intros d Hd. rewrite forallb_forall in Ev. apply Ev. exact Hd.
    + intros d Hd.
      assert (Hin : In (id d) (map tweet_id newTweets)).
      { rewrite <- (tweet_queue_docs_ids newObjectId now userName).
        apply in_map. exact Hd. }
      apply in_map_iff in Hin as (t & <- & Ht).
      apply new_tweets_fresh in Ht. apply Ht.
Qed.

End TwitterCalls.

(** X15: one pass over the handles adds documents at the end of the queue,
    at most five per handle, leaves the posts alone, and returns no more than
    the number of documents it added. *)
Theorem fetchAllTwitterHandles_bounded :
  forall last_tweets Post_tweetId newObjectId now handles st,
  exists saved,
    fst (fetchAllTwitterHandles last_tweets Post_tweetId newObjectId now handles st)
    = Queue_insertMany saved st
    /\ length saved <= 5 * length handles
    /\ snd (fetchAllTwitterHandles last_tweets Post_tweetId newObjectId now
              handles st)
       <= length saved.
Proof.
  intros last_tweets Post_tweetId newObjectId now handles st.
  destruct (fetchAllTwitterHandles_effect last_tweets Post_tweetId newObjectId now
              handles st) as (saved & Hst & Hlen & Hn & _).
  exists saved. repeat split; assumption.
Qed.


(** X17: when the tweets of the reply have distinct ids, the number a call
    returns is the number of documents it added, and these are the documents
    of the new tweets or none at all. *)
Theorem fetchAndQueueTweetsForHandle_count :
  forall last_tweets Post_tweetId newObjectId now userName st,
  NoDup (map tweet_id (reply_tweets (last_tweets userName))) ->
  exists saved,
    fst (fetchAndQueueTweetsForHandle last_tweets Post_tweetId newObjectId now
           userName st)
    = Queue_insertMany saved st
    /\ snd (fetchAndQueueTweetsForHandle last_tweets Post_tweetId newObjectId now
              userName st)
       = length saved
    /\ (saved = []
        \/ saved
           = tweet_queue_docs newObjectId now userName
               (new_tweets Post_tweetId st (reply_tweets (last_tweets userName)))).
Proof.
  intros last_tweets Post_tweetId newObjectId now userName st Hnd.
  rewrite (fetchAndQueueTweetsForHandle_distinct _ _ _ _ _ _ Hnd). cbv zeta.
  destruct (forallb queue_doc_valid _).
  - eexists. split; [reflexivity|]. cbn [snd].
    split; [symmetry; apply tweet_queue_docs_length|right; reflexivity].
  - exists []. cbn [fst snd length]. rewrite Queue_insertMany_nil.
    split; [reflexivity|]. split; [reflexivity|left; reflexivity].
Qed.

(** X18: when the tweets of the reply have distinct ids, a second call for
    the same handle returns 0 and leaves the store as the first call left
    it. *)
Theorem fetchAndQueueTweetsForHandle_again :
  forall last_tweets Post_tweetId newObjectId now newObjectId2 now2 userName st,
  NoDup (map tweet_id (reply_tweets (last_tweets userName))) ->
  fetchAndQueueTweetsForHandle last_tweets Post_tweetId newObjectId2 now2 userName
    (fst (fetchAndQueueTweetsForHandle last_tweets Post_tweetId newObjectId now
            userName st))
  = (fst (fetchAndQueueTweetsForHandle last_tweets Post_tweetId newObjectId now
            userName st), 0).
Proof.
  intros last_tweets Post_tweetId oid now oid2 now2 userName st Hnd.
  rewrite (fetchAndQueueTweetsForHandle_distinct _ _ oid now _ st Hnd). cbv zeta.
  set (tweets := reply_tweets (last_tweets userName)) in *.
  set (newTweets := new_tweets Post_tweetId st tweets).
  destruct (forallb queue_doc_valid (tweet_queue_docs oid now userName newTweets))
    eqn:Ev; cbn [fst].
  - rewrite fetchAndQueueTweetsForHandle_cases. cbv zeta. fold tweets.
    replace (new_tweets Post_tweetId
               (Queue_insertMany (tweet_queue_docs oid now userName newTweets) st)
               tweets) with (@nil Tweet); [reflexivity|].
    symmetry. apply no_member_nil. intros t Ht.
    apply new_tweets_fresh in Ht as (Hin & Hq & Hp).
    cbn [Queue_insertMany queue posts] in Hq, Hp.
    rewrite doc_ids_app, in_app_iff, tweet_queue_docs_ids in Hq.
    apply Hq. right. apply in_map.
    apply new_tweets_In; [exact Hin| |exact Hp].
    intros Hold. apply Hq. left. exact Hold.
  - rewrite (fetchAndQueueTweetsForHandle_distinct _ _ oid2 now2 _ st Hnd).
    cbv zeta. fold tweets. fold newTweets.
    replace (forallb queue_doc_valid (tweet_queue_docs oid2 now2 userName newTweets))
      with false; [reflexivity|].
    rewrite <- Ev, !tweet_queue_docs_valid. reflexivity.
Qed.

(** ** Tags *)

Lemma tag_slug_char_of : forall c,
  is_word_or_hyphen
    (if Ascii.eqb (to_lower_char c) " " then "-" else to_lower_char c) = true ->
  tag_slug_char
    (if Ascii.eqb (to_lower_char c) " " then "-" else to_lower_char c) = true.
Proof. intros c; by_cases_on_char c. Qed.

Lemma tag_slug_char_fixed : forall c,
  tag_slug_char c = true ->
  (if Ascii.eqb (to_lower_char c) " " then "-" else to_lower_char c) = c
  /\ is_word_or_hyphen c = true.
Proof. intros c; by_cases_on_char c. Qed.

Lemma tag_slug_of_chars : forall name,
  forallb tag_slug_char (tag_slug_of name) = true.
Proof.
  intros name. unfold tag_slug_of, replace_char, toLowerCase. rewrite map_map.
  induction name as [|c name IH]; [reflexivity|].
  cbn [map filter].
  destruct (is_word_or_hyphen _) eqn:E; [|exact IH].
  cbn [forallb]. rewrite (tag_slug_char_of c E), IH. reflexivity.
Qed.

Lemma tag_slug_of_fixed : forall x,
  forallb tag_slug_char x = true -> tag_slug_of x = x.
Proof.
  intros x. unfold tag_slug_of, replace_char, toLowerCase. rewrite map_map.
  induction x as [|c x IH]; intros H; [reflexivity|].
  cbn [forallb] in H. apply andb_true_iff in H as [Hc Hx].
  cbn [map filter]. destruct (tag_slug_char_fixed c Hc) as [-> ->].
  rewrite (IH Hx). reflexivity.
Qed.

(** X19: the slug of a tag name is made of lower-case letters, digits,
    underscores and hyphens, and is its own slug. *)
Theorem tag_slug_of_normal_form : forall name,
  forallb tag_slug_char (tag_slug_of name) = true
  /\ tag_slug_of (tag_slug_of name) = tag_slug_of name.
Proof.
  intros name. split; [apply tag_slug_of_chars|].
  apply tag_slug_of_fixed. apply tag_slug_of_chars.
Qed.

Lemma Tag_create_inr : forall oid tags name slug tags1 tag,
  Tag_create oid tags name slug = inr (tags1, tag) ->
  tag = mkTag oid name slug /\ tags1 = tags ++ [tag]
  /\ name <> [] /\ slug <> []
  /\ ~ In name (map tag_name tags) /\ ~ In slug (map tag_slug tags).
Proof.
  intros oid tags name slug tags1 tag H. unfold Tag_create in H.
  destruct name as [|c name]; [discriminate|].
  destruct slug as [|d slug]; [discriminate|]. cbn [truthy negb orb] in H.
  destruct (existsb _ tags) eqn:E; [discriminate|].
  injection H as <- <-. repeat split; try discriminate.
  - intros Hin. apply in_map_iff in Hin as (t & Et & Ht).
    assert (existsb (fun t => str_eqb (tag_name t) (c :: name)
                              || str_eqb (tag_slug t) (d :: slug)) tags = true).
    { apply existsb_exists. exists t. split; [exact Ht|].
      rewrite Et, str_eqb_refl. reflexivity. }
    congruence.
  - intros Hin. apply in_map_iff in Hin as (t & Et & Ht).
    assert (existsb (fun t => str_eqb (tag_name t) (c :: name)
                              || str_eqb (tag_slug t) (d :: slug)) tags = true).
    { apply existsb_exists. exists t. split; [exact Ht|].
      rewrite Et, str_eqb_refl. apply orb_true_r. }
    congruence.
Qed.

Lemma Tag_findOne_Some : forall tags slug t,
  Tag_findOne tags slug = Some t -> In t tags /\ tag_slug t = slug.
Proof.
  intros tags slug t H. unfold Tag_findOne in H. apply find_some in H as [Hin E].
  apply str_eqb_eq in E. split; assumption.
Qed.

Lemma Tag_findOne_app : forall tags extra slug,
  Tag_findOne tags slug <> None -> Tag_findOne (tags ++ extra) slug <> None.
Proof.
  intros tags extra slug H. unfold Tag_findOne in *.
  induction tags as [|t tags IH]; [exfalso; apply H; reflexivity|].
  cbn [app find] in *.
  destruct (str_eqb (tag_slug t) slug); [discriminate|]. apply IH. exact H.
Qed.

Lemma Tag_findOne_last : forall tags oid name slug,
  Tag_findOne (tags ++ [mkTag oid name slug]) slug <> None.
Proof.
  intros tags oid name slug. unfold Tag_findOne.
  induction tags as [|t tags IH]; cbn [app find tag_slug].
  - rewrite str_eqb_refl. discriminate.
  - destruct (str_eqb (tag_slug t) slug); [discriminate|exact IH].
Qed.

Lemma Tag_create_inl_app : forall oid oid' tags extra name slug message,
  Tag_create oid tags name slug = inl message ->
  exists message', Tag_create oid' (tags ++ extra) name slug = inl message'.
Proof.
  intros oid oid' tags extra name slug message H. unfold Tag_create in *.
  destruct (negb (truthy name) || negb (truthy slug)); [eexists; reflexivity|].
  rewrite existsb_app.
  destruct (existsb _ tags); [eexists; reflexivity|discriminate].
Qed.

Lemma tag_settled_app : forall tags extra name,
  tag_settled tags name -> tag_settled (tags ++ extra) name.
Proof.
  intros tags extra name [H|H].
  - left. apply Tag_findOne_app. exact H.
  - right. intros oid. destruct (H oid) as (m & Hm).
    apply (Tag_create_inl_app oid oid tags extra _ _ m Hm).
Qed.

Section TagLoop.

Variable newObjectId : nat -> nat.

Local Abbreviation loop := (getOrCreateTags_loop newObjectId).

(** One iteration: the tag found, the tag created, or nothing. *)
Lemma getOrCreateTags_loop_cons : forall k name rest tags tagIds,
  (exists t, Tag_findOne tags (tag_slug_of name) = Some t
             /\ loop k (name :: rest) tags tagIds
                = loop (S k) rest tags (tagIds ++ [tag_id t]))
  \/ (Tag_findOne tags (tag_slug_of name) = None
      /\ Tag_create (newObjectId k) tags name (tag_slug_of name)
         = inr (tags ++ [mkTag (newObjectId k) name (tag_slug_of name)],
                mkTag (newObjectId k) name (tag_slug_of name))
      /\ loop k (name :: rest) tags tagIds
         = loop (S k) rest
             (tags ++ [mkTag (newObjectId k) name (tag_slug_of name)])
             (tagIds ++ [newObjectId k]))
  \/ (Tag_findOne tags (tag_slug_of name) = None
      /\ (exists message,
            Tag_create (newObjectId k) tags name (tag_slug_of name) = inl message)
      /\ loop k (name :: rest) tags tagIds = loop (S k) rest tags tagIds).
Proof.
  intros k name rest tags tagIds. cbn [getOrCreateTags_loop].
  destruct (Tag_findOne tags (tag_slug_of name)) as [t|] eqn:Ef.
  - left. exists t. split; reflexivity.
  - right.
    destruct (Tag_create (newObjectId k) tags name (tag_slug_of name))
      as [m|[tags1 tag]] eqn:Ec.
    + right. split; [reflexivity|]. split; [exists m; reflexivity|reflexivity].
    + left. destruct (Tag_create_inr _ _ _ _ _ _ Ec) as (-> & -> & _).
      split; [reflexivity|]. split; reflexivity.
Qed.

Lemma getOrCreateTags_loop_extends : forall names k tags tagIds,
  exists extra created,
    fst (loop k names tags tagIds) = tags ++ extra
    /\ snd (loop k names tags tagIds) = tagIds ++ created
    /\ length extra <= length created <= length names
    /\ (forall i, In i created ->
          exists t name,
            In t (tags ++ extra) /\ In name names
            /\ tag_id t = i /\ tag_slug t = tag_slug_of name)
    /\ (tags_consistent tags -> tags_consistent (tags ++ extra)).
Proof.
  induction names as [|name rest IH]; intros k tags tagIds.
  - exists [], []. cbn [getOrCreateTags_loop fst snd length]. rewrite !app_nil_r.
    split; [reflexivity|]. split; [reflexivity|]. split; [lia|].
    split; [intros i []|tauto].
  - destruct (getOrCreateTags_loop_cons k name rest tags tagIds)
      as [(t & Ef & ->) | [(Ef & Ec & ->) | (Ef & _ & ->)]].
    + destruct (IH (S k) tags (tagIds ++ [tag_id t]))
        as (extra & created & Hst & Hids & Hlen & Hin & Hcons).
      exists extra, (tag_id t :: created). rewrite Hst, Hids, <- app_assoc.
      split; [reflexivity|]. split; [reflexivity|]. split; [cbn [length]; lia|].
      split; [|exact Hcons].
      intros i [<-|Hi].
      * apply Tag_findOne_Some in Ef as [Ht Es]. exists t, name.
        split; [apply in_or_app; left; exact Ht|].
        split; [left; reflexivity|]. split; [reflexivity|exact Es].
      * destruct (Hin i Hi) as (t' & name' & H1 & H2 & H3 & H4).
        exists t', name'. repeat split; try assumption. right. exact H2.
    + destruct (IH (S k) (tags ++ [mkTag (newObjectId k) name (tag_slug_of name)])
                  (tagIds ++ [newObjectId k]))
        as (extra & created & Hst & Hids & Hlen & Hin & Hcons).
      exists (mkTag (newObjectId k) name (tag_slug_of name) :: extra),
             (newObjectId k :: created).
      rewrite Hst, Hids, <- !app_assoc.
      split; [reflexivity|]. split; [reflexivity|]. split; [cbn [length]; lia|].
      split.
      * intros i [<-|Hi].
        -- exists (mkTag (newObjectId k) name (tag_slug_of name)), name.
           split; [apply in_or_app; right; left; reflexivity|].
           split; [left; reflexivity|]. split; reflexivity.
        -- destruct (Hin i Hi) as (t' & name' & H1 & H2 & H3 & H4).
           exists t', name'. rewrite <- app_assoc in H1.
           repeat split; try assumption. right. exact H2.
      * intros Hc.
        change (tags ++ mkTag (newObjectId k) name (tag_slug_of name) :: extra)
          with (tags ++ [mkTag (newObjectId k) name (tag_slug_of name)] ++ extra).
        rewrite app_assoc. apply Hcons.
        destruct (Tag_create_inr _ _ _ _ _ _ Ec) as (_ & _ & Hn & Hs & Hnew_n & Hnew_s).
        destruct Hc as (Hnames & Hslugs & Hne).
        split; [|split].
        -- rewrite map_app. apply NoDup_snoc; assumption.
        -- rewrite map_app. apply NoDup_snoc; assumption.
        -- apply Forall_app. split; [exact Hne|].
           constructor; [split; assumption|constructor].
    + destruct (IH (S k) tags tagIds)
        as (extra & created & Hst & Hids & Hlen & Hin & Hcons).
      exists extra, created. rewrite Hst, Hids.
      split; [reflexivity|]. split; [reflexivity|]. split; [cbn [length]; lia|].
      split; [|exact Hcons].
      intros i Hi. destruct (Hin i Hi) as (t' & name' & H1 & H2 & H3 & H4).
      exists t', name'. repeat split; try assumption. right. exact H2.
Qed.

(** After the loop every name is settled in the collection it leaves. *)
Lemma getOrCreateTags_loop_settles : forall names k tags tagIds name,
  In name names -> tag_settled (fst (loop k names tags tagIds)) name.
Proof.
  induction names as [|n rest IH]; intros k tags tagIds name Hin; [contradiction|].
  destruct Hin as [->|Hin].
  - destruct (getOrCreateTags_loop_cons k name rest tags tagIds)
      as [(t & Ef & ->) | [(Ef & Ec & ->) | (Ef & (m & Ec) & ->)]];
      match goal with
      | |- tag_settled (fst (loop ?k' rest ?tags' ?ids')) _ =>
          destruct (getOrCreateTags_loop_extends rest k' tags' ids')
            as (extra & created & -> & _)
      end;
      apply tag_settled_app.
    + left. rewrite Ef. discriminate.
    + left. apply Tag_findOne_last.
    + right. intros oid.
      destruct (Tag_create_inl_app (newObjectId k) oid tags [] _ _ m Ec) as (m' & Hm').
      rewrite app_nil_r in Hm'. exists m'. exact Hm'.
  - destruct (getOrCreateTags_loop_cons k n rest tags tagIds)
      as [(t & Ef & ->) | [(Ef & Ec & ->) | (Ef & _ & ->)]];
      apply IH; exact Hin.
Qed.

End TagLoop.

(** Names that are all settled leave the collection as it is. *)
Lemma getOrCreateTags_loop_settled : forall newObjectId names k tags tagIds,
  (forall name, In name names -> tag_settled tags name) ->
  fst (getOrCreateTags_loop newObjectId k names tags tagIds) = tags.
Proof.
  intros newObjectId. induction names as [|name rest IH]; intros k tags tagIds H;
    [reflexivity|].
  destruct (getOrCreateTags_loop_cons newObjectId k name rest tags tagIds)
    as [(t & Ef & ->) | [(Ef & Ec & ->) | (Ef & _ & ->)]].
  - apply IH. intros n Hn. apply H. right. exact Hn.
  - exfalso. destruct (H name (or_introl eq_refl)) as [Hf|Hc]; [congruence|].
    destruct (Hc (newObjectId k)) as (m & Hm). congruence.
  - apply IH. intros n Hn. apply H. right. exact Hn.
Qed.

(** X20: a call adds at most one tag per name and returns at most one id per
    name; every id returned is the id of a stored tag whose slug is the slug
    of one of the names. *)
Theorem getOrCreateTags_ids : forall newObjectId tagNames tags,
  exists extra,
    fst (getOrCreateTags newObjectId tagNames tags) = tags ++ extra
    /\ length extra <= length (snd (getOrCreateTags newObjectId tagNames tags))
    /\ length (snd (getOrCreateTags newObjectId tagNames tags))
       <= length (match tagNames with Some names => names | None => [] end)
    /\ forall i, In i (snd (getOrCreateTags newObjectId tagNames tags)) ->
         exists t name,
           In t (fst (getOrCreateTags newObjectId tagNames tags))
           /\ In name (match tagNames with Some names => names | None => [] end)
           /\ tag_id t = i /\ tag_slug t = tag_slug_of name.
Proof.
  intros newObjectId [names|] tags; cbn [getOrCreateTags].
  - destruct (getOrCreateTags_loop_extends newObjectId names 0 tags [])
      as (extra & created & Hst & Hids & Hlen & Hin & _).
    exists extra. rewrite Hst, Hids. cbn [app].
    split; [reflexivity|]. split; [lia|]. split; [lia|exact Hin].
  - exists []. cbn [fst snd length]. rewrite app_nil_r.
    split; [reflexivity|]. split; [lia|]. split; [lia|intros i []].
Qed.

(** X21: the unique names, the unique slugs and the required paths of the
    tags hold after a call when they held before. *)
Theorem getOrCreateTags_keeps_unique : forall newObjectId tagNames tags,
  tags_consistent tags ->
  tags_consistent (fst (getOrCreateTags newObjectId tagNames tags)).
Proof.
  intros newObjectId [names|] tags H; cbn [getOrCreateTags fst]; [|exact H].
  destruct (getOrCreateTags_loop_extends newObjectId names 0 tags [])
    as (extra & created & Hst & _ & _ & _ & Hcons).
  rewrite Hst. apply Hcons. exact H.
Qed.

(** X22: a second call with the same names creates nothing: it leaves the
    collection as the first call left it. *)
Theorem getOrCreateTags_again : forall newObjectId newObjectId2 tagNames tags,
  fst (getOrCreateTags newObjectId2 tagNames
         (fst (getOrCreateTags newObjectId tagNames tags)))
  = fst (getOrCreateTags newObjectId tagNames tags).
Proof.
  intros newObjectId newObjectId2 [names|] tags; cbn [getOrCreateTags fst];
    [|reflexivity].
  apply getOrCreateTags_loop_settled. intros name Hin.
  apply getOrCreateTags_loop_settles. exact Hin.
Qed.

(** ** The queue controller *)

Lemma delete_by_id_last : forall q doc,
  ~ In (id doc) (doc_ids q) -> delete_by_id (id doc) (q ++ [doc]) = q.
Proof.
  induction q as [|x q IH]; intros doc H; cbn [app delete_by_id].
  - rewrite str_eqb_refl. reflexivity.
  - destruct (str_eqb (id x) (id doc)) eqn:E.
    + apply str_eqb_eq in E. exfalso. apply H. left. exact E.
    + rewrite IH; [reflexivity|]. intros Hin. apply H. right. exact Hin.
Qed.

Lemma Queue_create_delete : forall st doc st',
  Queue_create st doc = inr st' ->
  fst (deleteQueueItem (id doc) st') = st.
Proof.
  intros st doc st' H. apply Queue_create_inr in H as (-> & _ & Hfresh).
  unfold deleteQueueItem. cbn [fst Queue_insertMany queue posts].
  rewrite delete_by_id_last by exact Hfresh. destruct st; reflexivity.
Qed.

(** X23: deleting the document a manual handler has just queued, by the
    [queueId] of its answer, gives the store back. *)
Theorem add_then_delete_restores :
  forall newObjectId ObjectId_toString now text_body body st st1 i,
  (st1 = fst (addToQueue newObjectId ObjectId_toString now text_body st)
   /\ res_queueId (snd (addToQueue newObjectId ObjectId_toString now text_body st))
      = Some i)
  \/ (st1 = fst (addUrlToQueue newObjectId ObjectId_toString now body st)
      /\ res_queueId (snd (addUrlToQueue newObjectId ObjectId_toString now body st))
         = Some i) ->
  fst (deleteQueueItem i st1) = st.
Proof.
  intros oid os now text_body body st st1 i [[-> H]|[-> H]].
  - unfold addToQueue in *.
    destruct (tb_text text_body) as [text|]; [|discriminate].
    destruct (truthy text); [|discriminate].
    destruct (Queue_create st _) as [m|st'] eqn:E; [discriminate|].
    cbn [fst snd res_queueId] in *. injection H as <-.
    apply (Queue_create_delete _ _ _ E).
  - unfold addUrlToQueue, create_and_answer in *.
    destruct (no_content_or_url body); [discriminate|].
    destruct (Queue_create st _) as [m|st'] eqn:E; [discriminate|].
    cbn [fst snd res_queueId] in *. injection H as <-.
    apply (Queue_create_delete _ _ _ E).
Qed.

(** ** The fuzzy pass of the duplicate finder *)

Lemma checked_In : forall c i, checked c i = true <-> In i c.
Proof.
  intros c i. unfold checked. rewrite existsb_exists. split.
  - intros (j & Hj & E). apply N.eqb_eq in E. subst j. exact Hj.
  - intros H. exists i. split; [exact H|apply N.eqb_refl].
Qed.

Lemma checked_not_In : forall c i, checked c i = false <-> ~ In i c.
Proof.
  intros c i. rewrite <- checked_In. destruct (checked c i); split; congruence.
Qed.

Lemma duplicate_ids_app : forall a b,
  duplicate_ids (a ++ b) = duplicate_ids a ++ duplicate_ids b.
Proof. intros. apply map_app. Qed.

(** The inner loop. *)
Lemma scan_after_spec : forall postA later c f c1 f1,
  scan_after postA later (c, f) = Some (c1, f1) ->
  exists new,
    f1 = f ++ new /\ c1 = c ++ duplicate_ids new
    /\ (forall d, In d new ->
          original d = postA /\ In (duplicate d) later /\ rated_pair d)
    /\ (NoDup c -> NoDup c1)
    /\ (forall postB, In postB later -> ~ In (postId postB) c1 ->
          dissimilar postA postB).
Proof.
  intros postA. induction later as [|postB rest IH]; intros c f c1 f1 H.
  - injection H as <- <-. exists []. rewrite !app_nil_r.
    split; [reflexivity|]. split; [reflexivity|].
    split; [intros d []|]. split; [tauto|]. intros B [].
  - cbn [scan_after] in H.
    destruct (checked c (postId postB)) eqn:Ec.
    + destruct (IH _ _ _ _ H) as (new & -> & -> & Hnew & Hnd & Hdis).
      exists new. split; [reflexivity|]. split; [reflexivity|].
      split; [|split; [exact Hnd|]].
      * intros d Hd. destruct (Hnew d Hd) as (H1 & H2 & H3).
        split; [exact H1|]. split; [right; exact H2|exact H3].
      * intros B [<-|HB] Hnot; [|apply Hdis; assumption].
        exfalso. apply Hnot. apply in_or_app. left. apply checked_In. exact Ec.
    + destruct (title postA) as [a|] eqn:Ea; [|discriminate].
      destruct (title postB) as [b|] eqn:Eb; [|discriminate].
      destruct (Qgtb (compareTwoStrings a b) FUZZY_THRESHOLD) eqn:Er.
      * destruct (IH _ _ _ _ H) as (new & -> & -> & Hnew & Hnd & Hdis).
        exists (mkFuzzyDuplicate (compareTwoStrings a b) postA postB :: new).
        rewrite <- !app_assoc. split; [reflexivity|]. split; [reflexivity|].
        split; [|split].
        -- intros x [<-|Hx].
           ++ cbn [original duplicate]. split; [reflexivity|].
              split; [left; reflexivity|]. exists a, b.
              cbn [original duplicate similarity].
              repeat split; try assumption. apply Qgtb_true. exact Er.
           ++ destruct (Hnew x Hx) as (H1 & H2 & H3).
              split; [exact H1|]. split; [right; exact H2|exact H3].
        -- intros Hc. rewrite app_assoc. apply Hnd. apply NoDup_snoc; [exact Hc|].
           apply checked_not_In. exact Ec.
        -- intros B [<-|HB] Hnot.
           ++ exfalso. apply Hnot. rewrite app_assoc. apply in_or_app. left.
              apply in_or_app. right. left. reflexivity.
           ++ apply Hdis; [exact HB|]. rewrite <- app_assoc. exact Hnot.
      * destruct (IH _ _ _ _ H) as (new & -> & -> & Hnew & Hnd & Hdis).
        exists new. split; [reflexivity|]. split; [reflexivity|].
        split; [|split; [exact Hnd|]].
        -- intros d Hd. destruct (Hnew d Hd) as (H1 & H2 & H3).
           split; [exact H1|]. split; [right; exact H2|exact H3].
        -- intros B [<-|HB] Hnot; [|apply Hdis; assumption].
           intros a' b' Ha' Hb'. rewrite Ea in Ha'. rewrite Eb in Hb'.
           injection Ha' as <-. injection Hb' as <-.
           apply Qgtb_false. exact Er.
Qed.

(** The outer loop. *)
Lemma scan_posts_spec : forall recentPosts c f c1 f1,
  scan_posts recentPosts (c, f) = Some (c1, f1) ->
  exists new,
    f1 = f ++ new /\ c1 = c ++ duplicate_ids new
    /\ (forall d, In d new ->
          (exists before after,
             recentPosts = before ++ original d :: after
             /\ In (duplicate d) after)
          /\ rated_pair d)
    /\ (NoDup c -> NoDup c1)
    /\ (forall before postA after postB,
          recentPosts = before ++ postA :: after -> In postB after ->
          ~ In (postId postA) c1 -> ~ In (postId postB) c1 ->
          dissimilar postA postB).
Proof.
  induction recentPosts as [|postA rest IH]; intros c f c1 f1 H.
  - injection H as <- <-. exists []. rewrite !app_nil_r.
    split; [reflexivity|]. split; [reflexivity|].
    split; [intros d []|]. split; [tauto|].
    intros before A after B E. destruct before; discriminate.
  - cbn [scan_posts fst] in H.
    destruct (checked c (postId postA)) eqn:Ec.
    + destruct (IH _ _ _ _ H) as (new & -> & -> & Hnew & Hnd & Hdis).
      exists new. split; [reflexivity|]. split; [reflexivity|].
      split; [|split; [exact Hnd|]].
      * intros d Hd. destruct (Hnew d Hd) as ((before & after & -> & Hin) & Hr).
        split; [|exact Hr]. exists (postA :: before), after.
        split; [reflexivity|exact Hin].
      * intros before A after B E HB HA HnB.
        destruct before as [|x before]; cbn [app] in E; injection E as <- E.
        -- exfalso. apply HA. apply in_or_app. left. apply checked_In. exact Ec.
        -- apply (Hdis before A after B E HB HA HnB).
    + destruct (scan_after postA rest (c, f)) as [[c0 f0]|] eqn:Ea; [|discriminate].
      destruct (scan_after_spec _ _ _ _ _ _ Ea)
        as (new0 & -> & -> & Hnew0 & Hnd0 & Hdis0).
      destruct (IH _ _ _ _ H) as (new & -> & -> & Hnew & Hnd & Hdis).
      exists (new0 ++ new). rewrite duplicate_ids_app, !app_assoc.
      split; [reflexivity|]. split; [reflexivity|]. split; [|split].
      * intros d Hd. apply in_app_or in Hd as [Hd|Hd].
        -- destruct (Hnew0 d Hd) as (Ho & Hin & Hr). split; [|exact Hr].
           exists [], rest. rewrite Ho. split; [reflexivity|exact Hin].
        -- destruct (Hnew d Hd) as ((before & after & -> & Hin) & Hr).
           split; [|exact Hr]. exists (postA :: before), after.
           split; [reflexivity|exact Hin].
      * intros Hc. apply Hnd. apply Hnd0. exact Hc.
      * intros before A after B E HB HA HnB.
        destruct before as [|x before]; cbn [app] in E; injection E as <- E.
        -- subst after. apply Hdis0; [exact HB|].
           intros Hin. apply HnB. apply in_or_app. left. exact Hin.
        -- apply (Hdis before A after B E HB HA HnB).
Qed.

Lemma scan_after_total : forall postA later state,
  title postA <> None ->
  Forall (fun p => title p <> None) later ->
  scan_after postA later state <> None.
Proof.
  intros postA. induction later as [|postB rest IH]; intros [c f] HA Hl;
    [discriminate|].
  inversion Hl as [|? ? HB Hrest]; subst. cbn [scan_after].
  destruct (checked c (postId postB)); [apply IH; assumption|].
  destruct (title postA) as [a|]; [|congruence].
  destruct (title postB) as [b|]; [|congruence].
  destruct (Qgtb _ _); apply IH; assumption.
Qed.

Lemma scan_posts_total : forall recentPosts state,
  Forall (fun p => title p <> None) recentPosts ->
  scan_posts recentPosts state <> None.
Proof.
  induction recentPosts as [|postA rest IH]; intros state Hl; [discriminate|].
  inversion Hl as [|? ? HA Hrest]; subst. cbn [scan_posts].
  destruct (checked (fst state) (postId postA)); [apply IH; exact Hrest|].
  destruct (scan_after postA rest state) as [state1|] eqn:E.
  - apply IH. exact Hrest.
  - exfalso. apply (scan_after_total postA rest state HA Hrest E).
Qed.


(** X25: when every title is defined the fuzzy pass returns, and what it
    leaves unreported is free of near duplicates: two posts of the list
    neither of which is reported as a duplicate are not rated above 0.85. *)
Theorem fuzzy_duplicates_complete : forall recentPosts,
  Forall (fun p => title p <> None) recentPosts ->
  exists found,
    fuzzy_duplicates recentPosts = Some found
    /\ forall before postA after postB,
         recentPosts = before ++ postA :: after -> In postB after ->
         ~ In (postId postA) (duplicate_ids found) ->
         ~ In (postId postB) (duplicate_ids found) ->
         dissimilar postA postB.
Proof.
  intros recentPosts Hl. unfold fuzzy_duplicates.
  destruct (scan_posts recentPosts ([], [])) as [[c f]|] eqn:E.
  - exists f. split; [reflexivity|].
    destruct (scan_posts_spec _ _ _ _ _ E) as (new & -> & -> & _ & _ & Hdis).
    exact Hdis.
  - exfalso. apply (scan_posts_total recentPosts ([], []) Hl E).
Qed.

(** ** What lies behind an outcome *)

Lemma url_known_incl : forall ps qs item,
  incl ps qs -> url_known ps item -> url_known qs item.
Proof.
  intros ps qs item Hincl (Ht & p & u & Hp & Hu & Hinc).
  split; [exact Ht|]. exists p, u. split; [apply Hincl; exact Hp|]. split; assumption.
Qed.

Lemma outcome_cause_incl : forall g ps qs item o,
  incl ps qs -> outcome_cause g ps item o -> outcome_cause g qs item o.
Proof.
  intros g ps qs item [|p| |m] Hincl H; cbn [outcome_cause] in *; try exact H.
  - apply (url_known_incl ps qs item Hincl H).
  - destruct H as [Hg [Hv | (p & q & Hm & Hu & Hq & Hk)]].
    + split; [exact Hg|left; exact Hv].
    + split; [exact Hg|]. right. exists p, q.
      split; [exact Hm|]. split; [exact Hu|].
      split; [apply Hincl; exact Hq|exact Hk].
Qed.

Lemma last_mile_duplicate_known : forall ps item c,
  last_mile_duplicate ps item = Some c -> url_known ps item.
Proof.
  intros ps item c H. unfold last_mile_duplicate in H.
  destruct (truthy_opt (url item)) eqn:Et; [|discriminate].
  split; [exact Et|].
  destruct (find_duplicate ps (normalizeUrl (url item))) as [p|] eqn:Ef;
    [|discriminate].
  unfold find_duplicate in Ef. apply find_some in Ef as [Hp Hm].
  destruct (post_url p) as [u|] eqn:Eu; [|discriminate].
  exists p, u. split; [exact Hp|]. split; [exact Eu|].
  rewrite regex_test_escape in Hm. exact Hm.
Qed.

Lemma Post_save_inl : forall ps p message,
  Post_save ps p = inl message ->
  message = VALIDATION_MESSAGE
  \/ (message = DUPLICATE_MESSAGE p
      /\ exists q, In q ps /\ duplicate_key p q = true).
Proof.
  intros ps p message H. unfold Post_save in H.
  destruct (negb (post_valid p)); [left; congruence|].
  destruct (existsb _ _) eqn:E; [|discriminate].
  right. split; [congruence|]. apply existsb_exists in E. exact E.
Qed.

Lemma worker_item_cause : forall g gen now k st item,
  outcome_cause g (posts st) item (snd (worker_item g gen now k st item)).
Proof.
  intros g gen now k st item. unfold worker_item.
  destruct (last_mile_duplicate (posts st) item) as [c|] eqn:El.
  - apply (last_mile_duplicate_known _ _ _ El).
  - destruct (g (text item) (url item)) as [d|] eqn:Eg; [|exact Eg].
    destruct (Post_save _ _) as [m|ps] eqn:Es; cbn [snd outcome_cause].
    + split; [congruence|].
      destruct (Post_save_inl _ _ _ Es) as [-> | [-> (q & Hq & Hk)]];
        [left; reflexivity|].
      right. exists (worker_newPost gen now k item d), q.
      split; [reflexivity|]. split; [apply worker_newPost_fields|].
      split; assumption.
    + congruence.
Qed.

Lemma processQueueItem_item_cause : forall g gen now k st item,
  outcome_cause g (posts st) item (snd (processQueueItem_item g gen now k st item)).
Proof.
  intros g gen now k st item. unfold processQueueItem_item.
  destruct (last_mile_duplicate (posts st) item) as [c|] eqn:El.
  - apply (last_mile_duplicate_known _ _ _ El).
  - destruct (g (text item) (url item)) as [d|] eqn:Eg; [|exact Eg].
    destruct (Post_save _ _) as [m|ps] eqn:Es.
    + assert (Hm : outcome_cause g (posts st) item (Threw m)).
      { split; [congruence|].
        destruct (Post_save_inl _ _ _ Es) as [-> | [-> (q & Hq & Hk)]];
          [left; reflexivity|].
        right. exists (processQueueItem_newPost gen now k item d), q.
        split; [reflexivity|]. split; [apply processQueueItem_newPost_fields|].
        split; assumption. }
      destruct (includes m _); exact Hm.
    + cbn [snd outcome_cause]. congruence.
Qed.

Section BatchCause.

Variable removes : Outcome -> bool.
Variable step : nat -> Store -> QueueItem -> Store * Outcome.
Hypothesis step_ok : step_effect removes step.
Variable arrivals : nat -> list QueueItem.

(** The posts an iteration sees are among the posts after the loop. *)
Lemma run_batch_outcome_final : forall batch k st item o,
  In (item, o) (snd (run_batch step arrivals k batch st)) ->
  exists k' st0,
    o = snd (step k' st0 item)
    /\ incl (posts st0) (posts (fst (run_batch step arrivals k batch st))).
Proof.
  induction batch as [|x rest IH]; intros k st item o H; [contradiction|].
  rewrite run_batch_cons in H |- *. cbn [fst snd] in *.
  destruct H as [E|H].
  - injection E as -> <-.
    exists k, (Queue_insertMany (arrivals k) st). split; [reflexivity|].
    rewrite (run_batch_posts removes step step_ok).
    destruct (step_ok k (Queue_insertMany (arrivals k) st) item) as [_ ->].
    intros p Hp. apply in_or_app. left. apply in_or_app. left. exact Hp.
  - apply (IH _ _ _ _ H).
Qed.

End BatchCause.

(** X26: behind every outcome of a cycle, with the posts as they are after
    the cycle: an item is dropped as a duplicate only when it has a URL
    whose normalized form is contained, up to case, in the URL of a stored
    post; as a failed rewrite only when the rewrite returned nothing; and
    an error is thrown only after a rewrite, by the validation of the post
    or by a unique index, and then a stored post has the id or the URL of
    the post that carries the URL of the item. *)
Theorem outcome_has_cause : forall g gen now arrivals st item o,
  (In (item, o) (snd (worker_cycle g gen now arrivals st)) ->
   outcome_cause g (posts (fst (worker_cycle g gen now arrivals st))) item o)
  /\ (In (item, o) (snd (processQueueItem g gen now arrivals st)) ->
      outcome_cause g (posts (fst (processQueueItem g gen now arrivals st)))
        item o).
Proof.
  intros g gen now arrivals st item o. split; intros H.
  - destruct (run_batch_outcome_final worker_removes _ (worker_item_effect g gen now)
                arrivals _ _ _ _ _ H) as (k & st0 & -> & Hincl).
    apply (outcome_cause_incl g (posts st0)); [exact Hincl|].
    apply worker_item_cause.
  - destruct (run_batch_outcome_final processQueueItem_removes _
                (processQueueItem_item_effect g gen now) arrivals _ _ _ _ _ H)
      as (k & st0 & -> & Hincl).
    apply (outcome_cause_incl g (posts st0)); [exact Hincl|].
    apply processQueueItem_item_cause.
Qed.

(** ** The fallbacks of the worker service *)

(** X27: the post the worker service builds always has a title and a summary:
    it is valid as soon as the related stories of the item have titles, so
    an error thrown for such an item comes from a unique index. *)
Theorem processQueueItem_newPost_valid : forall g gen now k st item d,
  forallb (fun r => truthy_opt (story_title r)) (relatedStories item) = true ->
  truthy_opt (title (processQueueItem_newPost gen now k item d)) = true
  /\ truthy_opt (summary (processQueueItem_newPost gen now k item d)) = true
  /\ post_valid (processQueueItem_newPost gen now k item d) = true
  /\ forall message,
       snd (processQueueItem_item g gen now k st item) = Threw message ->
       exists p, message = DUPLICATE_MESSAGE p.
Proof.
  intros g gen now k st item d Hstories.
  assert (Hor : forall x dflt, truthy dflt = true -> truthy (or_else x dflt) = true).
  { intros [[|c x]|] dflt Hd; cbn; try exact Hd; reflexivity. }
  assert (Hfields : forall d',
            truthy_opt (title (processQueueItem_newPost gen now k item d')) = true
            /\ truthy_opt (summary (processQueueItem_newPost gen now k item d')) = true
            /\ post_valid (processQueueItem_newPost gen now k item d') = true).
  { intros d'. unfold post_valid, processQueueItem_newPost.
    destruct (derive_video item).
    cbn [title summary post_relatedStories truthy_opt].
    rewrite Hstories, andb_true_r.
    assert (Ht : truthy
                   match g_title d' with
                   | Some t =>
                       if negb (truthy t)
                          || str_eqb (filter (fun c => negb (is_space c)) t) []
                       then or_else (Some (extractSlugFromUrl (url item)))
                              (lit "News Update")
                       else t
                   | None => or_else (Some (extractSlugFromUrl (url item)))
                               (lit "News Update")
                   end = true).
    { destruct (g_title d') as [t|]; [|apply Hor; reflexivity].
      destruct (truthy t) eqn:Et; cbn [negb orb]; [|apply Hor; reflexivity].
      destruct (str_eqb _ _); [apply Hor; reflexivity|exact Et]. }
    split; [exact Ht|]. split; [apply Hor; exact Ht|exact Ht]. }
  destruct (Hfields d) as (H1 & H2 & H3).
  split; [exact H1|]. split; [exact H2|]. split; [exact H3|].
  intros message. unfold processQueueItem_item.
  destruct (last_mile_duplicate _ _); [discriminate|].
  destruct (g (text item) (url item)) as [d'|]; [|discriminate].
  destruct (Post_save _ _) as [m|ps] eqn:Es; [|discriminate].
  assert (Hm : exists p, m = DUPLICATE_MESSAGE p).
  { unfold Post_save in Es. destruct (Hfields d') as (_ & _ & Hv).
    rewrite Hv in Es. cbn [negb] in Es.
    destruct (existsb _ _); [|discriminate].
    injection Es as <-. eexists. reflexivity. }
  destruct (includes m _); cbn [snd]; intros E; injection E as <-; exact Hm.
Qed.

(** ** Titles known before the cycle *)

(** X28: an entry whose title is rated above the threshold against the title
    of a post of the last 72 hours, or against the title read back from a
    queued document, is skipped by the cycle. *)
Theorem known_title_skipped :
  forall parseURL newObjectId ObjectId_toString now feeds st t e d,
  t <> [] ->
  (exists p, In p (posts st) /\ recent now p = true /\ title p = Some t)
  \/ (exists q, In q (queue st) /\ queue_title q = t) ->
  In (e, d) (fetch_trace parseURL newObjectId ObjectId_toString now feeds st) ->
  (SIMILARITY_THRESHOLD < compareTwoStrings (item_title e) t)%Q ->
  d = SkippedUrl \/ d = SkippedTitle.
Proof.
  intros parseURL oid os now feeds st t e d Ht Hknown Hin Hrated.
  assert (Hmem : In t (existingTitles (initial_memory now st))).
  { cbn [initial_memory existingTitles]. apply filter_In. split.
    - apply in_or_app. destruct Hknown as [(p & Hp & Hr & Et)|(q & Hq & Et)].
      + left. apply in_map_iff. exists p. rewrite Et. split; [reflexivity|].
        apply filter_In. split; assumption.
      + right. apply in_map_iff. exists q. split; assumption.
    - destruct t; [congruence|reflexivity]. }
  destruct (fetch_feeds_titles parseURL oid os now feeds (st, initial_memory now st)
              t Hmem) as [_ Hskips].
  apply (Hskips e d Hin Hrated).
Qed.

End Pipeline.

(* ================================================================== *)
(** * Part IV. Examples                                               *)
(* ================================================================== *)

(** The examples run the pipeline on [fragment_platform], the platform
    whose URL class is the standard on the fragment, and with the
    postSchema of server.js. *)

#[global] Existing Instance fragment_platform.
#[global] Existing Instance server_postSchema.

Lemma fragment_follows_standard : follows_standard.
Proof. intros input u H. exists u. split; [exact H|]. split; reflexivity. Qed.

(** The URLs that the examples hand to [new URL] are of the fragment. *)
Lemma examples_in_fragment :
  Forall (fun u => URL_parse (lit u) <> None)
    ["https://a.com/x//"; "https://a.com/x/"; "https://a.com/x";
     "https://site.com/news/politics/?utm_source=rss#top";
     "https://site.com/news/politics#top";
     "https://site.com/news/politics/12345";
     "https://site.com/News/Big_Story.HTML?x=1";
     "https://site.com/news/2024/12345";
     "https://site.com/news/story/?utm_source=rss";
     "https://site.com/story?id=7#top"; "https://site.com/story#top";
     "https://site.com/story/7?utm_source=rss"; "HTTPS://Site.com/story/7/";
     "https://site.com/flood"; "https://site.com/archive/9";
     "https://one.com/story"; "https://one.com/rains?utm_source=rss";
     "https://two.com/item"; "https://two.com/item/";
     "https://x.com/h/status/1790000000000000001";
     "https://x.com/h/status/1790000000000000002"]%string.
Proof. repeat constructor; vm_compute; discriminate. Qed.





(** C1 (as stated) fails when persisting the post throws: the item is
    selected, the last-mile check misses the stored URL, [save] meets the
    unique index, and the item is still queued after the cycle, in both
    workers. *)
Lemma worker_keeps_item_when_save_throws :
  select_batch budget_store = [budget_item]
  /\ snd (worker_cycle budget_rewrite (fun _ => 100000002%N) (fun _ => 2000%N)
            no_arrivals budget_store)
     = [(budget_item,
         Threw (lit "E11000 duplicate key error collection: posts dup key: "
                ++ budget_url))]
  /\ queue (fst (worker_cycle budget_rewrite (fun _ => 100000002%N)
                   (fun _ => 2000%N) no_arrivals budget_store))
     = [budget_item]
  /\ snd (processQueueItem budget_rewrite (fun _ => 100000002%N) (fun _ => 2000%N)
            no_arrivals budget_store)
     = [(budget_item,
         Threw (lit "E11000 duplicate key error collection: posts dup key: "
                ++ budget_url))]
  /\ queue (fst (processQueueItem budget_rewrite (fun _ => 100000002%N)
                   (fun _ => 2000%N) no_arrivals budget_store))
     = [budget_item].
Proof. repeat split; vm_compute; reflexivity. Qed.

Lemma drain_cycle_removal_witness :
  NoDup (ids (queue fresh_store
              ++ arrived no_arrivals 0 (length (select_batch fresh_store))))
  /\ ~ In (_id budget_item)
         (ids (queue (fst (worker_cycle budget_rewrite (fun _ => 100000002%N)
                             (fun _ => 2000%N) no_arrivals fresh_store)))).
Proof.
  assert (Hnd : NoDup (ids (queue fresh_store
              ++ arrived no_arrivals 0 (length (select_batch fresh_store)))))
    by (vm_compute; repeat constructor; simpl; tauto).
  split; [exact Hnd|].
  destruct (drain_cycle_removal budget_rewrite (fun _ => 100000002%N)
              (fun _ => 2000%N) no_arrivals fresh_store Hnd) as (_ & H & _).
  apply (H budget_item
           (Published (worker_newPost (fun _ => 100000002%N) (fun _ => 2000%N)
                         0 budget_item budget_data))).
  vm_compute. left; reflexivity.
Defined.

Lemma duplicate_item_is_dropped_witness :
  In (repost_item, SkippedDuplicate)
    (snd (worker_cycle budget_rewrite (fun _ => 100000002%N) (fun _ => 2000%N)
            no_arrivals repost_store))
  /\ posts (fst (worker_cycle budget_rewrite (fun _ => 100000002%N)
                   (fun _ => 2000%N) no_arrivals repost_store))
     = [repost_post]
  /\ queue (fst (worker_cycle budget_rewrite (fun _ => 100000002%N)
                   (fun _ => 2000%N) no_arrivals repost_store))
     = [].
Proof.
  assert (Hnd : NoDup (ids (queue repost_store
              ++ arrived no_arrivals 0 (length (select_batch repost_store)))))
    by (vm_compute; repeat constructor; simpl; tauto).
  destruct (duplicate_item_is_dropped budget_rewrite (fun _ => 100000002%N)
              (fun _ => 2000%N) no_arrivals repost_store repost_item
              repost_post (lit "HTTPS://Site.com/story/7/") Hnd)
    as [(H1 & _) _].
  - vm_compute. left; reflexivity.
  - reflexivity.
  - left; reflexivity.
  - reflexivity.
  - vm_compute. reflexivity.
  - split; [exact H1|]. split; vm_compute; reflexivity.
Defined.

Lemma null_rewrite_is_dropped_witness :
  snd (worker_cycle selective_rewrite (fun _ => 100000002%N) (fun _ => 2000%N)
         no_arrivals mixed_store)
  = [(budget_item, RewriteFailed);
     (flood_item,
      Published (worker_newPost (fun _ => 100000002%N) (fun _ => 2000%N) 1
                   flood_item
                   (mkGeminiData (Some (lit "Flood warning"))
                      (Some (lit "Summary")) (Some (lit "Weather"))
                      (Some (lit "flood warning")))))]
  /\ posts (fst (worker_cycle selective_rewrite (fun _ => 100000002%N)
                   (fun _ => 2000%N) no_arrivals mixed_store))
     = posts mixed_store
       ++ published
            (others budget_item
               (snd (worker_cycle selective_rewrite (fun _ => 100000002%N)
                       (fun _ => 2000%N) no_arrivals mixed_store)))
  /\ length (posts (fst (worker_cycle selective_rewrite (fun _ => 100000002%N)
                           (fun _ => 2000%N) no_arrivals mixed_store)))
     = 2
  /\ ~ In (_id budget_item)
         (ids (queue (fst (worker_cycle selective_rewrite (fun _ => 100000002%N)
                             (fun _ => 2000%N) no_arrivals mixed_store)))).
Proof.
  assert (Hnd : NoDup (ids (queue mixed_store
              ++ arrived no_arrivals 0 (length (select_batch mixed_store)))))
    by (vm_compute; repeat constructor; simpl; intuition discriminate).
  destruct (null_rewrite_is_dropped selective_rewrite (fun _ => 100000002%N)
              (fun _ => 2000%N) no_arrivals mixed_store budget_item Hnd)
    as [(_ & _ & Hposts & Hgone & _) _].
  - vm_compute. left; reflexivity.
  - reflexivity.
  - split; [vm_compute; reflexivity|]. split; [exact Hposts|].
    split; [vm_compute; reflexivity|exact Hgone].
Defined.

(** C9 (as stated) fails in processQueueItem of the worker service, whose
    last fallback is another string. *)
Lemma processQueueItem_fallback_slug :
  map imageSearchSlug
    (posts (fst (processQueueItem plain_rewrite (fun _ => 100000002%N)
                   (fun _ => 2000%N) no_arrivals pasted_store)))
  = [lit "latest-news"]
  /\ lit "latest-news" <> lit "latest-telugu-news".
Proof. split; [vm_compute; reflexivity|vm_compute; discriminate]. Qed.

Lemma published_slug_witness :
  posts (fst (worker_cycle plain_rewrite (fun _ => 100000002%N)
                (fun _ => 2000%N) no_arrivals pasted_store))
  = [worker_newPost (fun _ => 100000002%N) (fun _ => 2000%N) 0 pasted_item
       (mkGeminiData (Some (lit "Title")) (Some (lit "Summary")) None (Some []))]
  /\ imageSearchSlug
       (worker_newPost (fun _ => 100000002%N) (fun _ => 2000%N) 0 pasted_item
          (mkGeminiData (Some (lit "Title")) (Some (lit "Summary")) None (Some [])))
     = lit "latest-telugu-news"
  /\ categories
       (worker_newPost (fun _ => 100000002%N) (fun _ => 2000%N) 0 pasted_item
          (mkGeminiData (Some (lit "Title")) (Some (lit "Summary")) None (Some [])))
     = [lit "General"].
Proof.
  split; [vm_compute; reflexivity|].
  destruct (published_slug plain_rewrite (fun _ => 100000002%N) (fun _ => 2000%N)
              no_arrivals pasted_store pasted_item
              (worker_newPost (fun _ => 100000002%N) (fun _ => 2000%N) 0
                 pasted_item
                 (mkGeminiData (Some (lit "Title")) (Some (lit "Summary")) None
                    (Some [])))) as [H _].
  destruct H as (d & Hg & _ & _ & Hslug & Hcat).
  - vm_compute. left; reflexivity.
  - injection Hg as <-. split; [apply Hslug; reflexivity|apply Hcat; reflexivity].
Defined.

(** C6 (as stated) fails at a similarity of exactly 0.65: both entries
    are enqueued in the same cycle. *)
Lemma both_enqueued_at_threshold :
  (compareTwoStrings (item_title second_entry) (item_title first_entry)
   == 65 # 100)%Q
  /\ (SIMILARITY_THRESHOLD
      <= compareTwoStrings (item_title second_entry) (item_title first_entry))%Q
  /\ fetch_trace two_feeds_parse (fun n => n) oid_text 5000%N two_feeds
       (mkStore [] [])
     = [(first_entry, Enqueued); (second_entry, Enqueued)]
  /\ snd (fetchAndQueueRSS two_feeds_parse (fun n => n) oid_text 5000%N
            two_feeds (initial_process (mkStore [] [])))
     = 2.
Proof.
  split; [vm_compute; reflexivity|].
  split; [vm_compute; discriminate|].
  split; vm_compute; reflexivity.
Qed.

Lemma near_duplicate_skipped_witness :
  fetch_trace similar_feeds_parse (fun n => n) oid_text 5000%N two_feeds
    (mkStore [] [])
  = [(first_entry, Enqueued); (third_entry, SkippedTitle)]
  /\ (SkippedTitle = SkippedUrl \/ SkippedTitle = SkippedTitle).
Proof.
  assert (Htrace : fetch_trace similar_feeds_parse (fun n => n) oid_text 5000%N
                     two_feeds (mkStore [] [])
                   = [] ++ (first_entry, Enqueued)
                        :: [] ++ (third_entry, SkippedTitle) :: [])
    by (vm_compute; reflexivity).
  split; [exact Htrace|].
  destruct (near_duplicate_skipped similar_feeds_parse (fun n => n) oid_text
              5000%N) as [H _].
  apply (H two_feeds (mkStore [] []) [] first_entry [] third_entry
           SkippedTitle [] Htrace).
  vm_compute. reflexivity.
Defined.

Lemma fetch_cycle_guard_witness :
  fetchAndQueueRSS two_feeds_parse (fun n => n) oid_text 5000%N two_feeds
    busy_process
  = (busy_process, 0)
  /\ in_flight busy_process <= 1.
Proof.
  destruct fetch_cycle_guard as (Hguard & Hone & _ & _).
  split.
  - apply Hguard. reflexivity.
  - apply (Hone (mkStore [] []) [Entered] busy_process).
    econstructor; [apply step_entered; reflexivity|constructor].
Defined.

Lemma normalizeUrl_canonical_witness :
  normalizeUrl (Some (lit "https://site.com/news/story/?utm_source=rss"))
  = lit "https://site.com/news/story".
Proof.
  apply (normalizeUrl_canonical fragment_follows_standard
           (lit "https") (lit "site.com")
           [lit "news"; lit "story"] (Some (lit "utm_source=rss")) true).
  - left; reflexivity.
  - vm_compute; reflexivity.
  - repeat constructor.
  - vm_compute; discriminate.
  - vm_compute; reflexivity.
Defined.

Lemma normalizeUrl_valid_witness :
  exists v,
    URL_parse (normalizeUrl (Some (lit "https://site.com/story?id=7#top")))
    = Some v /\ query v = None.
Proof.
  apply (normalizeUrl_valid fragment_follows_standard).
  vm_compute. discriminate.
Defined.

Lemma published_post_fields_witness :
  imageUrl note_item = undefined
  /\ built_from (Some DEFAULT_IMAGE_URL) (fun _ => 100000002%N) (fun _ => 2000%N)
       note_item
       (worker_newPost (fun _ => 100000002%N) (fun _ => 2000%N) 0 note_item
          (mkGeminiData (Some (lit "Title")) (Some (lit "Summary")) None
             (Some [])))
  /\ post_imageUrl
       (worker_newPost (fun _ => 100000002%N) (fun _ => 2000%N) 0 note_item
          (mkGeminiData (Some (lit "Title")) (Some (lit "Summary")) None
             (Some [])))
     = value DEFAULT_IMAGE_URL
  /\ built_from None (fun _ => 100000002%N) (fun _ => 2000%N) note_item
       (processQueueItem_newPost (fun _ => 100000002%N) (fun _ => 2000%N) 0
          note_item
          (mkGeminiData (Some (lit "Title")) (Some (lit "Summary")) None
             (Some [])))
  /\ post_imageUrl
       (processQueueItem_newPost (fun _ => 100000002%N) (fun _ => 2000%N) 0
          note_item
          (mkGeminiData (Some (lit "Title")) (Some (lit "Summary")) None
             (Some [])))
     = undefined.
Proof.
  destruct (published_post_fields plain_rewrite (fun _ => 100000002%N)
              (fun _ => 2000%N) no_arrivals note_store note_item
              (worker_newPost (fun _ => 100000002%N) (fun _ => 2000%N) 0
                 note_item
                 (mkGeminiData (Some (lit "Title")) (Some (lit "Summary")) None
                    (Some [])))) as [Hw _].
  destruct (published_post_fields plain_rewrite (fun _ => 100000002%N)
              (fun _ => 2000%N) no_arrivals note_store note_item
              (processQueueItem_newPost (fun _ => 100000002%N)
                 (fun _ => 2000%N) 0 note_item
                 (mkGeminiData (Some (lit "Title")) (Some (lit "Summary")) None
                    (Some [])))) as [_ Hq].
  split; [reflexivity|].
  split; [apply Hw; vm_compute; left; reflexivity|].
  split; [reflexivity|].
  split; [apply Hq; vm_compute; left; reflexivity|reflexivity].
Defined.

(** The same item under the postSchema of index.js: the image of the post
    stays undefined. *)
Lemma worker_newPost_index_image :
  post_imageUrl
    (worker_newPost (postSchema := index_postSchema) (fun _ => 100000002%N)
       (fun _ => 2000%N) 0 note_item
       (mkGeminiData (Some (lit "Title")) (Some (lit "Summary")) None (Some [])))
  = undefined.
Proof. reflexivity. Qed.

(** A feed entry without image is queued with a null image, which no
    schema default replaces. *)
Lemma worker_newPost_null_image :
  imageUrl (rss_queue_item 1 oid_text 1000%N
              (mkFeedSource (lit "One") (lit "https://one.com/rss")) first_entry)
  = null
  /\ post_imageUrl
       (worker_newPost (fun _ => 100000002%N) (fun _ => 2000%N) 0
          (rss_queue_item 1 oid_text 1000%N
             (mkFeedSource (lit "One") (lit "https://one.com/rss")) first_entry)
          budget_data)
     = null.
Proof. split; reflexivity. Qed.


Lemma same_url_never_published_witness :
  In (budget_item,
      Threw (lit "E11000 duplicate key error collection: posts dup key: "
             ++ budget_url))
    (snd (worker_cycle budget_rewrite (fun _ => 100000002%N) (fun _ => 2000%N)
            no_arrivals budget_store))
  /\ forall p,
       Threw (lit "E11000 duplicate key error collection: posts dup key: "
              ++ budget_url) <> Published p.
Proof.
  split; [vm_compute; left; reflexivity|].
  apply (same_url_never_published budget_rewrite (fun _ => 100000002%N)
           (fun _ => 2000%N) no_arrivals budget_store budget_item _ budget_url
           budget_post).
  - left. vm_compute. left. reflexivity.
  - reflexivity.
  - left. reflexivity.
  - reflexivity.
Defined.

Lemma fetchAndQueueRSS_count_witness :
  exists saved,
    store (fst (fetchAndQueueRSS two_feeds_parse (fun n => n) oid_text 5000%N
                  two_feeds (initial_process (mkStore [] []))))
    = Queue_insertMany saved (store (initial_process (mkStore [] [])))
    /\ Forall2 (queued_from 5000%N)
         (enqueued (fetch_trace two_feeds_parse (fun n => n) oid_text 5000%N
                      two_feeds (store (initial_process (mkStore [] [])))))
         saved
    /\ snd (fetchAndQueueRSS two_feeds_parse (fun n => n) oid_text 5000%N
              two_feeds (initial_process (mkStore [] [])))
       = length saved
    /\ isRSSFetching
         (fst (fetchAndQueueRSS two_feeds_parse (fun n => n) oid_text 5000%N
                 two_feeds (initial_process (mkStore [] []))))
       = false.
Proof.
  apply (fetchAndQueueRSS_count two_feeds_parse (fun n => n) oid_text 5000%N
           two_feeds (initial_process (mkStore [] []))).
  reflexivity.
Defined.

Lemma enqueued_links_distinct_witness :
  fetch_trace fresh_feeds_parse (fun n => n) oid_text 5000%N two_feeds known_store
  = [(first_entry, SkippedUrl); (fresh_entry, Enqueued);
     (second_entry, SkippedUrl)]
  /\ map (fun q => normalizeUrl (url q)) (queue known_store)
     = [lit "https://one.com/story"]
  /\ map (fun p => normalizeUrl (post_url p))
       (filter (recent 5000%N) (posts known_store))
     = [lit "https://two.com/item"]
  /\ clean_link fresh_entry = lit "https://one.com/rains"
  /\ (forall q, In q (queue known_store) ->
                normalizeUrl (url q) <> clean_link fresh_entry)
  /\ (forall p, In p (posts known_store) -> recent 5000%N p = true ->
                normalizeUrl (post_url p) <> clean_link fresh_entry).
Proof.
  split; [vm_compute; reflexivity|].
  split; [vm_compute; reflexivity|].
  split; [vm_compute; reflexivity|].
  split; [vm_compute; reflexivity|].
  apply (enqueued_links_distinct fresh_feeds_parse (fun n => n) oid_text 5000%N
           two_feeds known_store).
  vm_compute. left. reflexivity.
Defined.

Lemma fetch_again_queues_nothing_witness :
  fetchAndQueueRSS two_feeds_parse (fun n => n + 7) oid_text 9000%N two_feeds
    (fst (fetchAndQueueRSS two_feeds_parse (fun n => n) oid_text 5000%N two_feeds
            (initial_process (mkStore [] []))))
  = (fst (fetchAndQueueRSS two_feeds_parse (fun n => n) oid_text 5000%N two_feeds
            (initial_process (mkStore [] []))), 0).
Proof.
  apply (fetch_again_queues_nothing two_feeds_parse (fun n => n) oid_text 5000%N
           (fun n => n + 7) oid_text 9000%N two_feeds
           (initial_process (mkStore [] []))).
  - reflexivity.
  - intros f items e Hf Hparse He.
    destruct Hf as [<-|[<-|[]]]; vm_compute in Hparse; injection Hparse as <-;
      destruct He as [<-|[]]; (split; [discriminate|]);
      vm_compute; intuition discriminate.
  - intros q [].
Defined.


Lemma fetchAndQueueTweetsForHandle_count_witness :
  exists saved,
    fst (fetchAndQueueTweetsForHandle sample_timeline no_tweetId (fun _ k => k)
           7000%N (lit "handle") (mkStore [] []))
    = Queue_insertMany saved (mkStore [] [])
    /\ snd (fetchAndQueueTweetsForHandle sample_timeline no_tweetId (fun _ k => k)
              7000%N (lit "handle") (mkStore [] []))
       = length saved
    /\ (saved = []
        \/ saved
           = tweet_queue_docs (fun _ k => k) 7000%N (lit "handle")
               (new_tweets no_tweetId (mkStore [] [])
                  (reply_tweets (sample_timeline (lit "handle"))))).
Proof.
  apply (fetchAndQueueTweetsForHandle_count sample_timeline no_tweetId
           (fun _ k => k) 7000%N (lit "handle") (mkStore [] [])).
  vm_compute. constructor; [|constructor; [|constructor]]; simpl; intuition discriminate.
Defined.

Lemma fetchAndQueueTweetsForHandle_again_witness :
  fetchAndQueueTweetsForHandle sample_timeline no_tweetId (fun _ k => k + 2)
    8000%N (lit "handle")
    (fst (fetchAndQueueTweetsForHandle sample_timeline no_tweetId (fun _ k => k)
            7000%N (lit "handle") (mkStore [] [])))
  = (fst (fetchAndQueueTweetsForHandle sample_timeline no_tweetId (fun _ k => k)
            7000%N (lit "handle") (mkStore [] [])), 0).
Proof.
  apply (fetchAndQueueTweetsForHandle_again sample_timeline no_tweetId
           (fun _ k => k) 7000%N (fun _ k => k + 2) 8000%N (lit "handle")
           (mkStore [] [])).
  vm_compute. constructor; [|constructor; [|constructor]]; simpl; intuition discriminate.
Defined.

Lemma getOrCreateTags_keeps_unique_witness :
  tags_consistent
    (fst (getOrCreateTags (fun k => 10 + k)
            (Some [lit "Andhra Pradesh"; lit "andhra-pradesh"; lit "AP!"])
            [mkTag 1 (lit "Politics") (lit "politics")])).
Proof.
  apply getOrCreateTags_keeps_unique.
  split; [|split].
  - constructor; [simpl; tauto|constructor].
  - constructor; [simpl; tauto|constructor].
  - constructor; [split; discriminate|constructor].
Defined.

Lemma add_then_delete_restores_witness :
  fst (deleteQueueItem (lit "65f0c0fff0") pasted_store) = mkStore [] [].
Proof.
  apply (add_then_delete_restores 3 (fun _ => lit "65f0c0fff0") 1000%N
           (mkTextBody None None None) pasted_body (mkStore [] []) pasted_store
           (lit "65f0c0fff0")).
  right. split; reflexivity.
Defined.


Lemma fuzzy_duplicates_complete_witness :
  exists found,
    fuzzy_duplicates scan_sample = Some found
    /\ forall before postA after postB,
         scan_sample = before ++ postA :: after -> In postB after ->
         ~ In (postId postA) (duplicate_ids found) ->
         ~ In (postId postB) (duplicate_ids found) ->
         dissimilar postA postB.
Proof.
  apply (fuzzy_duplicates_complete scan_sample).
  repeat (constructor; [discriminate|]). constructor.
Defined.

Lemma queue_title_round_trip_witness :
  queue_title (rss_queue_item 0 oid_text 5000%N
                 (mkFeedSource (lit "One") (lit "https://one.com/rss")) first_entry)
  = item_title first_entry
  /\ queue_title
       (content_queue_item 3 (fun _ => lit "65f0c0fff0") 1000%N
          (mkBody (Some (lit "Body")) None (Some (lit "Headline")) None None None)
          [])
     = lit "Headline".
Proof.
  apply (queue_title_round_trip 0 oid_text 5000%N
           (mkFeedSource (lit "One") (lit "https://one.com/rss")) first_entry
           (mkBody (Some (lit "Body")) None (Some (lit "Headline")) None None None)
           [] 3 (fun _ => lit "65f0c0fff0") (lit "Headline")).
  - vm_compute. intuition discriminate.
  - reflexivity.
  - discriminate.
  - vm_compute. intuition discriminate.
Defined.

Lemma outcome_has_cause_witness :
  outcome_cause budget_rewrite
    (posts (fst (worker_cycle budget_rewrite (fun _ => 100000002%N)
                   (fun _ => 2000%N) no_arrivals budget_store)))
    budget_item
    (Threw (lit "E11000 duplicate key error collection: posts dup key: "
            ++ budget_url)).
Proof.
  apply (outcome_has_cause budget_rewrite (fun _ => 100000002%N) (fun _ => 2000%N)
           no_arrivals budget_store budget_item).
  vm_compute. left. reflexivity.
Defined.

Lemma processQueueItem_newPost_valid_witness :
  truthy_opt (title (processQueueItem_newPost (fun _ => 100000002%N)
                       (fun _ => 2000%N) 0 pasted_item
                       (mkGeminiData None None None None))) = true
  /\ truthy_opt (summary (processQueueItem_newPost (fun _ => 100000002%N)
                            (fun _ => 2000%N) 0 pasted_item
                            (mkGeminiData None None None None))) = true
  /\ post_valid (processQueueItem_newPost (fun _ => 100000002%N)
                   (fun _ => 2000%N) 0 pasted_item
                   (mkGeminiData None None None None)) = true
  /\ forall message,
       snd (processQueueItem_item plain_rewrite (fun _ => 100000002%N)
              (fun _ => 2000%N) 0 pasted_store pasted_item) = Threw message ->
       exists p, message = DUPLICATE_MESSAGE p.
Proof.
  apply (processQueueItem_newPost_valid plain_rewrite (fun _ => 100000002%N)
           (fun _ => 2000%N) 0 pasted_store pasted_item
           (mkGeminiData None None None None)).
  reflexivity.
Defined.

Lemma known_title_skipped_witness :
  fetch_trace similar_feeds_parse (fun n => n) oid_text 5000%N two_feeds
    (mkStore (queue known_store) [])
  = [(first_entry, SkippedUrl); (third_entry, SkippedTitle)]
  /\ link third_entry <> link first_entry
  /\ (SIMILARITY_THRESHOLD
      < compareTwoStrings (item_title third_entry) (item_title first_entry))%Q
  /\ (SkippedTitle = SkippedUrl \/ SkippedTitle = SkippedTitle).
Proof.
  split; [vm_compute; reflexivity|].
  split; [discriminate|].
  split; [vm_compute; reflexivity|].
  apply (known_title_skipped similar_feeds_parse (fun n => n) oid_text 5000%N
           two_feeds (mkStore (queue known_store) [])
           (item_title first_entry) third_entry SkippedTitle).
  - discriminate.
  - right. eexists. split; [left; reflexivity|]. vm_compute. reflexivity.
  - vm_compute. right. left. reflexivity.
  - vm_compute. reflexivity.
Defined.
